(** * meteor_demod: the filter engine, the RRC factory, the interpolator and
      the worker loop of the demodulator, embedded from the C sources.

    - [filters.c]      : [filter_new], [filter_fwd], [filter_rrc],
                         [compute_rrc_coeff]
    - [interpolator.c] : [interp_read]
    - [demod.c]        : [demod_thr_run], [demod_get_bytes_out]

    C integers are [Z] with the wrap-around of their width written out, C
    arrays are lists read and written through bounds-checked accessors (an
    access outside the array is undefined behaviour and yields [None]), and
    [float]/[double] are IEEE-754 binary32/binary64 values of the standard
    library's [SpecFloat].  Every operation is done in the type the C
    expression has after the usual arithmetic conversions, rounded to
    nearest, and every implicit conversion is written out. *)

From Stdlib Require Import Reals Lra.
From Stdlib Require Import ZArith Bool Lia SpecFloat.
From stdpp Require Import base option list.

Local Open Scope Z_scope.

(* ================================================================== *)
(** * Part I: the embedding *)

(* ------------------------------------------------------------------ *)
(** ** Machine integers *)

Module MachInt.

Definition UINT_MAX : Z := 2 ^ 32 - 1.
Definition INT_MAX : Z := 2 ^ 31 - 1.

(** Conversion to [unsigned] (32 bits). *)
Definition to_uint (z : Z) : Z := z mod 2 ^ 32.

(** Conversion to [int] (32 bits, two's complement). *)
Definition to_int (z : Z) : Z := (z + 2 ^ 31) mod 2 ^ 32 - 2 ^ 31.

(** Conversion to [size_t] (64 bits). *)
Definition to_size (z : Z) : Z := z mod 2 ^ 64.

(** Conversion to [int8_t]. *)
Definition to_int8 (z : Z) : Z := (z + 128) mod 256 - 128.

End MachInt.
Import MachInt.

(* ------------------------------------------------------------------ *)
(** ** C arrays and loops *)

Section Arrays.
Context {A : Type}.

(** [a[i]] as an rvalue. *)
Definition load (a : list A) (i : Z) : option A :=
  if decide (0 <= i) then a !! Z.to_nat i else None.

(** [a[i] = x]. *)
Definition store (a : list A) (i : Z) (x : A) : option (list A) :=
  if decide (0 <= i < Z.of_nat (length a))
  then Some (<[Z.to_nat i := x]> a) else None.

(** [memmove(a + dst, a + src, len * sizeof *a)]: the [len] elements from
    [src] on are copied to [dst] on, as if through a temporary. *)
Definition memmove (a : list A) (dst src len : Z) : option (list A) :=
  if decide (0 <= dst /\ 0 <= src /\ 0 <= len /\
             dst + len <= Z.of_nat (length a) /\
             src + len <= Z.of_nat (length a))
  then Some (take (Z.to_nat dst) a
             ++ take (Z.to_nat len) (drop (Z.to_nat src) a)
             ++ drop (Z.to_nat (dst + len)) a)
  else None.

End Arrays.

Section Loops.
Context {S : Type}.

(** [for (i = lo; ...; i++) body], run for [n] iterations. *)
Fixpoint for_up (n : nat) (i : Z) (body : Z -> S -> option S) (s : S)
  : option S :=
  match n with
  | O => Some s
  | Datatypes.S n' => s' ← body i s; for_up n' (i + 1) body s'
  end.

(** [for (i = hi; ...; i--) body], run for [n] iterations. *)
Fixpoint for_down (n : nat) (i : Z) (body : Z -> S -> option S) (s : S)
  : option S :=
  match n with
  | O => Some s
  | Datatypes.S n' => s' ← body i s; for_down n' (i - 1) body s'
  end.

End Loops.

(** Number of iterations of [for (i = lo; i < hi; i++)], and of
    [for (i = hi - 1; i >= lo; i--)]. *)
Definition trip_count (lo hi : Z) : nat := Z.to_nat (hi - lo).

(* ------------------------------------------------------------------ *)
(** ** Sample arithmetic

    The filter engine only adds, subtracts and scales samples.  It is
    written over this interface; [float complex] samples with [float]
    coefficients are the instance the program runs ([IEEE.complex32]). *)

Class SampleOps := {
  coef : Type;                       (* float *)
  dcoef : Type;                      (* double *)
  sample : Type;                     (* float complex *)
  coef_of_double : dcoef -> coef;    (* (float)d *)
  czero : sample;                    (* all bits zero, as calloc leaves it *)
  cadd : sample -> sample -> sample;
  csub : sample -> sample -> sample;
  cscale : sample -> coef -> sample; (* complex * real *)
  is_zero : sample -> bool;          (* z == 0 *)
  is_zero_czero : is_zero czero = true
}.

(* ------------------------------------------------------------------ *)
(** ** filters.c: the filter engine *)

Section FilterEngine.
Context `{SampleOps}.

Record Filter := mkFilter {
  fwd_count : Z;            (* unsigned *)
  back_count : Z;           (* unsigned *)
  fwd_coeff : list coef;
  back_coeff : list coef;
  mem : list sample
}.

(** [filter_new(fwd_count, back_count, fwd, back)].  The two trailing
    arguments are the variadic coefficient arrays.  With [fwd_count = 0]
    no array is allocated at all. *)
Definition filter_new (fwd_cnt back_cnt : Z) (fwd back : list dcoef)
  : option Filter :=
  if decide (fwd_cnt <> 0) then
    fc ← mapM (fun i => coef_of_double <$> load fwd i) (seqZ 0 fwd_cnt);
    bc ← (if decide (back_cnt <> 0)
          then mapM (fun i => coef_of_double <$> load back i)
                    (seqZ 0 back_cnt)
          else Some []);
    Some {| fwd_count := fwd_cnt; back_count := back_cnt;
            fwd_coeff := fc; back_coeff := bc;
            mem := replicate (Z.to_nat fwd_cnt) czero |}
  else
    Some {| fwd_count := fwd_cnt; back_count := back_cnt;
            fwd_coeff := []; back_coeff := []; mem := [] |}.

(** Feedback loop of [filter_fwd]:
    [for (i=1; i<(int)back_count; i++) in -= mem[i] * back_coeff[i];] *)
Definition feedback (self : Filter) (inp : sample) : option sample :=
  for_up (trip_count 1 (to_int (back_count self))) 1
    (fun i acc =>
       m ← load (mem self) i;
       b ← load (back_coeff self) i;
       Some (csub acc (cscale m b)))
    inp.

(** Output loop of [filter_fwd]:
    [out = 0; for (i=fwd_count-1; i>=0; i--) out += mem[i] * fwd_coeff[i];] *)
Definition feedforward (self : Filter) (m : list sample) : option sample :=
  let top := to_int (to_uint (fwd_count self - 1)) in
  for_down (trip_count 0 (top + 1)) top
    (fun i acc =>
       x ← load m i;
       c ← load (fwd_coeff self) i;
       Some (cadd acc (cscale x c)))
    czero.

(** [self] with [m] as its delay line. *)
Definition set_mem (self : Filter) (m : list sample) : Filter :=
  {| fwd_count := fwd_count self; back_count := back_count self;
     fwd_coeff := fwd_coeff self; back_coeff := back_coeff self;
     mem := m |}.

(** [filter_fwd(self, in)]: the output sample and the filter with its
    delay line updated. *)
Definition filter_fwd (self : Filter) (inp : sample)
  : option (sample * Filter) :=
  inp' ← feedback self inp;
  m1 ← memmove (mem self) 1 0 (to_uint (fwd_count self - 1));
  m2 ← store m1 0 inp';
  out ← feedforward self m2;
  Some (out, set_mem self m2).

(** Feeding a sequence of samples, one call of [filter_fwd] each. *)
Fixpoint filter_run (self : Filter) (xs : list sample)
  : option (list sample * Filter) :=
  match xs with
  | [] => Some ([], self)
  | x :: xs' =>
      '(y, self') ← filter_fwd self x;
      '(ys, self'') ← filter_run self' xs';
      Some (y :: ys, self'')
  end.

(** Number of non-zero entries of a delay line. *)
Definition count_nonzero (m : list sample) : nat :=
  length (filter (fun x => is_zero x = false) m).

(** The shape of every filter made by [filter_new] with at least one tap,
    on which the array accesses of [filter_fwd] stay inside the arrays. *)
Record filter_wf (f : Filter) : Prop := {
  wf_taps : 1 <= fwd_count f <= INT_MAX;
  wf_back : 0 <= back_count f <= fwd_count f;
  wf_fwd_len : Z.of_nat (length (fwd_coeff f)) = fwd_count f;
  wf_mem_len : Z.of_nat (length (mem f)) = fwd_count f;
  wf_back_len : Z.of_nat (length (back_coeff f)) = back_count f
}.

(** *** The advance operation in the words of the specification *)

(** [Σ_i t_i], accumulated from the last term down to the first, the
    order in which the output loop adds. *)
Definition sigma (ts : list sample) : sample :=
  foldr (fun t acc => cadd acc t) czero ts.

(** [x − Σ_i t_i], one term subtracted after the other. *)
Definition minus_sigma (x : sample) (ts : list sample) : sample :=
  foldl csub x ts.

(** [mem[i]·c[i]] for [i] in [lo, hi). *)
Definition products (m : list sample) (c : list coef) (lo hi : nat)
  : list sample :=
  drop lo (take hi (zip_with cscale m c)).

(** [x' = x − Σ_{i=1..N-1} mem[i]·back[i]] *)
Definition advance_input (f : Filter) (x : sample) : sample :=
  minus_sigma x (products (mem f) (back_coeff f) 1
                          (Z.to_nat (back_count f))).

(** shift [mem] right by one (drop last); [mem[0] = x'] *)
Definition advance_mem (f : Filter) (x : sample) : list sample :=
  advance_input f x :: removelast (mem f).

(** [y = Σ_{i=0..M-1} mem[i]·fwd[i]] *)
Definition advance_output (f : Filter) (x : sample) : sample :=
  sigma (products (advance_mem f x) (fwd_coeff f) 0
                  (Z.to_nat (fwd_count f))).

(** [a·x + b·y] on samples, and sample by sample on sequences. *)
Definition lincomb (a b : coef) (x y : sample) : sample :=
  cadd (cscale x a) (cscale y b).

Definition lincomb_seq (a b : coef) (xs ys : list sample) : list sample :=
  zip_with (lincomb a b) xs ys.

(** Two filter instances with the same coefficients. *)
Definition same_taps (f g : Filter) : Prop :=
  fwd_count f = fwd_count g /\ back_count f = back_count g /\
  fwd_coeff f = fwd_coeff g /\ back_coeff f = back_coeff g.

(** A delay line that holds zeros only, as [filter_new] leaves it. *)
Definition zeroed (f : Filter) : Prop :=
  mem f = replicate (length (mem f)) czero.

End FilterEngine.

Arguments Filter _ : clear implicits.

(* ------------------------------------------------------------------ *)
(** ** IEEE-754 arithmetic of the C types [float], [double] and
       [float complex] *)

Module IEEE.

(** [float] is binary32 and [double] binary64; both are carried by
    [spec_float], in the canonical form of their format. *)
Definition float : Type := spec_float.
Definition double : Type := spec_float.

Definition fadd : float -> float -> float := SFadd 24 128.
Definition fsub : float -> float -> float := SFsub 24 128.
Definition fmul : float -> float -> float := SFmul 24 128.
Definition fdiv : float -> float -> float := SFdiv 24 128.
Definition dadd : double -> double -> double := SFadd 53 1024.
Definition dmul : double -> double -> double := SFmul 53 1024.
Definition ddiv : double -> double -> double := SFdiv 53 1024.

(** [a < b] and [a <= b] *)
Definition fltb : float -> float -> bool := SFltb.
Definition fleb : float -> float -> bool := SFleb.

(** Conversion between the formats: round to nearest, ties to even. *)
Definition SFconv (prec emax : Z) (x : spec_float) : spec_float :=
  match x with
  | S754_finite s m e => binary_round prec emax s m e
  | _ => x
  end.

Definition f2d : float -> double := SFconv 53 1024.   (* (double)f *)
Definition d2f : double -> float := SFconv 24 128.    (* (float)d *)

(** Conversion of an integer to [float] and to [double]. *)
Definition f_of_Z (z : Z) : float := binary_normalize 24 128 z 0 false.
Definition d_of_Z (z : Z) : double := binary_normalize 53 1024 z 0 false.

(** [isfinite(x)] *)
Definition is_finite (x : spec_float) : bool :=
  match x with
  | S754_zero _ | S754_finite _ _ _ => true
  | S754_infinity _ | S754_nan => false
  end.

(** The value of a finite [float], in units of 2^-149, the smallest
    positive [float]: an integer for every [float] in canonical form. *)
Definition exact32 (x : float) : Z :=
  match x with
  | S754_finite s m e => (if s then -1 else 1) * Z.pos m * 2 ^ (e + 149)
  | _ => 0
  end.

(** A finite [float] in canonical form. *)
Definition valid32 (x : float) : Prop :=
  valid_binary 24 128 x = true /\ is_finite x = true.

(** [x == 0] *)
Definition fzero (x : spec_float) : bool :=
  match x with S754_zero _ => true | _ => false end.

(** [M_PI] = 0x1.921FB54442D18p+1 and [M_SQRT2] = 0x1.6A09E667F3BCDp+0
    of math.h *)
Definition M_PI : double := S754_finite false 7074237752028440 (-51).
Definition M_SQRT2 : double := S754_finite false 6369051672525773 (-52).

(** [float complex] *)
Record complex := mkC { re : float; im : float }.

Definition c0 : complex := mkC (S754_zero false) (S754_zero false).

Definition cplx_add (x y : complex) : complex :=
  mkC (fadd (re x) (re y)) (fadd (im x) (im y)).

Definition cplx_sub (x y : complex) : complex :=
  mkC (fsub (re x) (re y)) (fsub (im x) (im y)).

(** [float complex * float]: the real operand keeps its type domain, each
    part is multiplied by it. *)
Definition cplx_scale (x : complex) (c : float) : complex :=
  mkC (fmul (re x) c) (fmul (im x) c).

Definition cplx_is_zero (x : complex) : bool := fzero (re x) && fzero (im x).

(** [z / M_SQRT2] stored into a [float complex]: both operands are taken
    to [double], each part is divided, the quotient is rounded back. *)
Definition cplx_div_sqrt2 (x : complex) : complex :=
  mkC (d2f (ddiv (f2d (re x)) M_SQRT2)) (d2f (ddiv (f2d (im x)) M_SQRT2)).

#[export] Instance complex32 : SampleOps := {|
  coef := float;
  dcoef := double;
  sample := complex;
  coef_of_double := d2f;
  czero := c0;
  cadd := cplx_add;
  csub := cplx_sub;
  cscale := cplx_scale;
  is_zero := cplx_is_zero;
  is_zero_czero := eq_refl
|}.

(** A real number as a [float complex]. *)
Definition of_real (x : float) : complex := mkC x (S754_zero false).

End IEEE.
Import IEEE.

(* ------------------------------------------------------------------ *)
(** ** filters.c: the RRC factory *)

Section RRC.

(** [sin] and [cos] of the C library, on [double]. *)
Variables sin cos : double -> double.

(** The expression [1-alpha+4*alpha/M_PI] of the centre tap: [1-alpha] and
    [4*alpha] are [float] operations, the quotient and the sum [double]
    ones. *)
Definition rrc_center (alpha : float) : double :=
  dadd (f2d (fsub (f_of_Z 1) alpha))
       (ddiv (f2d (fmul (f_of_Z 4) alpha)) M_PI).

(** [compute_rrc_coeff(stage_no, taps, osf, alpha)] *)
Definition compute_rrc_coeff (stage_no taps : Z) (osf alpha : float)
  : float :=
  let order := to_int (to_uint (taps - 1) `quot` 2) in
  if decide (order = stage_no) then
    d2f (rrc_center alpha)
  else
    let t := fdiv (f_of_Z (Z.abs (to_int (order - stage_no)))) osf in
    let four_alpha_t := fmul (fmul (f_of_Z 4) alpha) t in
    let pi_t := dmul M_PI (f2d t) in
    let coeff :=
      d2f (dadd (sin (dmul pi_t (f2d (fsub (f_of_Z 1) alpha))))
                (dmul (f2d four_alpha_t)
                      (cos (dmul pi_t (f2d (fadd (f_of_Z 1) alpha)))))) in
    let interm :=
      d2f (dmul pi_t
                (f2d (fsub (f_of_Z 1) (fmul four_alpha_t four_alpha_t)))) in
    fdiv coeff interm.

(** [filter_rrc(order, factor, osf, alpha)] *)
Definition filter_rrc (order factor : Z) (osf alpha : float)
  : option (Filter complex32) :=
  let taps := to_uint (order * 2 + 1) in
  let coeffs :=
    (fun i => f2d (compute_rrc_coeff (to_int i) taps
                     (fmul osf (f_of_Z factor)) alpha))
      <$> seqZ 0 taps in
  filter_new taps 0 coeffs [].

End RRC.

(* ------------------------------------------------------------------ *)
(** ** interpolator.c *)

Section Interpolator.

(** The wrapped source is an object of another file, reached through its
    [read] function pointer and its [data] buffer.  [src_read s n] is the
    value [s->read(s, n)] returns (an [int]) and the source afterwards. *)
Variable Src : Type.
Variable src_read : Src -> Z -> Z * Src.
Variable src_data : Src -> list complex.

Record InterpState := mkInterpState {
  st_src : Src;
  st_rrc : Filter complex32;
  st_factor : Z                     (* unsigned *)
}.

(** The fields of the interpolator's own [Sample] that [interp_read]
    uses; [data] is [None] while the pointer is [NULL]. *)
Record Interp := mkInterp {
  count : Z;                        (* size_t *)
  data : option (list complex);
  _backend : InterpState
}.

(** A buffer of [n] samples from [safealloc]/[malloc]; its contents are
    indeterminate, here zeros. *)
Definition alloc_samples (n : Z) : list complex :=
  replicate (Z.to_nat n) c0.

(** The buffer [interp_read] writes to: allocated on the first call,
    replaced when the request is larger than the last one. *)
Definition interp_buffer (self : Interp) (cnt : Z) : list complex :=
  match data self with
  | None => alloc_samples cnt
  | Some d => if decide (count self < cnt) then alloc_samples cnt else d
  end.

(** The number of samples [interp_read] asks the wrapped source for:
    [true_samp_count = count / factor], in [size_t]. *)
Definition interp_request (cnt factor : Z) : Z :=
  cnt `quot` to_size factor.

(** One round of the loop of [interp_read]:
    [self->data[i] = filter_fwd(rrc, src->data[i/factor]) / M_SQRT2] *)
Definition interp_body (src : list complex) (factor : Z) (i : Z)
    (s : Filter complex32 * list complex)
  : option (Filter complex32 * list complex) :=
  x ← load src (i `quot` factor);
  '(y, rrc') ← filter_fwd s.1 x;
  out ← store s.2 i (cplx_div_sqrt2 y);
  Some (rrc', out).

(** [interp_read(self, count)]: the value returned and the interpolator
    afterwards.  The division by a zero factor and the overflow of the
    [int] loop counter are undefined. *)
Definition interp_read (self : Interp) (cnt : Z) : option (Z * Interp) :=
  let status := _backend self in
  let factor := to_int (st_factor status) in
  let buf := interp_buffer self cnt in
  if decide (factor = 0) then None else
  let '(produced, src') :=
    src_read (st_src status) (interp_request cnt factor) in
  if decide (to_size produced = 0) then
    Some (0, {| count := cnt; data := Some buf;
                _backend := {| st_src := src'; st_rrc := st_rrc status;
                               st_factor := st_factor status |} |})
  else if decide (cnt <= INT_MAX) then
    '(rrc', out) ← for_up (trip_count 0 cnt) 0
                     (interp_body (src_data src') factor)
                     (st_rrc status, buf);
    Some (to_int cnt,
          {| count := cnt; data := Some out;
             _backend := {| st_src := src'; st_rrc := rrc';
                            st_factor := st_factor status |} |})
  else None.

(** The samples of the wrapped source's buffer the loop passes to the
    filter for the outputs [0 .. cnt): [src->data[i/factor]]. *)
Definition interp_inputs (src : list complex) (factor cnt : Z)
  : option (list complex) :=
  mapM (fun i => load src (i `quot` factor)) (seqZ 0 cnt).

(** The invariant of the interpolator between calls: a buffer that is
    there holds at least [count] samples, the factor is a positive [int]
    and the RRC filter is well formed. *)
Record interp_wf (self : Interp) : Prop := {
  wf_count : 0 <= count self;
  wf_data : forall d, data self = Some d -> count self <= Z.of_nat (length d);
  wf_factor : 1 <= st_factor (_backend self) <= INT_MAX;
  wf_rrc : filter_wf (st_rrc (_backend self))
}.

End Interpolator.

Arguments mkInterpState {Src}.
Arguments st_src {Src}.
Arguments st_rrc {Src}.
Arguments st_factor {Src}.
Arguments mkInterp {Src}.
Arguments count {Src}.
Arguments data {Src}.
Arguments _backend {Src}.
Arguments interp_buffer {Src}.
Arguments interp_wf {Src}.

(** A source for experiments: it hands out the samples of [pending] in
    order, into its buffer [buf], and keeps the list of the counts it was
    asked for. *)
Module ListSource.

Record t := mk {
  pending : list complex;
  buf : list complex;
  asked : list Z
}.

Definition read (s : t) (n : Z) : Z * t :=
  let k := Nat.min (Z.to_nat n) (length (pending s)) in
  (Z.of_nat k,
   {| pending := drop k (pending s);
      buf := take k (pending s) ++ drop k (buf s);
      asked := asked s ++ [n] |}).

(** A source about to deliver [todo], with [stale] in its buffer. *)
Definition make (todo stale : list complex) : t :=
  {| pending := todo; buf := stale; asked := [] |}.

End ListSource.

(* ------------------------------------------------------------------ *)
(** ** utils.c: [clamp] *)

(** Modelled from the spec: [clamp] is defined in utils.c, which is not
    among the sources.  The specification gives
    [clamp(v) = round(saturate(v, −127, 127))]. *)
Definition saturate (v lo hi : float) : float :=
  if fltb v lo then lo else if fltb hi v then hi else v.

(** Modelled from the spec: [round] of the sentence above, to the nearest
    integer, halves away from zero; a value that is no number gives 0. *)
Definition round_half_away (v : float) : Z :=
  match v with
  | S754_finite s m e =>
      let a := if decide (0 <= e) then Z.pos m * 2 ^ e
               else (2 * Z.pos m + 2 ^ (- e)) / (2 * 2 ^ (- e)) in
      if s then - a else a
  | _ => 0
  end.

(** Modelled from the spec: [clamp] of utils.c (see [saturate]). *)
Definition clamp (v : float) : Z :=
  round_half_away (saturate v (f_of_Z (-127)) (f_of_Z 127)).

(* ------------------------------------------------------------------ *)
(** ** demod.c: the worker thread *)

Section Worker.

(** The AGC and the Costas loop are objects of other files; each call
    returns a sample and leaves the object in a new state. *)
Variables Agc Costas : Type.
Variable agc_apply : Agc -> complex -> complex * Agc.
Variable costas_resync : Costas -> complex -> complex * Costas.

(** [SYM_CHUNKSIZE] of demod.h *)
Variable SYM_CHUNKSIZE : Z.

(** The locals of [demod_thr_run] and the fields of [Demod] it works on.
    [out_fd] is the contents of the output file so far. *)
Record Worker := mkWorker {
  buf_offset : Z;                   (* int *)
  resync_offset : float;
  resync_period : float;
  before : complex;
  mid : complex;
  cur : complex;
  out_buf : list Z;                 (* int8_t[] *)
  out_fd : list Z;
  bytes_out_count : Z;              (* unsigned *)
  agc : Agc;
  cst : Costas
}.

(** [resync_offset >= resync_period/2 && resync_offset < resync_period/2+1] *)
Definition at_mid (off per : float) : bool :=
  fleb (fdiv per (f_of_Z 2)) off
  && fltb off (fadd (fdiv per (f_of_Z 2)) (f_of_Z 1)).

(** [resync_offset >= resync_period] *)
Definition at_symbol (off per : float) : bool := fleb per off.

(** The sample is captured as a symbol: the second branch is taken. *)
Definition captures (w : Worker) : bool :=
  negb (at_mid (resync_offset w) (resync_period w))
  && at_symbol (resync_offset w) (resync_period w).

(** [resync_offset -= resync_period] *)
Definition capture_offset (off per : float) : float := fsub off per.

(** [resync_error = (cimagf(cur) - cimagf(before)) * cimagf(mid)] *)
Definition timing_error (c b m : complex) : float :=
  fmul (fsub (im c) (im b)) (im m).

(** [resync_offset += (resync_error*resync_period/2000000.0)]: the product
    is a [float], the quotient and the sum are [double], the result is
    stored into a [float]. *)
Definition timing_adjust (off err per : float) : float :=
  d2f (dadd (f2d off) (ddiv (f2d (fmul err per)) (d_of_Z 2000000))).

(** The two bytes of a symbol: [clamp(crealf(cur)/2)], [clamp(cimagf(cur)/2)]
    as stored into the [int8_t] buffer. *)
Definition soft_i (c : complex) : Z := to_int8 (clamp (fdiv (re c) (f_of_Z 2))).
Definition soft_q (c : complex) : Z := to_int8 (clamp (fdiv (im c) (f_of_Z 2))).

(** The body of the symbol branch, up to the update of the counter. *)
Definition capture (w : Worker) (x : complex) : option Worker :=
  let '(c, agc') := agc_apply (agc w) x in
  let off1 := capture_offset (resync_offset w) (resync_period w) in
  let err := timing_error c (before w) (mid w) in
  let off2 := timing_adjust off1 err (resync_period w) in
  let '(c', cst') := costas_resync (cst w) c in
  b1 ← store (out_buf w) (buf_offset w) (soft_i c');
  b2 ← store b1 (to_int (buf_offset w + 1)) (soft_q c');
  let bo := to_int (buf_offset w + 2) in
  let flush := bool_decide (bo >= SYM_CHUNKSIZE - 1) in
  Some {| buf_offset := if flush then 0 else bo;
          resync_offset := off2;
          resync_period := resync_period w;
          before := c;
          mid := mid w;
          cur := c';
          out_buf := b2;
          out_fd := if flush then out_fd w ++ take (Z.to_nat bo) b2
                    else out_fd w;
          bytes_out_count := to_uint (bytes_out_count w + 2);
          agc := agc';
          cst := cst' |}.

(** [resync_offset++] *)
Definition tick (w : Worker) : Worker :=
  {| buf_offset := buf_offset w;
     resync_offset := fadd (resync_offset w) (f_of_Z 1);
     resync_period := resync_period w;
     before := before w; mid := mid w; cur := cur w;
     out_buf := out_buf w; out_fd := out_fd w;
     bytes_out_count := bytes_out_count w;
     agc := agc w; cst := cst w |}.

(** One round of the inner loop of [demod_thr_run], on the sample
    [self->interp->data[i]]. *)
Definition sample_step (w : Worker) (x : complex) : option Worker :=
  if at_mid (resync_offset w) (resync_period w) then
    let '(m, agc') := agc_apply (agc w) x in
    Some (tick {| buf_offset := buf_offset w;
                  resync_offset := resync_offset w;
                  resync_period := resync_period w;
                  before := before w; mid := m; cur := cur w;
                  out_buf := out_buf w; out_fd := out_fd w;
                  bytes_out_count := bytes_out_count w;
                  agc := agc'; cst := cst w |})
  else if at_symbol (resync_offset w) (resync_period w) then
    tick <$> capture w x
  else Some (tick w).

(** The inner loop over the samples of a block, with every state the
    worker goes through. *)
Fixpoint run_trace (w : Worker) (xs : list complex) : option (list Worker) :=
  match xs with
  | [] => Some [w]
  | x :: xs' => w' ← sample_step w x; (w ::.) <$> run_trace w' xs'
  end.

(** The state of the worker when it enters the main loop. *)
Definition worker_init (per : float) (buf : list Z) (a : Agc) (c : Costas)
  : Worker :=
  {| buf_offset := 0;
     resync_offset := f_of_Z 0;
     resync_period := per;
     before := c0; mid := c0; cur := c0;
     out_buf := buf; out_fd := [];
     bytes_out_count := 0;
     agc := a; cst := c |}.

(** [demod_get_bytes_out(self)], called while the worker is in state [w]. *)
Definition demod_get_bytes_out (w : Worker) : Z :=
  to_uint (bytes_out_count w).

(** Everything the worker has put out so far: what it wrote to the file
    and what waits in the buffer. *)
Definition emitted (w : Worker) : list Z :=
  out_fd w ++ take (Z.to_nat (buf_offset w)) (out_buf w).

(** The buffer has room for the next symbol, and for every symbol before
    the next flush: it holds [SYM_CHUNKSIZE] bytes or more. *)
Definition buffer_ok (w : Worker) : Prop :=
  0 <= buf_offset w /\ buf_offset w + 2 <= Z.of_nat (length (out_buf w))
  /\ SYM_CHUNKSIZE <= Z.of_nat (length (out_buf w))
  /\ Z.of_nat (length (out_buf w)) <= INT_MAX.

(** What one round of the loop does to the output and to the counter as
    a caller reads it: two more bytes and two counted for a symbol,
    nothing otherwise. *)
Definition step_effect (w w' : Worker) : Prop :=
  if captures w
  then (exists b1 b2, emitted w' = emitted w ++ [b1; b2])
       /\ demod_get_bytes_out w' = demod_get_bytes_out w + 2
  else emitted w' = emitted w
       /\ demod_get_bytes_out w' = demod_get_bytes_out w.

End Worker.

Arguments mkWorker {Agc Costas}.
Arguments buf_offset {Agc Costas}.
Arguments resync_offset {Agc Costas}.
Arguments resync_period {Agc Costas}.
Arguments before {Agc Costas}.
Arguments mid {Agc Costas}.
Arguments cur {Agc Costas}.
Arguments out_buf {Agc Costas}.
Arguments out_fd {Agc Costas}.
Arguments bytes_out_count {Agc Costas}.
Arguments agc {Agc Costas}.
Arguments cst {Agc Costas}.
Arguments captures {Agc Costas}.
Arguments tick {Agc Costas}.
Arguments worker_init {Agc Costas}.
Arguments demod_get_bytes_out {Agc Costas}.
Arguments emitted {Agc Costas}.
Arguments buffer_ok {Agc Costas}.
Arguments step_effect {Agc Costas}.

(* ------------------------------------------------------------------ *)
(** ** filters.c: [filter_copy] *)

Section FilterCopy.
Context {O : SampleOps}.

(** [filter_copy(orig)]: the counts are copied, the coefficients are
    copied entry by entry from the arrays of [orig], and every entry of
    the new delay line is set to 0; the delay line of [orig] is not read.
    With [fwd_count = 0] no array is allocated at all. *)
Definition filter_copy (orig : Filter O) : option (Filter O) :=
  if decide (fwd_count orig <> 0) then
    fc ← mapM (fun i => load (fwd_coeff orig) i) (seqZ 0 (fwd_count orig));
    bc ← (if decide (back_count orig <> 0)
          then mapM (fun i => load (back_coeff orig) i)
                    (seqZ 0 (back_count orig))
          else Some []);
    Some {| fwd_count := fwd_count orig; back_count := back_count orig;
            fwd_coeff := fc; back_coeff := bc;
            mem := replicate (Z.to_nat (fwd_count orig)) czero |}
  else
    Some {| fwd_count := fwd_count orig; back_count := back_count orig;
            fwd_coeff := []; back_coeff := []; mem := [] |}.

End FilterCopy.

(* ------------------------------------------------------------------ *)
(** ** demod.c: the main loop of the worker thread *)

Section Thread.

Variable Src : Type.
Variable src_read : Src -> Z -> Z * Src.
Variable src_data : Src -> list complex.
Variables Agc Costas : Type.
Variable agc_apply : Agc -> complex -> complex * Agc.
Variable costas_resync : Costas -> complex -> complex * Costas.

(** [SYM_CHUNKSIZE] and [CHUNKSIZE] of demod.h *)
Variables SYM_CHUNKSIZE CHUNKSIZE : Z.

(** The inner loop [for (i=0; i<count; i++)] of [demod_thr_run] over the
    block [self->interp->data]. *)
Definition block_loop (d : list complex) (cnt : Z) (w : Worker Agc Costas)
  : option (Worker Agc Costas) :=
  for_up (trip_count 0 cnt) 0
    (fun i w =>
       x ← load d i;
       sample_step Agc Costas agc_apply costas_resync SYM_CHUNKSIZE w x)
    w.

(** [while (self->thr_is_running && (count = self->interp->read(self->interp,
    CHUNKSIZE)))], the interpolator being the one [interp_init] makes,
    whose [read] is [interp_read].  The flag [thr_is_running] is cleared
    from outside, by [demod_join]; [polls] is the number of times the loop
    condition finds it set before it finds it cleared. *)
Fixpoint main_loop (polls : nat) (it : Interp Src) (w : Worker Agc Costas)
  : option (Interp Src * Worker Agc Costas) :=
  match polls with
  | O => Some (it, w)
  | S polls' =>
      '(cnt, it') ← interp_read Src src_read src_data it CHUNKSIZE;
      if decide (cnt = 0) then Some (it', w)
      else
        d ← data it';
        w' ← block_loop d cnt w;
        main_loop polls' it' w'
  end.

(** [demod_thr_run] from the main loop on: the loop, then
    [fwrite(out_buf, buf_offset, 1, out_fd)] of the bytes that remain.
    The result is the interpolator and the worker as the thread leaves
    them, and the contents of the file when it is closed. *)
Definition demod_thr_run (polls : nat) (it : Interp Src) (per : float)
    (buf : list Z) (a : Agc) (c : Costas)
  : option (Interp Src * Worker Agc Costas * list Z) :=
  '(it', w) ← main_loop polls it (worker_init per buf a c);
  Some (it', w, out_fd w ++ take (Z.to_nat (buf_offset w)) (out_buf w)).

End Thread.

(* ------------------------------------------------------------------ *)
(** ** Runs of the [float] filter in which no operation rounds *)

(** [x == y] on [float] and on [float complex]. *)
Definition feq (x y : float) : bool := SFeqb x y.

Definition cplx_eq (x y : complex) : bool :=
  feq (re x) (re y) && feq (im x) (im y).

(** The operands and the result are finite [float]s in canonical form,
    and the result is the sum, the difference or the product of the
    operands without rounding.  Values are counted in units of 2^-149, so
    the product of two of them has one factor 2^149 too many. *)
Definition exact_add (x y : float) : Prop :=
  valid32 x /\ valid32 y /\ valid32 (fadd x y)
  /\ exact32 (fadd x y) = exact32 x + exact32 y.

Definition exact_sub (x y : float) : Prop :=
  valid32 x /\ valid32 y /\ valid32 (fsub x y)
  /\ exact32 (fsub x y) = exact32 x - exact32 y.

Definition exact_mul (x y : float) : Prop :=
  valid32 x /\ valid32 y /\ valid32 (fmul x y)
  /\ exact32 (fmul x y) * 2 ^ 149 = exact32 x * exact32 y.

(** The same for the operations on [float complex]. *)
Definition cexact_add (x y : complex) : Prop :=
  exact_add (re x) (re y) /\ exact_add (im x) (im y).

Definition cexact_sub (x y : complex) : Prop :=
  exact_sub (re x) (re y) /\ exact_sub (im x) (im y).

Definition cexact_scale (x : complex) (c : float) : Prop :=
  exact_mul (re x) c /\ exact_mul (im x) c.

(** [a·x + b·y] is computed without rounding. *)
Definition lincomb_exact (a b : float) (x y : complex) : Prop :=
  cexact_scale x a /\ cexact_scale y b
  /\ cexact_add (cplx_scale x a) (cplx_scale y b).

(** The products [mem[i]·c[i]] for [i] in [lo, hi) are computed without
    rounding. *)
Fixpoint scales_exact (ps : list (complex * float)) : Prop :=
  match ps with
  | [] => True
  | p :: ps' => cexact_scale p.1 p.2 /\ scales_exact ps'
  end.

Definition products_exact (m : list complex) (c : list float) (lo hi : nat)
  : Prop :=
  scales_exact (drop lo (take hi (zip m c))).

(** Every subtraction of the feedback loop is. *)
Fixpoint minus_sigma_exact (x : complex) (ts : list complex) : Prop :=
  match ts with
  | [] => True
  | t :: ts' => cexact_sub x t /\ minus_sigma_exact (cplx_sub x t) ts'
  end.

(** Every addition of the output loop is. *)
Fixpoint sigma_exact (ts : list complex) : Prop :=
  match ts with
  | [] => True
  | t :: ts' => sigma_exact ts' /\ cexact_add (sigma (H:=complex32) ts') t
  end.

(** No operation of the call [filter_fwd(f, x)], which leaves the filter
    as [f'], rounds. *)
Definition step_exact (f : Filter complex32) (x : complex)
    (f' : Filter complex32) : Prop :=
  let N := Z.to_nat (back_count f) in
  let M := Z.to_nat (fwd_count f) in
  products_exact (mem f) (back_coeff f) 1 N
  /\ minus_sigma_exact x (products (mem f) (back_coeff f) 1 N)
  /\ products_exact (mem f') (fwd_coeff f) 0 M
  /\ sigma_exact (products (mem f') (fwd_coeff f) 0 M).

(** No operation of the calls of [filter_fwd] on the samples [xs], one
    after the other, rounds. *)
Fixpoint run_exact (f : Filter complex32) (xs : list complex) : Prop :=
  match xs with
  | [] => True
  | x :: xs' =>
      match filter_fwd f x with
      | Some (_, f') => step_exact f x f' /\ run_exact f' xs'
      | None => False
      end
  end.

(** The value of [x3] is [a] times the value of [x1] plus [b] times the
    value of [x2]. *)
Definition lin3 (a b : float) (x3 x1 x2 : float) : Prop :=
  valid32 x3 /\ valid32 x1 /\ valid32 x2
  /\ exact32 x3 * 2 ^ 149 = exact32 a * exact32 x1 + exact32 b * exact32 x2.

Definition clin3 (a b : float) (x3 x1 x2 : complex) : Prop :=
  lin3 a b (re x3) (re x1) (re x2) /\ lin3 a b (im x3) (im x1) (im x2).

(* ------------------------------------------------------------------ *)
(** ** Samples that hold integers *)

(** [x] is a [float] in canonical form whose value is the integer [z]
    (a zero of either sign for [z = 0]). *)
Definition holds (z : Z) (x : float) : Prop :=
  valid32 x /\ exact32 x = z * 2 ^ 149.

(** The same for a [float complex] and a Gaussian integer. *)
Definition cholds (z : Z * Z) (x : complex) : Prop :=
  holds z.1 (re x) /\ holds z.2 (im x).

(** A sample whose parts are integers of magnitude [B] at most. *)
Definition int_sample (B : Z) (x : complex) : Prop :=
  exists z : Z * Z, cholds z x /\ Z.abs z.1 <= B /\ Z.abs z.2 <= B.

(** [Σ |c_i|] *)
Definition abs_sum (cs : list Z) : Z := foldr (fun c s => Z.abs c + s) 0 cs.

(* ------------------------------------------------------------------ *)
(** ** The values of [float]s and [double]s as numbers *)

(** The value of a finite [double], in units of 2^-1074, the smallest
    positive [double]. *)
Definition exact64 (x : double) : Z :=
  match x with
  | S754_finite s m e => (if s then -1 else 1) * Z.pos m * 2 ^ (e + 1074)
  | _ => 0
  end.

(** A finite [double] in canonical form. *)
Definition valid64 (x : double) : Prop :=
  valid_binary 53 1024 x = true /\ is_finite x = true.

(** The value of a finite [float] as a real number. *)
Definition real32 (x : float) : R := (IZR (exact32 x) / IZR (2 ^ 149))%R.

(* ------------------------------------------------------------------ *)
(** ** Rounding *)

(** The place of the bits shifted out, [rho] of [2^k], as the round and
    sticky bits tell it. *)
Definition shr_place (rec : shr_record) (k : nat) (rho : Z) : Prop :=
  match shr_r rec, shr_s rec with
  | false, false => rho = 0
  | false, true => 0 < 2 * rho < 2 ^ Z.of_nat k
  | true, false => 2 * rho = 2 ^ Z.of_nat k
  | true, true => 2 ^ Z.of_nat k < 2 * rho
  end.


(* ------------------------------------------------------------------ *)
(** ** Concrete inputs *)

Module Examples.

(** The [double] nearest to 0.1 (0x3FB999999999999A). *)
Definition d_tenth : double := S754_finite false 7205759403792794 (-56).

(** Integers as [float], [double] and real-valued [float complex]. *)
Definition fl (z : Z) : float := f_of_Z z.
Definition db (z : Z) : double := d_of_Z z.
Definition cx (z : Z) : complex := of_real (f_of_Z z).

(** An IIR filter with three feed-forward and two feedback taps, its
    delay line loaded. *)
Definition iir32 : Filter complex32 :=
  {| fwd_count := 3; back_count := 2;
     fwd_coeff := [fl 1; fl 2; fl 3];
     back_coeff := [fl 1; fl 2];
     mem := [cx 5; cx 7; cx 11] |}.

(** A two-tap FIR filter whose delay line holds the samples 5, 5. *)
Definition fir_loaded : Filter complex32 :=
  {| fwd_count := 2; back_count := 0;
     fwd_coeff := [fl 1; fl 1];
     back_coeff := [];
     mem := [cx 5; cx 5] |}.


(** The filter [filter_new(2, 2, {1, 1}, {1, 1})] makes. *)
Definition iir_fresh : Filter complex32 :=
  {| fwd_count := 2; back_count := 2;
     fwd_coeff := [fl 1; fl 1];
     back_coeff := [fl 1; fl 1];
     mem := [c0; c0] |}.

(** The filter [filter_new(1, 0, {0.1})] makes; the coefficient is the
    [float] nearest to 0.1. *)
Definition fir_tenth : Filter complex32 :=
  {| fwd_count := 1; back_count := 0;
     fwd_coeff := [d2f d_tenth];
     back_coeff := [];
     mem := [c0] |}.

(** 0.7 rounded down and up: 11744051·2^-24 and 11744052·2^-24. *)
Definition seven_tenths_lo : complex :=
  of_real (S754_finite false 11744051 (-24)).
Definition seven_tenths_hi : complex :=
  of_real (S754_finite false 11744052 (-24)).

(** 0.5 as a [float]. *)
Definition half : float := S754_finite false 8388608 (-24).

(** A freshly zeroed IIR filter with the taps 1, 0.5, 3 and the feedback
    coefficients 1, 0.5, and two input sequences for it. *)
Definition iir_half : Filter complex32 :=
  {| fwd_count := 3; back_count := 2;
     fwd_coeff := [fl 1; half; fl 3];
     back_coeff := [fl 1; half];
     mem := [c0; c0; c0] |}.

Definition lin_xs : list complex :=
  [mkC (fl 1) (fl 2); mkC (fl 3) (fl (-4)); mkC half (fl 0)].
Definition lin_ys : list complex :=
  [mkC (fl 5) (fl 6); mkC half (fl 8); mkC (fl (-2)) (fl 7)].

(** A one-tap FIR filter with the coefficient 1: it passes its input. *)
Definition fir_unit : Filter complex32 :=
  {| fwd_count := 1; back_count := 0;
     fwd_coeff := [fl 1]; back_coeff := []; mem := [c0] |}.

(** An interpolator by two that has not been read yet, on a source about
    to deliver [todo] with [stale] in its buffer. *)
Definition interp2 (todo stale : list complex) : Interp ListSource.t :=
  {| count := 0; data := None;
     _backend := {| st_src := ListSource.make todo stale;
                    st_rrc := fir_unit; st_factor := 2 |} |}.

(** Five samples of a stream, and what an earlier block left in the
    buffer of the source. *)
Definition stream5 : list complex := [cx 1; cx 2; cx 3; cx 4; cx 5].
Definition stale4 : list complex := replicate 4 (cx 9).

(** A source that has three samples left, in front of an interpolator
    by two. *)
Definition short_interp : Interp ListSource.t :=
  interp2 [cx 1; cx 2; cx 3] stale4.

(** [interp_read] on a list source. *)
Definition list_interp_read :=
  interp_read ListSource.t ListSource.read ListSource.buf.

(** A stage that passes its input and has no state, in the place of the
    AGC and of the Costas loop. *)
Definition pass (s : unit) (x : complex) : complex * unit := (x, s).

(** A worker whose [resync_offset] 5 is beyond twice its period 2. *)
Definition late_worker : Worker unit unit :=
  {| buf_offset := 0;
     resync_offset := fl 5; resync_period := fl 2;
     before := c0; mid := c0; cur := c0;
     out_buf := replicate 8 0; out_fd := [];
     bytes_out_count := 0; agc := tt; cst := tt |}.

(** The worker as it enters the loop, with a period of half a sample. *)
Definition fast_worker : Worker unit unit :=
  worker_init half (replicate 8 0) tt tt.

(** A worker in the middle of a run: 6 bytes in the buffer, 100 counted,
    the symbol after next [mid] is due now. *)
Definition busy_worker : Worker unit unit :=
  {| buf_offset := 6;
     resync_offset := fl 4; resync_period := fl 4;
     before := cx 100; mid := mkC (fl 0) (fl 3); cur := c0;
     out_buf := [1; 2; 3; 4; 5; 6; 0; 0]; out_fd := [7; 7];
     bytes_out_count := 100; agc := tt; cst := tt |}.

(** The worker of [busy_worker] after 2^31 - 1 symbols: the next symbol
    takes the 32-bit counter past its largest value. *)
Definition wrapping_worker : Worker unit unit :=
  {| buf_offset := 6;
     resync_offset := fl 4; resync_period := fl 4;
     before := cx 100; mid := mkC (fl 0) (fl 3); cur := c0;
     out_buf := [1; 2; 3; 4; 5; 6; 0; 0]; out_fd := [7; 7];
     bytes_out_count := 4294967294; agc := tt; cst := tt |}.

End Examples.

(** More concrete inputs: filters, an interpolator that has been read,
    and a source that keeps its buffer. *)
Module Cases.

(** The two-tap FIR filter of [Examples.fir_loaded] with its delay line
    cleared. *)
Definition fir_cleared : Filter complex32 :=
  {| fwd_count := 2; back_count := 0;
     fwd_coeff := [Examples.fl 1; Examples.fl 1];
     back_coeff := [];
     mem := [c0; c0] |}.

(** A two-tap FIR filter whose second tap is an infinity. *)
Definition fir_inf : Filter complex32 :=
  {| fwd_count := 2; back_count := 0;
     fwd_coeff := [Examples.fl 1; S754_infinity false];
     back_coeff := [];
     mem := [c0; c0] |}.

(** An interpolator by two after a read of 8 samples: its buffer holds
    the 8 samples of that block. *)
Definition used_interp : Interp ListSource.t :=
  {| count := 8; data := Some (replicate 8 (Examples.cx 7));
     _backend := {| st_src := ListSource.make Examples.stream5
                                              Examples.stale4;
                    st_rrc := Examples.fir_unit; st_factor := 2 |} |}.

(** A list source whose buffer has room for two samples or more, and
    whose stream fits an [int]. *)
Definition src_ready (s : ListSource.t) : Prop :=
  2 <= Z.of_nat (length (ListSource.buf s))
  /\ Z.of_nat (length (ListSource.pending s)) <= INT_MAX.

(** The worker thread on a list source, with stages that pass their
    input in the place of the AGC and of the Costas loop, an output
    buffer of 8 bytes ([SYM_CHUNKSIZE = 8]) and blocks of 4 samples
    ([CHUNKSIZE = 4]). *)
Definition list_thread :=
  demod_thr_run ListSource.t ListSource.read ListSource.buf unit unit
    Examples.pass Examples.pass 8 4.

End Cases.

(* ================================================================== *)
(** * Part II: properties *)

(* ------------------------------------------------------------------ *)
(** ** Machine integers and arrays *)

Lemma to_uint_id z : 0 <= z <= UINT_MAX -> to_uint z = z.
Proof. unfold to_uint, UINT_MAX. intros. apply Z.mod_small. lia. Qed.

Lemma to_int_id z : - 2 ^ 31 <= z <= INT_MAX -> to_int z = z.
Proof.
  unfold to_int, INT_MAX. intros.
  rewrite Z.mod_small by lia. lia.
Qed.

Lemma to_size_id z : 0 <= z < 2 ^ 64 -> to_size z = z.
Proof. unfold to_size. intros. apply Z.mod_small. lia. Qed.

Lemma to_int8_range z : -128 <= to_int8 z <= 127.
Proof.
  unfold to_int8. pose proof (Z.mod_pos_bound (z + 128) 256). lia.
Qed.

Section ArrayFacts.
Context {A : Type}.
Implicit Types a : list A.

Lemma load_nonneg a i : 0 <= i -> load a i = a !! Z.to_nat i.
Proof. intros. unfold load. by rewrite decide_True. Qed.

Lemma load_lookup a (n : nat) : load a (Z.of_nat n) = a !! n.
Proof. rewrite load_nonneg by lia. by rewrite Nat2Z.id. Qed.

Lemma store_inside a i x :
  0 <= i < Z.of_nat (length a) -> store a i x = Some (<[Z.to_nat i := x]> a).
Proof. intros. unfold store. by rewrite decide_True. Qed.

Lemma memmove_shift a :
  a <> [] ->
  memmove a 1 0 (Z.of_nat (length a) - 1)
  = Some (take 1 a ++ take (length a - 1) a).
Proof.
  intros Ha. unfold memmove.
  assert (0 < length a)%nat by (destruct a; simpl; [done | lia]).
  rewrite decide_True by lia.
  replace (Z.to_nat (1 + (Z.of_nat (length a) - 1))) with (length a) by lia.
  replace (Z.to_nat (Z.of_nat (length a) - 1)) with (length a - 1)%nat by lia.
  by rewrite drop_all, app_nil_r.
Qed.

End ArrayFacts.

(* ------------------------------------------------------------------ *)
(** ** The filter engine *)

Section FilterFacts.
Context `{SampleOps}.
Implicit Types f g : Filter _.

(** *** Loops over arrays as folds over lists *)

Lemma for_up_products (m : list sample) (c : list coef) n i acc :
  0 <= i ->
  (Z.to_nat i + n <= length (zip_with cscale m c))%nat ->
  for_up n i
    (fun i acc => x ← load m i; b ← load c i; Some (csub acc (cscale x b)))
    acc
  = Some (foldl csub acc (take n (drop (Z.to_nat i) (zip_with cscale m c)))).
Proof.
  revert i acc. induction n as [|n IH]; intros i acc Hi Hlen; [done|].
  destruct (lookup_lt_is_Some_2 (zip_with cscale m c) (Z.to_nat i))
    as [z Hz]; [lia|].
  rewrite (drop_S _ _ _ Hz). cbn [for_up take foldl].
  rewrite lookup_zip_with in Hz.
  rewrite !load_nonneg by done.
  destruct (m !! Z.to_nat i) as [x|]; [|done].
  destruct (c !! Z.to_nat i) as [b|]; [|done].
  injection Hz as <-. cbn.
  rewrite IH by lia.
  by replace (Z.to_nat (i + 1)) with (S (Z.to_nat i)) by lia.
Qed.

Lemma for_down_products (m : list sample) (c : list coef) (n : nat) acc :
  (n <= length (zip_with cscale m c))%nat ->
  for_down n (Z.of_nat n - 1)
    (fun i acc => x ← load m i; b ← load c i; Some (cadd acc (cscale x b)))
    acc
  = Some (foldr (fun t a => cadd a t) acc (take n (zip_with cscale m c))).
Proof.
  revert acc. induction n as [|n IH]; intros acc Hlen; [done|].
  destruct (lookup_lt_is_Some_2 (zip_with cscale m c) n) as [z Hz]; [lia|].
  rewrite (take_S_r _ _ _ Hz), foldr_app. cbn [for_down foldr].
  rewrite lookup_zip_with in Hz.
  replace (Z.of_nat (S n) - 1) with (Z.of_nat n) by lia.
  rewrite !load_lookup.
  destruct (m !! n) as [x|]; [|done].
  destruct (c !! n) as [b|]; [|done].
  injection Hz as <-. cbn.
  by rewrite IH by lia.
Qed.

Lemma feedback_spec f x :
  filter_wf f -> feedback f x = Some (advance_input f x).
Proof.
  intros [Ht Hb Hfl Hml Hbl].
  unfold feedback, advance_input, minus_sigma, products, trip_count.
  rewrite to_int_id by (unfold INT_MAX in *; lia).
  destruct (decide (back_count f <= 1)) as [Hle|Hgt].
  - replace (Z.to_nat (back_count f - 1)) with 0%nat by lia. cbn.
    rewrite drop_ge; [done|]. rewrite length_take. lia.
  - rewrite for_up_products; [|lia|rewrite length_zip_with; lia].
    do 2 f_equal. rewrite take_drop_commute. do 2 f_equal. lia.
Qed.

Lemma shift_spec f x :
  filter_wf f ->
  (m1 ← memmove (mem f) 1 0 (to_uint (fwd_count f - 1)); store m1 0 x)
  = Some (x :: removelast (mem f)).
Proof.
  intros [Ht Hb Hfl Hml Hbl].
  rewrite to_uint_id by (unfold INT_MAX, UINT_MAX in *; lia).
  rewrite <- Hml.
  rewrite memmove_shift
    by (intros E; rewrite E in Hml; simpl in Hml; lia).
  cbn. unfold store.
  destruct (mem f) as [|m0 ms] eqn:E; [simpl in Hml; lia|].
  rewrite decide_True by (cbn [take app length]; lia).
  rewrite removelast_firstn_len. cbn. by rewrite Nat.sub_0_r.
Qed.

Lemma feedforward_spec f m :
  filter_wf f -> length m = length (mem f) ->
  feedforward f m
  = Some (sigma (products m (fwd_coeff f) 0 (Z.to_nat (fwd_count f)))).
Proof.
  intros [Ht Hb Hfl Hml Hbl] Hm.
  unfold feedforward, sigma, products, trip_count.
  rewrite to_uint_id by (unfold INT_MAX, UINT_MAX in *; lia).
  rewrite to_int_id by (unfold INT_MAX in *; lia).
  replace (fwd_count f - 1 + 1 - 0) with (fwd_count f) by lia.
  replace (fwd_count f - 1)
    with (Z.of_nat (Z.to_nat (fwd_count f)) - 1) at 1 by lia.
  rewrite for_down_products; [by rewrite drop_0|].
  rewrite length_zip_with. lia.
Qed.

Lemma length_removelast {A} (l : list A) :
  length (removelast l) = (length l - 1)%nat.
Proof. rewrite removelast_firstn_len, length_take. lia. Qed.

Lemma length_advance_mem f x :
  filter_wf f -> length (advance_mem f x) = length (mem f).
Proof.
  intros [Ht Hb Hfl Hml Hbl]. unfold advance_mem.
  rewrite length_cons, length_removelast. lia.
Qed.

Lemma filter_fwd_spec f x :
  filter_wf f ->
  filter_fwd f x = Some (advance_output f x, set_mem f (advance_mem f x)).
Proof.
  intros Hwf. unfold filter_fwd.
  rewrite feedback_spec by done. cbn [mbind option_bind].
  pose proof (shift_spec f (advance_input f x) Hwf) as Hs.
  destruct (memmove _ _ _ _) as [m1|]; [|done]. cbn in Hs |- *.
  rewrite Hs. cbn.
  fold (advance_mem f x).
  rewrite feedforward_spec by (done || by apply length_advance_mem).
  done.
Qed.

Lemma set_mem_wf f m :
  filter_wf f -> length m = length (mem f) -> filter_wf (set_mem f m).
Proof.
  intros [Ht Hb Hfl Hml Hbl] Hm. split; cbn; try done. by rewrite Hm.
Qed.

Lemma filter_fwd_wf f x y g :
  filter_wf f -> filter_fwd f x = Some (y, g) -> filter_wf g.
Proof.
  intros Hwf. rewrite filter_fwd_spec by done. intros [= _ <-].
  apply set_mem_wf; [done|]. by apply length_advance_mem.
Qed.

(** C2: on every filter with [M >= 1] feed-forward taps and [N <= M]
    feedback taps, one call of [filter_fwd] on [x] computes
    [x' = x − Σ_{i=1..N-1} mem[i]·back[i]] (nothing is subtracted when
    [N = 0]), shifts the delay line right by one dropping its last entry,
    stores [x'] in [mem[0]], and returns [Σ_{i=0..M-1} mem[i]·fwd[i]] over
    the new delay line; the coefficients stay as they are. *)
Theorem filter_fwd_advance f x :
  filter_wf f ->
  exists y g,
    filter_fwd f x = Some (y, g)
    /\ mem g = (minus_sigma x (products (mem f) (back_coeff f) 1
                                         (Z.to_nat (back_count f))))
               :: removelast (mem f)
    /\ y = sigma (products (mem g) (fwd_coeff f) 0 (Z.to_nat (fwd_count f)))
    /\ same_taps f g
    /\ (back_count f = 0 -> mem g = x :: removelast (mem f)).
Proof.
  intros Hwf. eexists _, _. split; [by apply filter_fwd_spec|].
  repeat split; try done.
  intros HN. cbn. unfold advance_mem, advance_input, products.
  by rewrite HN.
Qed.

(** *** [filter_new] *)

Lemma mapM_load {A B} (g : A -> B) (a : list A) (n : Z) :
  0 <= n <= Z.of_nat (length a) ->
  mapM (fun i => g <$> load a i) (seqZ 0 n)
  = Some (g <$> take (Z.to_nat n) a).
Proof.
  intros Hn. apply mapM_Some, Forall2_same_length_lookup_2.
  - rewrite length_seqZ, length_fmap, length_take. lia.
  - intros i x y [-> Hi]%lookup_seqZ.
    rewrite list_lookup_fmap, lookup_take_lt by lia.
    replace (0 + Z.of_nat i) with (Z.of_nat i) by lia.
    by rewrite load_lookup.
Qed.

Lemma filter_new_spec (M N : Z) (fwd back : list dcoef) :
  1 <= M <= INT_MAX -> 0 <= N <= M ->
  M <= Z.of_nat (length fwd) -> N <= Z.of_nat (length back) ->
  exists f,
    filter_new M N fwd back = Some f /\ filter_wf f
    /\ fwd_count f = M /\ back_count f = N
    /\ fwd_coeff f = coef_of_double <$> take (Z.to_nat M) fwd
    /\ mem f = replicate (Z.to_nat M) czero.
Proof.
  intros HM HN Hf Hb. unfold filter_new.
  rewrite decide_True by lia.
  rewrite (mapM_load _ fwd) by lia. cbn [mbind option_bind].
  destruct (decide (N <> 0)) as [HN0|HN0].
  - rewrite (mapM_load _ back) by lia. cbn. eexists. split; [reflexivity|].
    repeat split; cbn; try done; try lia;
      rewrite ?length_fmap, ?length_take, ?length_replicate; lia.
  - cbn. eexists. split; [reflexivity|].
    repeat split; cbn; try done; try lia;
      rewrite ?length_fmap, ?length_take, ?length_replicate; lia.
Qed.

(** *** Filters without feedback *)

Lemma advance_input_fir f x : back_count f <= 1 -> advance_input f x = x.
Proof.
  intros HN. unfold advance_input, products.
  rewrite drop_ge; [done|]. rewrite length_take. lia.
Qed.

Lemma take_snoc_removelast {A} (l m : list A) (x : A) :
  take (length m) (l ++ x :: removelast m)
  = take (length m) ((l ++ [x]) ++ m).
Proof.
  rewrite <- app_assoc. cbn [app].
  rewrite !take_app. f_equal.
  destruct (length m - length l)%nat as [|k] eqn:E; [done|].
  cbn [take]. f_equal.
  rewrite removelast_firstn_len, take_take. f_equal. lia.
Qed.

Lemma filter_run_fir f xs :
  filter_wf f -> back_count f <= 1 ->
  exists ys g,
    filter_run f xs = Some (ys, g)
    /\ mem g = take (length (mem f)) (reverse xs ++ mem f).
Proof.
  revert f. induction xs as [|x xs IH]; intros f Hwf HN.
  - eexists _, _. split; [done|]. cbn. by rewrite take_ge.
  - cbn [filter_run]. rewrite filter_fwd_spec by done. cbn [mbind option_bind].
    destruct (IH (set_mem f (advance_mem f x))) as (ys & g & -> & Hg).
    { apply set_mem_wf; [done|]. by apply length_advance_mem. }
    { done. }
    eexists _, _. split; [done|].
    rewrite Hg. cbn [mem set_mem]. rewrite length_advance_mem by done.
    unfold advance_mem. rewrite advance_input_fir by done.
    by rewrite reverse_cons, take_snoc_removelast.
Qed.

Lemma count_nonzero_all (l : list sample) :
  Forall (fun x => is_zero x = false) l -> count_nonzero l = length l.
Proof.
  unfold count_nonzero. induction 1 as [|x l Hx _ IH]; [done|].
  rewrite filter_cons_True by done. cbn. by rewrite IH.
Qed.

Lemma count_nonzero_zeros (n : nat) : count_nonzero (replicate n czero) = 0%nat.
Proof.
  unfold count_nonzero. induction n as [|n IH]; [done|]. cbn [replicate].
  rewrite filter_cons_False; [done|]. rewrite is_zero_czero. done.
Qed.

Lemma count_nonzero_app (l k : list sample) :
  count_nonzero (l ++ k) = (count_nonzero l + count_nonzero k)%nat.
Proof. unfold count_nonzero. by rewrite filter_app, length_app. Qed.

Lemma count_nonzero_fill (xs : list sample) (M : nat) :
  Forall (fun x => is_zero x = false) xs ->
  count_nonzero (take M (reverse xs ++ replicate M czero))
  = Nat.min (length xs) M.
Proof.
  intros Hxs. rewrite take_app, take_replicate, count_nonzero_app.
  rewrite count_nonzero_zeros, count_nonzero_all.
  - rewrite length_take, length_reverse. lia.
  - by apply Forall_take, Forall_reverse.
Qed.

(** C8 (as amended): every filter created by [filter_new] with [M >= 1]
    taps and at most one feedback tap, in particular every FIR filter, has
    a delay line of [M] zeros right after creation, and after [k] calls of
    [filter_fwd] whose inputs are all non-zero exactly [min(k, M)] entries
    of the delay line are non-zero. *)
Theorem fir_delay_line_fill (M N : Z) (fwd back : list dcoef)
    (xs : list sample) :
  1 <= M <= INT_MAX -> 0 <= N <= 1 ->
  M <= Z.of_nat (length fwd) -> N <= Z.of_nat (length back) ->
  Forall (fun x => is_zero x = false) xs ->
  exists f ys g,
    filter_new M N fwd back = Some f
    /\ mem f = replicate (Z.to_nat M) czero
    /\ count_nonzero (mem f) = 0%nat
    /\ filter_run f xs = Some (ys, g)
    /\ length (mem g) = Z.to_nat M
    /\ count_nonzero (mem g) = Nat.min (length xs) (Z.to_nat M).
Proof.
  intros HM HN Hf Hb Hxs.
  destruct (filter_new_spec M N fwd back)
    as (f & Hnew & Hwf & HfM & HfN & _ & Hmem); [lia..|].
  destruct (filter_run_fir f xs Hwf) as (ys & g & Hrun & Hg); [lia|].
  exists f, ys, g. repeat split; try done.
  - rewrite Hmem. apply count_nonzero_zeros.
  - rewrite Hg, Hmem, length_replicate, length_take, length_app,
      length_replicate. lia.
  - rewrite Hg, Hmem, length_replicate. by apply count_nonzero_fill.
Qed.

End FilterFacts.

Lemma filter_fwd_advance_witness :
  filter_wf Examples.iir32
  /\ exists y g,
      filter_fwd Examples.iir32 (Examples.cx 2) = Some (y, g)
      /\ mem g = (minus_sigma (Examples.cx 2)
                    (products (mem Examples.iir32)
                       (back_coeff Examples.iir32) 1
                       (Z.to_nat (back_count Examples.iir32))))
                 :: removelast (mem Examples.iir32)
      /\ y = sigma (products (mem g) (fwd_coeff Examples.iir32) 0
                      (Z.to_nat (fwd_count Examples.iir32)))
      /\ same_taps Examples.iir32 g
      /\ (back_count Examples.iir32 = 0 ->
          mem g = Examples.cx 2 :: removelast (mem Examples.iir32)).
Proof.
  assert (filter_wf Examples.iir32) as Hwf.
  { split; vm_compute; try reflexivity; split; discriminate. }
  split; [exact Hwf|].
  exact (filter_fwd_advance Examples.iir32 (Examples.cx 2) Hwf).
Defined.

Lemma fir_delay_line_fill_witness :
  (1 <= 2 <= INT_MAX /\ 0 <= 0 <= 1)
  /\ exists f ys g,
      filter_new 2 0 [Examples.db 1; Examples.db 2] [] = Some f
      /\ mem f = replicate (Z.to_nat 2) czero
      /\ count_nonzero (mem f) = 0%nat
      /\ filter_run f [Examples.cx 1; Examples.cx 2; Examples.cx 3]
         = Some (ys, g)
      /\ length (mem g) = Z.to_nat 2
      /\ count_nonzero (mem g) = Nat.min 3 (Z.to_nat 2).
Proof.
  assert (1 <= 2 <= INT_MAX) as HM by (vm_compute; split; discriminate).
  assert (0 <= 0 <= 1) as HN by lia.
  split; [done|].
  apply (fir_delay_line_fill (H:=complex32) 2 0
           [Examples.db 1; Examples.db 2] []
           [Examples.cx 1; Examples.cx 2; Examples.cx 3] HM HN).
  - vm_compute. discriminate.
  - vm_compute. discriminate.
  - repeat constructor.
Defined.

(** The claim of C8 fails on a filter with feedback: with two taps and the
    feedback coefficient 1, the third of three inputs 1 is cancelled by
    the feedback, [x' = 1 − 1·1 = 0], and only one entry of the delay line
    is non-zero, not [min(3, 2) = 2]. *)
Lemma iir_delay_line_counterexample :
  filter_new 2 2 [Examples.db 1; Examples.db 1]
                 [Examples.db 1; Examples.db 1] = Some Examples.iir_fresh
  /\ Forall (fun x => is_zero x = false)
       [Examples.cx 1; Examples.cx 1; Examples.cx 1]
  /\ filter_run Examples.iir_fresh
       [Examples.cx 1; Examples.cx 1; Examples.cx 1]
     = Some ([Examples.cx 1; Examples.cx 2; Examples.cx 1],
             set_mem Examples.iir_fresh [Examples.cx 0; Examples.cx 1])
  /\ count_nonzero [Examples.cx 0; Examples.cx 1] = 1%nat
  /\ 1%nat <> Nat.min 3 2.
Proof.
  split; [reflexivity|].
  split; [repeat constructor|].
  split; [reflexivity|].
  split; [reflexivity|].
  vm_compute. discriminate.
Qed.

(* ------------------------------------------------------------------ *)
(** ** The RRC factory *)

Section RRCFacts.
Variables sin cos : double -> double.

Lemma rrc_order (order : Z) :
  0 <= order -> 2 * order + 1 <= UINT_MAX ->
  to_int (to_uint (2 * order + 1 - 1) `quot` 2) = order.
Proof.
  intros H0 H1. unfold UINT_MAX in H1.
  rewrite to_uint_id by (unfold UINT_MAX; lia).
  replace (2 * order + 1 - 1) with (order * 2) by lia.
  rewrite Z.quot_mul by done.
  apply to_int_id. unfold INT_MAX. lia.
Qed.

Lemma compute_rrc_coeff_center (order : Z) (osf alpha : float) :
  0 <= order -> 2 * order + 1 <= UINT_MAX ->
  compute_rrc_coeff sin cos order (2 * order + 1) osf alpha
  = d2f (rrc_center alpha).
Proof.
  intros H0 H1. unfold compute_rrc_coeff.
  rewrite rrc_order by done. by rewrite decide_True.
Qed.

Lemma filter_rrc_spec (order factor : Z) (osf alpha : float) :
  0 <= order -> 2 * order + 1 <= INT_MAX ->
  exists f,
    filter_rrc sin cos order factor osf alpha = Some f
    /\ filter_wf f
    /\ fwd_count f = 2 * order + 1 /\ back_count f = 0
    /\ mem f = replicate (Z.to_nat (2 * order + 1)) c0
    /\ forall i, 0 <= i < 2 * order + 1 ->
        load (fwd_coeff f) i
        = Some (d2f (f2d (compute_rrc_coeff sin cos i (2 * order + 1)
                            (fmul osf (f_of_Z factor)) alpha))).
Proof.
  intros H0 H1. unfold filter_rrc. cbv zeta.
  assert (to_uint (order * 2 + 1) = 2 * order + 1) as ->.
  { replace (order * 2 + 1) with (2 * order + 1) by lia.
    apply to_uint_id. unfold INT_MAX, UINT_MAX in *. lia. }
  set (coeffs := _ <$> seqZ 0 (2 * order + 1)).
  assert (length coeffs = Z.to_nat (2 * order + 1)) as Hlen
    by (unfold coeffs; by rewrite length_fmap, length_seqZ).
  destruct (filter_new_spec (H:=complex32) (2 * order + 1) 0 coeffs [])
    as (f & Hnew & Hwf & HM & HN & Hfc & Hmem);
    [lia | lia
    | change (2 * order + 1 <= Z.of_nat (length coeffs)); lia
    | cbn; lia |].
  exists f. split_and!; try done.
  intros i Hi. rewrite Hfc, load_nonneg by lia.
  rewrite list_lookup_fmap, lookup_take_lt by lia.
  unfold coeffs. rewrite list_lookup_fmap, lookup_seqZ_lt by lia.
  cbn. do 4 f_equal.
  replace (0 + Z.of_nat (Z.to_nat i)) with i by lia.
  apply to_int_id. unfold INT_MAX in *. lia.
Qed.

(** At [4αt = 1] the denominator of the coefficient is exactly zero, and
    a quotient by zero is an infinity or no number, whatever the
    numerator. *)
Lemma fdiv_zero_not_finite (c : float) (s : bool) :
  is_finite (fdiv c (S754_zero s)) = false.
Proof. by destruct c. Qed.

Lemma SFconv_not_finite prec emax (x : spec_float) :
  is_finite x = false -> is_finite (SFconv prec emax x) = false.
Proof. by destruct x. Qed.

Lemma compute_rrc_coeff_singular (order : Z) :
  0 <= order -> 2 * order + 1 <= INT_MAX ->
  is_finite (compute_rrc_coeff sin cos (order + 1) (2 * order + 1)
               (fmul (f_of_Z 1) (f_of_Z 2)) Examples.half) = false.
Proof.
  intros H0 H1. unfold compute_rrc_coeff.
  rewrite rrc_order by (unfold INT_MAX, UINT_MAX in *; lia).
  rewrite decide_False by lia. cbv zeta.
  replace (order - (order + 1)) with (-1) by lia.
  match goal with
  | |- is_finite (fdiv ?c ?d) = false =>
      replace d with (S754_zero false) by (vm_compute; reflexivity)
  end.
  apply fdiv_zero_not_finite.
Qed.

(** C4 fails on the code: for every [sin] and [cos], the filter of the
    first end-to-end scenario of the specification,
    [filter_rrc(32, 2, 1.0, 0.5)], has the tap 33 at [t = 1/2], where
    [4αt = 1]; the denominator is exactly zero there and the tap is an
    infinity or no number. *)
Theorem filter_rrc_singular_tap :
  exists f c,
    filter_rrc sin cos 32 2 (f_of_Z 1) Examples.half = Some f
    /\ load (fwd_coeff f) 33 = Some c
    /\ is_finite c = false.
Proof.
  destruct (filter_rrc_spec 32 2 (f_of_Z 1) Examples.half)
    as (f & Hf & _ & _ & _ & _ & Htap); [lia | vm_compute; discriminate |].
  eexists f, _. split; [done|]. split; [apply Htap; lia|].
  do 2 apply SFconv_not_finite.
  apply (compute_rrc_coeff_singular 32); [lia | vm_compute; discriminate].
Qed.

End RRCFacts.


(* ------------------------------------------------------------------ *)
(** ** The interpolator *)

Section InterpolatorFacts.
Variable Src : Type.
Variable src_read : Src -> Z -> Z * Src.
Variable src_data : Src -> list complex.

Lemma interp_body_step (src : list complex) (factor i : Z)
    (rrc : Filter complex32) (out : list complex) (x : complex) :
  filter_wf rrc -> 0 <= i < Z.of_nat (length out) ->
  load src (i `quot` factor) = Some x ->
  interp_body src factor i (rrc, out)
  = Some (set_mem rrc (advance_mem rrc x),
          <[Z.to_nat i := cplx_div_sqrt2 (advance_output rrc x)]> out).
Proof.
  intros Hwf Hi Hx. unfold interp_body. cbn [fst snd].
  rewrite Hx. cbn [mbind option_bind].
  rewrite filter_fwd_spec by done. cbn [mbind option_bind].
  by rewrite store_inside by lia.
Qed.

Lemma interp_loop (src : list complex) (factor : Z) (n : nat) :
  forall (i : Z) (rrc : Filter complex32) (out xs : list complex),
    filter_wf rrc -> 0 <= i ->
    i + Z.of_nat n <= Z.of_nat (length out) ->
    mapM (fun j => load src (j `quot` factor)) (seqZ i (Z.of_nat n))
    = Some xs ->
    exists ys rrc',
      filter_run rrc xs = Some (ys, rrc') /\ filter_wf rrc'
      /\ length ys = n
      /\ for_up n i (interp_body src factor) (rrc, out)
         = Some (rrc', take (Z.to_nat i) out ++ (cplx_div_sqrt2 <$> ys)
                         ++ drop (Z.to_nat i + n) out).
Proof.
  induction n as [|n IH]; intros i rrc out xs Hwf Hi Hlen Hxs.
  - cbn in Hxs. injection Hxs as <-. exists [], rrc. split_and!; try done.
    cbn. by rewrite Nat.add_0_r, take_drop.
  - rewrite seqZ_cons in Hxs by lia. cbn [mapM] in Hxs.
    destruct (load src (i `quot` factor)) as [x|] eqn:Hx; [|done].
    cbn [mbind option_bind] in Hxs.
    replace (Z.pred (Z.of_nat (S n))) with (Z.of_nat n) in Hxs by lia.
    replace (Z.succ i) with (i + 1) in Hxs by lia.
    destruct (mapM _ (seqZ (i + 1) (Z.of_nat n))) as [xs'|] eqn:Hxs'; [|done].
    cbn in Hxs. injection Hxs as <-.
    set (rrc1 := set_mem rrc (advance_mem rrc x)).
    assert (filter_wf rrc1) as Hwf1
      by (apply set_mem_wf; [done | by apply length_advance_mem]).
    set (out1 := <[Z.to_nat i := cplx_div_sqrt2 (advance_output rrc x)]> out).
    destruct (IH (i + 1) rrc1 out1 xs' Hwf1)
      as (ys & rrc' & Hrun & Hwf' & Hys & Hloop);
      [lia | unfold out1; rewrite length_insert; lia | done |].
    exists (advance_output rrc x :: ys), rrc'.
    split_and!; try done.
    + cbn [filter_run]. rewrite filter_fwd_spec by done.
      cbn [mbind option_bind].
      fold rrc1. by rewrite Hrun.
    + cbn [length]. lia.
    + cbn [for_up]. rewrite (interp_body_step _ _ _ _ _ x) by (done || lia).
      cbn [mbind option_bind].
      fold rrc1 out1. rewrite Hloop. f_equal. f_equal.
      unfold out1.
      replace (Z.to_nat (i + 1)) with (S (Z.to_nat i)) by lia.
      rewrite (take_S_r _ _ (cplx_div_sqrt2 (advance_output rrc x)))
        by (apply list_lookup_insert_eq; lia).
      rewrite take_insert_ge by lia.
      rewrite drop_insert_lt by lia.
      rewrite <- app_assoc. cbn. do 4 f_equal. lia.
Qed.

Lemma interp_inputs_total (src : list complex) (factor cnt : Z) :
  0 < factor -> 0 < cnt ->
  (cnt - 1) `quot` factor < Z.of_nat (length src) ->
  is_Some (interp_inputs src factor cnt).
Proof.
  intros Hf Hc Hlen. apply mapM_is_Some, Forall_seqZ. intros i Hi. cbn.
  rewrite load_nonneg by (apply Z.quot_pos; lia).
  apply lookup_lt_is_Some_2.
  pose proof (Z.quot_le_mono i (cnt - 1) factor). 
  pose proof (Z.quot_pos i factor). lia.
Qed.

Lemma length_interp_buffer (self : Interp Src) (cnt : Z) :
  interp_wf self -> 0 <= cnt ->
  cnt <= Z.of_nat (length (interp_buffer self cnt)).
Proof.
  intros [_ Hd _ _] Hc. unfold interp_buffer, alloc_samples.
  destruct (data self) as [d|] eqn:E.
  - case_decide.
    + rewrite length_replicate. lia.
    + specialize (Hd d eq_refl). lia.
  - rewrite length_replicate. lia.
Qed.

(** What a call that gets samples from the source does: the request, the
    inputs of the filter and the output block. *)
Lemma interp_read_samples (self : Interp Src) (cnt produced : Z) (src' : Src) :
  interp_wf self -> 0 < cnt <= INT_MAX ->
  src_read (st_src (_backend self))
           (cnt `quot` st_factor (_backend self)) = (produced, src') ->
  to_size produced <> 0 ->
  (cnt - 1) `quot` st_factor (_backend self)
    < Z.of_nat (length (src_data src')) ->
  exists xs ys rrc' out,
    interp_inputs (src_data src') (st_factor (_backend self)) cnt = Some xs
    /\ filter_run (st_rrc (_backend self)) xs = Some (ys, rrc')
    /\ take (Z.to_nat cnt) out = cplx_div_sqrt2 <$> ys
    /\ interp_read Src src_read src_data self cnt
       = Some (cnt,
               {| count := cnt; data := Some out;
                  _backend :=
                    {| st_src := src'; st_rrc := rrc';
                       st_factor := st_factor (_backend self) |} |}).
Proof.
  intros Hwf Hc Hread Hp Hlen. pose proof Hwf as [_ _ Hf Hrrc].
  destruct (interp_inputs_total (src_data src') (st_factor (_backend self)) cnt)
    as [xs Hxs]; [lia..|].
  pose proof (length_interp_buffer self cnt Hwf) as Hbuf.
  unfold interp_inputs in Hxs.
  replace cnt with (Z.of_nat (Z.to_nat cnt)) in Hxs at 1 by lia.
  destruct (interp_loop (src_data src') (st_factor (_backend self))
              (Z.to_nat cnt) 0 (st_rrc (_backend self))
              (interp_buffer self cnt) xs)
    as (ys & rrc' & Hrun & _ & Hys & Hloop); [done | lia | lia | done |].
  exists xs, ys, rrc',
    (take (Z.to_nat 0) (interp_buffer self cnt) ++ (cplx_div_sqrt2 <$> ys)
     ++ drop (Z.to_nat 0 + Z.to_nat cnt) (interp_buffer self cnt)).
  split_and!.
  - unfold interp_inputs.
    by replace cnt with (Z.of_nat (Z.to_nat cnt)) at 1 by lia.
  - done.
  - rewrite Z2Nat.inj_0, take_0, app_nil_l.
    apply take_app_length'. rewrite length_fmap. symmetry. exact Hys.
  - unfold interp_read, interp_request.
    rewrite to_int_id by (unfold INT_MAX in *; lia).
    rewrite decide_False by lia.
    rewrite to_size_id by (unfold INT_MAX in *; lia).
    rewrite Hread. rewrite decide_False by done.
    rewrite decide_True by lia.
    unfold trip_count. replace (cnt - 0) with cnt by lia.
    rewrite Hloop. cbn [mbind option_bind].
    rewrite to_int_id by (unfold INT_MAX in *; lia).
    reflexivity.
Qed.

(** C10: for every requested count [n > 0] (within [int]), on an
    interpolator in its invariant and a source whose buffer covers the
    indices the loop reads, [interp_read] returns 0 when the source
    produced no samples and [n] otherwise, also when the source produced
    fewer samples than it was asked for; nothing in between. *)
Theorem interp_read_all_or_nothing (self : Interp Src) (n produced : Z)
    (src' : Src) :
  interp_wf self -> 0 < n <= INT_MAX ->
  src_read (st_src (_backend self))
           (n `quot` st_factor (_backend self)) = (produced, src') ->
  - 2 ^ 31 <= produced <= INT_MAX ->
  (n - 1) `quot` st_factor (_backend self)
    < Z.of_nat (length (src_data src')) ->
  exists r self',
    interp_read Src src_read src_data self n = Some (r, self')
    /\ (produced = 0 -> r = 0)
    /\ (produced <> 0 -> r = n)
    /\ ~ (0 < r < n).
Proof.
  intros Hwf Hn Hread Hp Hlen.
  destruct (decide (produced = 0)) as [->|Hnz].
  - pose proof Hwf as [_ _ Hf _].
    eexists 0, _. split_and!; [|done|done|lia].
    unfold interp_read, interp_request.
    rewrite to_int_id by (unfold INT_MAX in *; lia).
    rewrite decide_False by lia.
    rewrite to_size_id by (unfold INT_MAX in *; lia).
    rewrite Hread. by rewrite decide_True.
  - assert (to_size produced <> 0) as Hsz.
    { unfold to_size, INT_MAX in *. intros E.
      apply Z.mod_divide in E; [|lia]. destruct E as [k E]. lia. }
    destruct (interp_read_samples self n produced src')
      as (xs & ys & rrc' & out & _ & _ & _ & Hr); try done.
    eexists n, _. split_and!; [done|done|done|lia].
Qed.

End InterpolatorFacts.

(** Whenever the factor does not divide the count, the source is asked
    for fewer samples than [⌈n/L⌉], and the last index the loop reads is
    the first one past the samples asked for. *)
Lemma interp_request_short (n L : Z) :
  0 < L <= INT_MAX -> 0 < n -> n `mod` L <> 0 ->
  interp_request n L = n `div` L
  /\ interp_request n L < (n + L - 1) `div` L
  /\ (n - 1) `quot` L = interp_request n L.
Proof.
  intros HL Hn Hmod. unfold interp_request.
  rewrite to_size_id by (unfold INT_MAX in *; lia).
  rewrite !Z.quot_div_nonneg by lia.
  pose proof (Z.div_mod n L ltac:(lia)) as Hdm.
  pose proof (Z.mod_pos_bound n L ltac:(lia)) as Hb.
  assert ((n + L - 1) `div` L = n `div` L + 1) as ->.
  { symmetry. apply (Z.div_unique _ _ _ (n `mod` L - 1)); lia. }
  assert ((n - 1) `div` L = n `div` L) as ->.
  { symmetry. apply (Z.div_unique _ _ _ (n `mod` L - 1)); lia. }
  lia.
Qed.

Lemma interp2_wf (todo stale : list complex) :
  interp_wf (Examples.interp2 todo stale).
Proof.
  split; cbn.
  - lia.
  - discriminate.
  - unfold INT_MAX. lia.
  - split; cbn; unfold INT_MAX; lia.
Defined.

Lemma interp_read_all_or_nothing_witness :
  (interp_wf Examples.short_interp /\ 0 < 8 <= INT_MAX
   /\ ListSource.read (st_src (_backend Examples.short_interp))
        (8 `quot` st_factor (_backend Examples.short_interp))
      = (3, (ListSource.read (st_src (_backend Examples.short_interp)) 4).2)
   /\ 7 `quot` st_factor (_backend Examples.short_interp)
      < Z.of_nat (length (ListSource.buf
           (ListSource.read (st_src (_backend Examples.short_interp)) 4).2)))
  /\ exists r self',
      Examples.list_interp_read Examples.short_interp 8 = Some (r, self')
      /\ (3 = 0 -> r = 0) /\ (3 <> 0 -> r = 8) /\ ~ (0 < r < 8).
Proof.
  set (self := Examples.short_interp).
  set (src' := (ListSource.read (st_src (_backend self)) 4).2).
  assert (interp_wf self) as Hwf by apply interp2_wf.
  assert (0 < 8 <= INT_MAX) as Hn by (unfold INT_MAX; lia).
  assert (ListSource.read (st_src (_backend self))
            (8 `quot` st_factor (_backend self)) = (3, src')) as Hread
    by reflexivity.
  assert (- 2 ^ 31 <= 3 <= INT_MAX) as Hp by (unfold INT_MAX; lia).
  assert (7 `quot` st_factor (_backend self)
          < Z.of_nat (length (ListSource.buf src'))) as Hlen
    by (vm_compute; reflexivity).
  split; [done|].
  exact (interp_read_all_or_nothing ListSource.t ListSource.read
           ListSource.buf self 8 3 src' Hwf Hn Hread Hp Hlen).
Defined.

(** C1 fails on the code: asked for 5 samples at factor 2, [interp_read]
    asks the source for [5 / 2 = 2] samples, not for [⌈5/2⌉ = 3], and
    then reads [src->data[4/2]], the third sample.  With a source whose
    buffer holds just the two samples delivered that read is outside the
    buffer; with a larger buffer the fifth output is computed from what
    an earlier block left there (here the sample 9), not from the third
    sample of the stream (here 3). *)
Theorem interp_read_floor_request :
  interp_request 5 2 = 2
  /\ (5 + 2 - 1) `div` 2 = 3
  /\ ListSource.read (ListSource.make Examples.stream5 [])
       (interp_request 5 2)
     = (2, {| ListSource.pending :=
                [Examples.cx 3; Examples.cx 4; Examples.cx 5];
              ListSource.buf := [Examples.cx 1; Examples.cx 2];
              ListSource.asked := [2] |})
  /\ Examples.list_interp_read (Examples.interp2 Examples.stream5 []) 5
     = None
  /\ ((fun r => (r.1, data r.2, ListSource.asked (st_src (_backend r.2))))
        <$> Examples.list_interp_read
              (Examples.interp2 Examples.stream5 Examples.stale4) 5)
     = Some (5,
             Some (cplx_div_sqrt2 <$>
                   [Examples.cx 1; Examples.cx 1; Examples.cx 2;
                    Examples.cx 2; Examples.cx 9]),
             [2]).
Proof. split_and!; reflexivity. Qed.

(* ------------------------------------------------------------------ *)
(** ** Subtraction of nearby [float]s *)

Lemma digits2_pos_bounds (m : positive) :
  2 ^ (Z.pos (digits2_pos m) - 1) <= Z.pos m < 2 ^ Z.pos (digits2_pos m).
Proof.
  induction m as [m IH|m IH|]; cbn [digits2_pos].
  - rewrite Pos2Z.inj_succ.
    replace (Z.succ (Z.pos (digits2_pos m)) - 1)
      with (Z.succ (Z.pos (digits2_pos m) - 1)) by lia.
    rewrite !Z.pow_succ_r by lia. lia.
  - rewrite Pos2Z.inj_succ.
    replace (Z.succ (Z.pos (digits2_pos m)) - 1)
      with (Z.succ (Z.pos (digits2_pos m) - 1)) by lia.
    rewrite !Z.pow_succ_r by lia. lia.
  - cbn. lia.
Qed.

Lemma digits2_pos_mono (a b : positive) :
  Z.pos a <= Z.pos b -> Z.pos (digits2_pos a) <= Z.pos (digits2_pos b).
Proof.
  intros Hab.
  pose proof (digits2_pos_bounds a) as [Ha _].
  pose proof (digits2_pos_bounds b) as [_ Hb].
  destruct (Z.le_gt_cases (Z.pos (digits2_pos a)) (Z.pos (digits2_pos b)))
    as [|Hgt]; [done|].
  exfalso.
  assert (2 ^ Z.pos (digits2_pos b) <= 2 ^ (Z.pos (digits2_pos a) - 1))
    by (apply Z.pow_le_mono_r; lia).
  lia.
Qed.

Lemma iter_xO_value (m k : positive) :
  Z.pos (Pos.iter xO m k) = Z.pos m * 2 ^ Z.pos k.
Proof.
  induction k as [|k IH] using Pos.peano_ind.
  - cbn. lia.
  - rewrite Pos.iter_succ, Pos2Z.inj_xO, IH, Pos2Z.inj_succ, Z.pow_succ_r
      by lia.
    lia.
Qed.

Lemma iter_xO_digits (m k : positive) :
  Z.pos (digits2_pos (Pos.iter xO m k)) = Z.pos (digits2_pos m) + Z.pos k.
Proof.
  induction k as [|k IH] using Pos.peano_ind.
  - cbn. lia.
  - rewrite Pos.iter_succ. cbn [digits2_pos]. rewrite !Pos2Z.inj_succ, IH. lia.
Qed.

(** A mantissa already in place is left as it is. *)
Lemma binary_round_aux_canonical (s : bool) (m : positive) (e : Z) :
  fexp 24 128 (Z.pos (digits2_pos m) + e) = e -> e <= 104 ->
  binary_round_aux 24 128 s (Z.pos m) e loc_Exact = S754_finite s m e.
Proof.
  intros Hc He. unfold binary_round_aux, shr_fexp.
  cbn [Zdigits2 shr_record_of_loc].
  rewrite Hc, Z.sub_diag.
  cbn [shr shr_m loc_of_shr_record round_nearest_even Zdigits2
       shr_record_of_loc].
  rewrite Hc, Z.sub_diag. cbn [shr shr_m].
  replace (e <=? 128 - 24) with true; [done|].
  symmetry. apply Z.leb_le. lia.
Qed.

Lemma binary_round_exact (d : positive) (e : Z) :
  fexp 24 128 (Z.pos (digits2_pos d) + e) <= e -> e <= 104 ->
  exists mz ez,
    binary_round 24 128 false d e = S754_finite false mz ez
    /\ ez = fexp 24 128 (Z.pos (digits2_pos d) + e)
    /\ Z.pos mz * 2 ^ (ez + 149) = Z.pos d * 2 ^ (e + 149)
    /\ (ez = e -> mz = d).
Proof.
  intros Hf He. unfold binary_round, shl_align.
  set (e' := fexp 24 128 (Z.pos (digits2_pos d) + e)) in *.
  assert (-149 <= e') as Hmin by (unfold e', fexp, emin; lia).
  destruct (e' - e) as [|k|k] eqn:Hk; try lia.
  - assert (e' = e) as He' by lia.
    exists d, e. rewrite binary_round_aux_canonical by (fold e'; lia).
    split_and!; (done || lia).
  - assert (Z.pos (digits2_pos (Pos.iter xO d k)) + e'
            = Z.pos (digits2_pos d) + e) as Hd
      by (rewrite iter_xO_digits; lia).
    exists (Pos.iter xO d k), e'.
    rewrite binary_round_aux_canonical; [|by rewrite Hd|lia].
    split_and!; [done | done | | intros ?; exfalso; lia].
    rewrite iter_xO_value. replace (e + 149) with (Z.pos k + (e' + 149)) by lia.
    rewrite (Z.pow_add_r 2 (Z.pos k) (e' + 149)) by lia. ring.
Qed.

Lemma bounded_canonical m e :
  bounded 24 128 m e = true ->
  fexp 24 128 (Z.pos (digits2_pos m) + e) = e /\ e <= 104 /\ -149 <= e
  /\ Z.pos (digits2_pos m) <= 24
  /\ (-149 < e -> Z.pos (digits2_pos m) = 24).
Proof.
  unfold bounded, canonical_mantissa. intros [Hc He]%andb_true_iff.
  apply Z.eqb_eq in Hc. apply Z.leb_le in He.
  split; [done|]. revert Hc. unfold fexp, emin. lia.
Qed.

Lemma compare_lt_mantissa (a b : positive) :
  Z.pos a < Z.pos b -> Pos.compare_cont Eq a b = Lt.
Proof. intros. change (Pos.compare a b = Lt). by apply Pos.compare_lt_iff. Qed.

Lemma fleb_posfin m1 e1 m2 e2 :
  fleb (S754_finite false m1 e1) (S754_finite false m2 e2) = true ->
  e1 < e2 \/ (e1 = e2 /\ Z.pos m1 <= Z.pos m2).
Proof.
  unfold fleb, SFleb, SFcompare.
  destruct (Z.compare_spec e1 e2) as [->|Hlt|Hgt].
  - change (Pos.compare_cont Eq m1 m2) with (Pos.compare m1 m2).
    destruct (Pos.compare_spec m1 m2) as [->|H|H]; intros Hc;
      [right; lia | right; lia | done].
  - intros _. by left.
  - done.
Qed.

(** Sterbenz: for [y <= x < 2y] the difference [x - y] is a [float], the
    subtraction does not round, and the difference is below [y]. *)
Lemma fsub_sterbenz (mx : positive) (ex : Z) (my : positive) (ey : Z) :
  bounded 24 128 mx ex = true -> bounded 24 128 my ey = true ->
  fleb (S754_finite false my ey) (S754_finite false mx ex) = true ->
  exact32 (S754_finite false mx ex) < 2 * exact32 (S754_finite false my ey) ->
  exact32 (fsub (S754_finite false mx ex) (S754_finite false my ey))
  = exact32 (S754_finite false mx ex) - exact32 (S754_finite false my ey)
  /\ fltb (fsub (S754_finite false mx ex) (S754_finite false my ey))
          (S754_finite false my ey) = true.
Proof.
  intros Hbx Hby Hle Hlt.
  destruct (bounded_canonical _ _ Hbx) as (Hcx & Hex & Hmx & Hdx & Hnx).
  destruct (bounded_canonical _ _ Hby) as (Hcy & Hey & Hmy & Hdy & Hny).
  pose proof (digits2_pos_bounds mx) as [Hx1 Hx2].
  pose proof (digits2_pos_bounds my) as [Hy1 Hy2].
  apply fleb_posfin in Hle.
  assert (ey <= ex) as Hee by lia.
  cbn [exact32] in Hlt |- *.
  (* the aligned mantissa of x *)
  set (k := ex - ey).
  assert (2 ^ (ex + 149) = 2 ^ k * 2 ^ (ey + 149)) as Hpow.
  { rewrite <- Z.pow_add_r by lia. f_equal. lia. }
  assert (0 < 2 ^ (ey + 149)) as Hpy by (apply Z.pow_pos_nonneg; lia).
  assert (0 < 2 ^ k) as Hpk by (apply Z.pow_pos_nonneg; lia).
  assert (fst (shl_align mx ex ey) = mx /\ k = 0 \/
          exists p, fst (shl_align mx ex ey) = Pos.iter xO mx p
                    /\ k = Z.pos p) as Hal.
  { unfold shl_align. destruct (ey - ex) as [|p|p] eqn:Hp; try lia.
    - left. split; [done|lia].
    - right. exists p. split; [done|lia]. }
  assert (Z.pos (fst (shl_align mx ex ey)) = Z.pos mx * 2 ^ k) as Hax.
  { destruct Hal as [[-> ->]|(p & -> & ->)]; [cbn; lia|apply iter_xO_value]. }
  assert (fst (shl_align my ey ey) = my) as Hay.
  { unfold shl_align. by rewrite Z.sub_diag. }
  (* the difference of the mantissas *)
  set (d := Z.pos mx * 2 ^ k - Z.pos my).
  assert (d < Z.pos my) as Hd2 by (unfold d; nia).
  assert (0 <= d) as Hd1.
  { unfold d. destruct Hle as [Hlt'|[-> Hm]].
    - assert (Z.pos (digits2_pos mx) = 24) as H24 by lia.
      rewrite H24 in Hx1.
      assert (2 ^ 1 <= 2 ^ k) by (apply Z.pow_le_mono_r; lia).
      assert (Z.pos my < 2 ^ 24).
      { eapply Z.lt_le_trans; [exact Hy2|]. apply Z.pow_le_mono_r; lia. }
      change (2 ^ (24 - 1)) with 8388608 in Hx1.
      change (2 ^ 24) with 16777216 in *. change (2 ^ 1) with 2 in *. nia.
    - unfold k. rewrite Z.sub_diag. cbn. lia. }
  unfold fsub, SFsub. cbn [cond_Zopp]. rewrite Z.min_r by lia.
  rewrite Hax, Hay. fold d.
  destruct d as [|dp|dp] eqn:Ed; [| |lia].
  - cbn. split; [unfold d in Ed; nia | done].
  - cbn [binary_normalize].
    destruct (binary_round_exact dp ey) as (mz & ez & -> & Hez & Hval & Hsame).
    { rewrite <- Hcy at 2. unfold fexp. 
      pose proof (digits2_pos_mono dp my ltac:(lia)). lia. }
    { lia. }
    cbn [exact32]. split.
    + rewrite !Z.mul_1_l, Hval. unfold d in Ed. nia.
    + assert (ez <= ey) as Hzy.
      { rewrite Hez. rewrite <- Hcy at 2. unfold fexp.
        pose proof (digits2_pos_mono dp my ltac:(lia)). lia. }
      unfold fltb, SFltb, SFcompare.
      destruct (Z.compare_spec ez ey) as [->|?|?]; [|done|lia].
      rewrite (Hsame eq_refl). rewrite compare_lt_mantissa; [done|lia].
Qed.

(** A finite positive [float] in canonical form, by its parts. *)
Lemma valid32_positive (x : float) :
  valid32 x -> fltb (f_of_Z 0) x = true ->
  exists m e, x = S754_finite false m e /\ bounded 24 128 m e = true.
Proof.
  intros [Hv Hf] Hpos. destruct x as [s|s| |s m e]; try done.
  destruct s; [done|]. by exists m, e.
Qed.

Lemma valid32_above (x : float) (m : positive) (e : Z) :
  valid32 x -> fleb (S754_finite false m e) x = true ->
  exists mx ex, x = S754_finite false mx ex /\ bounded 24 128 mx ex = true.
Proof.
  intros [Hv Hf] Hle. destruct x as [s|s| |s mx ex]; try done.
  destruct s; [done|]. by exists mx, ex.
Qed.

(* ------------------------------------------------------------------ *)
(** ** The worker loop *)

Section WorkerFacts.
Variables Agc Costas : Type.
Variable agc_apply : Agc -> complex -> complex * Agc.
Variable costas_resync : Costas -> complex -> complex * Costas.
Variable SYM_CHUNKSIZE : Z.

#[local] Abbreviation WorkerT := (Worker Agc Costas).
#[local] Abbreviation capture_ :=
  (capture Agc Costas agc_apply costas_resync SYM_CHUNKSIZE).
#[local] Abbreviation sample_step_ :=
  (sample_step Agc Costas agc_apply costas_resync SYM_CHUNKSIZE).
#[local] Abbreviation run_trace_ :=
  (run_trace Agc Costas agc_apply costas_resync SYM_CHUNKSIZE).
#[local] Abbreviation buffer_ok_ := (buffer_ok SYM_CHUNKSIZE).
Implicit Types w : WorkerT.

Lemma take_two_stores (buf : list Z) (n : nat) (v1 v2 : Z) :
  (n + 2 <= length buf)%nat ->
  take (n + 2) (<[S n := v2]> (<[n := v1]> buf)) = take n buf ++ [v1; v2].
Proof.
  intros Hn. replace (n + 2)%nat with (S (S n)) by lia.
  rewrite (take_S_r _ _ v2)
    by (apply list_lookup_insert_eq; rewrite length_insert; lia).
  rewrite (take_S_r _ _ v1).
  - rewrite !take_insert_ge by lia. by rewrite <- app_assoc.
  - rewrite list_lookup_insert_ne by lia.
    apply list_lookup_insert_eq. lia.
Qed.

Lemma emitted_tick w : emitted (tick w) = emitted w.
Proof. done. Qed.

Lemma bytes_out_tick w :
  demod_get_bytes_out (tick w) = demod_get_bytes_out w.
Proof. done. Qed.

(** The symbol branch, field by field. *)
Lemma capture_spec w (x : complex) :
  buffer_ok_ w ->
  exists w',
    capture_ w x = Some w'
    /\ resync_offset w'
       = timing_adjust
           (capture_offset (resync_offset w) (resync_period w))
           (timing_error (agc_apply (agc w) x).1 (before w) (mid w))
           (resync_period w)
    /\ resync_period w' = resync_period w
    /\ before w' = (agc_apply (agc w) x).1
    /\ mid w' = mid w
    /\ cur w' = (costas_resync (cst w) (agc_apply (agc w) x).1).1
    /\ agc w' = (agc_apply (agc w) x).2
    /\ cst w' = (costas_resync (cst w) (agc_apply (agc w) x).1).2
    /\ emitted w'
       = emitted w
         ++ [soft_i (costas_resync (cst w) (agc_apply (agc w) x).1).1;
             soft_q (costas_resync (cst w) (agc_apply (agc w) x).1).1]
    /\ bytes_out_count w' = to_uint (bytes_out_count w + 2)
    /\ buffer_ok_ w'.
Proof.
  intros (Hb0 & Hb2 & Hsym & Hmax). unfold capture.
  destruct (agc_apply (agc w) x) as [c agc']. cbn [fst snd].
  destruct (costas_resync (cst w) c) as [c' cst']. cbn [fst snd].
  rewrite store_inside by lia. cbn [mbind option_bind].
  rewrite (to_int_id (buf_offset w + 1)) by (unfold INT_MAX in *; lia).
  rewrite (to_int_id (buf_offset w + 2)) by (unfold INT_MAX in *; lia).
  rewrite store_inside by (rewrite length_insert; lia).
  cbn [mbind option_bind].
  eexists. split; [reflexivity|]. cbn.
  replace (Z.to_nat (buf_offset w + 1)) with (S (Z.to_nat (buf_offset w)))
    by lia.
  replace (Z.to_nat (buf_offset w + 2)) with (Z.to_nat (buf_offset w) + 2)%nat
    by lia.
  split_and!; try done.
  - unfold emitted. cbn.
    case_bool_decide; cbn.
    + rewrite take_two_stores by lia. by rewrite app_nil_r, <- app_assoc.
    + replace (Z.to_nat (buf_offset w + 2))
        with (Z.to_nat (buf_offset w) + 2)%nat by lia.
      rewrite take_two_stores by lia. by rewrite <- app_assoc.
  - unfold buffer_ok. cbn. rewrite !length_insert.
    case_bool_decide; lia.
Qed.

(** Every round of the loop goes through, keeps the buffer in order, and
    changes the output and the counter by a symbol or not at all. *)
Lemma sample_step_spec w (x : complex) :
  buffer_ok_ w -> 0 <= bytes_out_count w -> bytes_out_count w + 2 <= UINT_MAX ->
  exists w',
    sample_step_ w x = Some w' /\ buffer_ok_ w' /\ step_effect w w'
    /\ bytes_out_count w <= bytes_out_count w' <= bytes_out_count w + 2.
Proof.
  intros Hok Hc0 Hc. unfold sample_step, step_effect, captures.
  destruct (at_mid _ _) eqn:Hmid; cbn [negb andb].
  - destruct (agc_apply (agc w) x) as [m agc'].
    eexists. split; [reflexivity|]. split_and!; try done; cbn; lia.
  - destruct (at_symbol _ _) eqn:Hsym.
    + destruct (capture_spec w x Hok)
        as (w' & -> & _ & _ & _ & _ & _ & _ & _ & Hem & Hcnt & Hok').
      rewrite to_uint_id in Hcnt by lia.
      eexists. split; [reflexivity|].
      rewrite emitted_tick, bytes_out_tick.
      split_and!; try done.
      * eauto.
      * unfold demod_get_bytes_out. rewrite Hcnt.
        rewrite !to_uint_id by lia. done.
      * cbn. lia.
      * cbn. lia.
    + eexists. split; [reflexivity|]. split_and!; try done; cbn; lia.
Qed.

Lemma run_trace_head w (xs : list complex) ws :
  run_trace_ w xs = Some ws -> ws !! 0%nat = Some w.
Proof.
  destruct xs as [|x xs]; cbn.
  - by intros [= <-].
  - destruct (sample_step_ w x) as [w'|]; [|done]. cbn.
    destruct (run_trace_ w' xs); [|done]. by intros [= <-].
Qed.

Lemma run_trace_spec (xs : list complex) :
  forall w,
    buffer_ok_ w -> 0 <= bytes_out_count w ->
    bytes_out_count w + 2 * Z.of_nat (length xs) <= UINT_MAX ->
    exists ws,
      run_trace_ w xs = Some ws
      /\ length ws = S (length xs)
      /\ (forall i w1 w2,
             ws !! i = Some w1 -> ws !! S i = Some w2 -> step_effect w1 w2)
      /\ (forall i w1,
             ws !! i = Some w1 ->
             bytes_out_count w <= bytes_out_count w1
             /\ bytes_out_count w1 <= UINT_MAX)
      /\ (forall i j w1 w2,
             (i <= j)%nat -> ws !! i = Some w1 -> ws !! j = Some w2 ->
             bytes_out_count w1 <= bytes_out_count w2).
Proof.
  induction xs as [|x xs IH]; intros w Hok Hc0 Hc.
  - exists [w]. split_and!.
    + done.
    + done.
    + intros i w1 w2 _ H2. by destruct i.
    + intros [|i] w1; [|done]. intros [= <-]. cbn in Hc. lia.
    + intros [|i] [|j] w1 w2 _; try done. intros [= <-] [= <-]. lia.
  - cbn [length] in Hc.
    destruct (sample_step_spec w x Hok Hc0)
      as (w' & Hstep & Hok' & Heff & Hcnt); [lia|].
    destruct (IH w' Hok') as (ws & Hrun & Hlen & Hstepw & Hlow & Hmono);
      [lia | lia |].
    exists (w :: ws). cbn [run_trace]. rewrite Hstep. cbn.
    rewrite Hrun. cbn. split_and!.
    + done.
    + by rewrite Hlen.
    + intros [|i] w1 w2 H1 H2.
      * injection H1 as <-. change (ws !! 0%nat = Some w2) in H2.
        rewrite (run_trace_head _ _ _ Hrun) in H2. by injection H2 as <-.
      * exact (Hstepw i w1 w2 H1 H2).
    + intros [|i] w1 H1.
      * injection H1 as <-. lia.
      * destruct (Hlow i w1 H1). lia.
    + intros [|i] [|j] w1 w2 Hij H1 H2; try lia.
      * injection H1 as <-. injection H2 as <-. lia.
      * injection H1 as <-. destruct (Hlow j w2 H2). lia.
      * apply (Hmono i j w1 w2); [lia | exact H1 | exact H2].
Qed.

Lemma captures_branches w :
  captures w = true ->
  at_mid (resync_offset w) (resync_period w) = false
  /\ at_symbol (resync_offset w) (resync_period w) = true.
Proof.
  unfold captures. intros [H1 H2]%andb_true_iff.
  by apply negb_true_iff in H1.
Qed.

Lemma sample_step_capture w (x : complex) :
  captures w = true -> sample_step_ w x = tick <$> capture_ w x.
Proof.
  intros [Hmid Hsym]%captures_branches. unfold sample_step.
  by rewrite Hmid, Hsym.
Qed.

(** The symbol branch subtracts the period once. *)
Lemma capture_subtracts_once w (x : complex) :
  buffer_ok_ w -> captures w = true ->
  exists w',
    sample_step_ w x = Some w'
    /\ resync_offset w'
       = fadd (timing_adjust
                 (fsub (resync_offset w) (resync_period w))
                 (timing_error (agc_apply (agc w) x).1 (before w) (mid w))
                 (resync_period w))
              (f_of_Z 1)
    /\ resync_period w' = resync_period w.
Proof.
  intros Hok Hcap. rewrite sample_step_capture by done.
  destruct (capture_spec w x Hok) as (w' & -> & Hoff & Hper & _).
  exists (tick w'). cbn. by rewrite Hoff, Hper.
Qed.

(** C5 (as amended): in the worker loop the symbol-capture step
    subtracts the period from [resync_offset] once, without iterating.
    After every symbol capture that starts with [resync_offset] below
    twice the period (both finite, the period positive), the resulting
    [resync_offset], before the timing-error adjustment, is exactly
    [resync_offset − period] and is less than the period; the round ends
    with that value adjusted and advanced by one. *)
Theorem capture_within_period w (x : complex) :
  buffer_ok_ w -> captures w = true ->
  valid32 (resync_offset w) -> valid32 (resync_period w) ->
  fltb (f_of_Z 0) (resync_period w) = true ->
  exact32 (resync_offset w) < 2 * exact32 (resync_period w) ->
  exists w',
    sample_step_ w x = Some w'
    /\ resync_offset w'
       = fadd (timing_adjust
                 (fsub (resync_offset w) (resync_period w))
                 (timing_error (agc_apply (agc w) x).1 (before w) (mid w))
                 (resync_period w))
              (f_of_Z 1)
    /\ exact32 (fsub (resync_offset w) (resync_period w))
       = exact32 (resync_offset w) - exact32 (resync_period w)
    /\ fltb (fsub (resync_offset w) (resync_period w)) (resync_period w)
       = true.
Proof.
  intros Hok Hcap Hvo Hvp Hpos Hlt.
  destruct (capture_subtracts_once w x Hok Hcap) as (w' & Hstep & Hoff & _).
  exists w'. split; [done|]. split; [done|].
  destruct (captures_branches w Hcap) as [_ Hsym]. unfold at_symbol in Hsym.
  destruct (valid32_positive _ Hvp Hpos) as (mp & ep & Ep & Hbp).
  rewrite Ep in Hsym, Hlt |- *.
  destruct (valid32_above _ mp ep Hvo Hsym)
    as (mo & eo & Eo & Hbo).
  rewrite Eo in Hsym, Hlt |- *.
  by apply fsub_sterbenz.
Qed.

(** C6: for every symbol capture of the worker loop ([resync_offset] not
    in the window of the middle sample and at least the period), with
    [cur] the AGC output for the sample, the timing error is
    [τ = (Im cur − Im before)·Im mid], [resync_offset] becomes
    [resync_offset − period] adjusted by [τ·period/2000000] (and advanced
    by one at the end of the round), [before] becomes [cur], [cur] goes
    through the Costas loop, and the two bytes [clamp(Re cur / 2)] and
    [clamp(Im cur / 2)] are put out as signed 8-bit values, where
    [clamp(v) = round(saturate(v, −127, 127))]. *)
Theorem symbol_capture w (x : complex) :
  buffer_ok_ w -> captures w = true ->
  exists w',
    sample_step_ w x = Some w'
    /\ (let c := (agc_apply (agc w) x).1 in
        let c' := (costas_resync (cst w) c).1 in
        let tau := fmul (fsub (im c) (im (before w))) (im (mid w)) in
        resync_offset w'
        = fadd (d2f (dadd (f2d (fsub (resync_offset w) (resync_period w)))
                          (ddiv (f2d (fmul tau (resync_period w)))
                                (d_of_Z 2000000))))
               (f_of_Z 1)
        /\ before w' = c
        /\ cur w' = c'
        /\ agc w' = (agc_apply (agc w) x).2
        /\ cst w' = (costas_resync (cst w) c).2
        /\ emitted w'
           = emitted w ++ [to_int8 (clamp (fdiv (re c') (f_of_Z 2)));
                           to_int8 (clamp (fdiv (im c') (f_of_Z 2)))]
        /\ -128 <= to_int8 (clamp (fdiv (re c') (f_of_Z 2))) <= 127
        /\ -128 <= to_int8 (clamp (fdiv (im c') (f_of_Z 2))) <= 127)
    /\ (forall v, clamp v
                  = round_half_away
                      (saturate v (f_of_Z (-127)) (f_of_Z 127))).
Proof.
  intros Hok Hcap. rewrite sample_step_capture by done.
  destruct (capture_spec w x Hok)
    as (w' & -> & Hoff & _ & Hbef & _ & Hcur & Hagc & Hcst & Hem & _).
  exists (tick w'). split; [done|]. split; [|done].
  cbn zeta. rewrite emitted_tick. cbn [tick resync_offset before cur agc cst].
  rewrite Hoff, Hbef, Hcur, Hagc, Hcst, Hem.
  split_and!; try done; apply to_int8_range.
Qed.

Lemma sample_step_modular w (x : complex) :
  buffer_ok_ w ->
  exists w',
    sample_step_ w x = Some w' /\ buffer_ok_ w'
    /\ if captures w
       then (exists b1 b2, emitted w' = emitted w ++ [b1; b2])
            /\ demod_get_bytes_out w' = (demod_get_bytes_out w + 2) mod 2 ^ 32
       else emitted w' = emitted w
            /\ demod_get_bytes_out w' = demod_get_bytes_out w.
Proof.
  intros Hok. unfold sample_step, captures.
  destruct (at_mid _ _) eqn:Hmid; cbn [negb andb].
  - destruct (agc_apply (agc w) x) as [m agc'].
    eexists. split; [reflexivity|]. by split.
  - destruct (at_symbol _ _) eqn:Hsym.
    + destruct (capture_spec w x Hok)
        as (w' & -> & _ & _ & _ & _ & _ & _ & _ & Hem & Hcnt & Hok').
      eexists. split; [reflexivity|].
      rewrite emitted_tick, bytes_out_tick.
      split; [done|]. split; [eauto|].
      unfold demod_get_bytes_out, to_uint. rewrite Hcnt. unfold to_uint.
      by rewrite Z.mod_mod, Z.add_mod_idemp_l by lia.
    + eexists. split; [reflexivity|]. by split.
Qed.

Lemma run_trace_modular (xs : list complex) :
  forall w,
    buffer_ok_ w ->
    exists ws,
      run_trace_ w xs = Some ws
      /\ length ws = S (length xs)
      /\ (forall i w1 w2,
             ws !! i = Some w1 -> ws !! S i = Some w2 ->
             if captures w1
             then (exists b1 b2, emitted w2 = emitted w1 ++ [b1; b2])
                  /\ demod_get_bytes_out w2
                     = (demod_get_bytes_out w1 + 2) mod 2 ^ 32
             else emitted w2 = emitted w1
                  /\ demod_get_bytes_out w2 = demod_get_bytes_out w1).
Proof.
  induction xs as [|x xs IH]; intros w Hok.
  - exists [w]. split; [done|]. split; [done|].
    intros i w1 w2 _ H2. by destruct i.
  - destruct (sample_step_modular w x Hok) as (w' & Hstep & Hok' & Heff).
    destruct (IH w' Hok') as (ws & Hrun & Hlen & Hstepw).
    exists (w :: ws). cbn [run_trace]. rewrite Hstep. cbn.
    rewrite Hrun. cbn. split; [done|]. split; [by rewrite Hlen|].
    intros [|i] w1 w2 H1 H2.
    + injection H1 as <-. change (ws !! 0%nat = Some w2) in H2.
      rewrite (run_trace_head _ _ _ Hrun) in H2. by injection H2 as <-.
    + exact (Hstepw i w1 w2 H1 H2).
Qed.

(** C7 (as amended): along every run of the worker loop, each round that
    captures a symbol appends exactly two bytes to the output and raises
    the value [demod_get_bytes_out] returns by 2 modulo 2^32, the counter
    being an [unsigned] that wraps; every other round leaves both as they
    are.  As long as the counter does not wrap during the run, the value
    rises by exactly 2 with each symbol, and the values a caller reads at
    two moments of the run never decrease. *)
Theorem bytes_out_two_per_symbol w (xs : list complex) :
  buffer_ok_ w ->
  exists ws,
    run_trace_ w xs = Some ws
    /\ length ws = S (length xs)
    /\ (forall i w1 w2,
           ws !! i = Some w1 -> ws !! S i = Some w2 ->
           if captures w1
           then (exists b1 b2, emitted w2 = emitted w1 ++ [b1; b2])
                /\ demod_get_bytes_out w2
                   = (demod_get_bytes_out w1 + 2) mod 2 ^ 32
           else emitted w2 = emitted w1
                /\ demod_get_bytes_out w2 = demod_get_bytes_out w1)
    /\ (0 <= bytes_out_count w ->
        bytes_out_count w + 2 * Z.of_nat (length xs) <= UINT_MAX ->
        (forall i w1 w2,
            ws !! i = Some w1 -> ws !! S i = Some w2 ->
            captures w1 = true ->
            demod_get_bytes_out w2 = demod_get_bytes_out w1 + 2)
        /\ (forall i j w1 w2,
               (i <= j)%nat -> ws !! i = Some w1 -> ws !! j = Some w2 ->
               demod_get_bytes_out w1 <= demod_get_bytes_out w2)).
Proof.
  intros Hok.
  destruct (run_trace_modular xs w Hok) as (ws & Hrun & Hlen & Hmod).
  exists ws. split; [done|]. split; [done|]. split; [done|].
  intros Hc0 Hc.
  destruct (run_trace_spec xs w Hok Hc0 Hc)
    as (ws' & Hrun' & _ & Hstep & Hlow & Hmono).
  rewrite Hrun in Hrun'. injection Hrun' as <-. split.
  - intros i w1 w2 H1 H2 Hcap.
    specialize (Hstep i w1 w2 H1 H2). unfold step_effect in Hstep.
    rewrite Hcap in Hstep. apply Hstep.
  - intros i j w1 w2 Hij H1 H2. unfold demod_get_bytes_out.
    destruct (Hlow i w1 H1), (Hlow j w2 H2).
    rewrite !to_uint_id by lia. by apply (Hmono i j).
Qed.

End WorkerFacts.

Lemma busy_worker_ok : buffer_ok 8 Examples.busy_worker.
Proof. unfold buffer_ok, INT_MAX. cbn. lia. Defined.

Lemma capture_within_period_witness :
  (buffer_ok 8 Examples.busy_worker /\ captures Examples.busy_worker = true
   /\ valid32 (resync_offset Examples.busy_worker)
   /\ valid32 (resync_period Examples.busy_worker)
   /\ fltb (f_of_Z 0) (resync_period Examples.busy_worker) = true
   /\ exact32 (resync_offset Examples.busy_worker)
      < 2 * exact32 (resync_period Examples.busy_worker))
  /\ exists w',
      sample_step unit unit Examples.pass Examples.pass 8
        Examples.busy_worker (Examples.cx 9) = Some w'
      /\ resync_offset w'
         = fadd (timing_adjust
                   (fsub (resync_offset Examples.busy_worker)
                         (resync_period Examples.busy_worker))
                   (timing_error
                      (Examples.pass (agc Examples.busy_worker)
                                     (Examples.cx 9)).1
                      (before Examples.busy_worker)
                      (mid Examples.busy_worker))
                   (resync_period Examples.busy_worker))
                (f_of_Z 1)
      /\ exact32 (fsub (resync_offset Examples.busy_worker)
                       (resync_period Examples.busy_worker))
         = exact32 (resync_offset Examples.busy_worker)
           - exact32 (resync_period Examples.busy_worker)
      /\ fltb (fsub (resync_offset Examples.busy_worker)
                    (resync_period Examples.busy_worker))
              (resync_period Examples.busy_worker)
         = true.
Proof.
  assert (captures Examples.busy_worker = true) as Hcap
    by (vm_compute; reflexivity).
  assert (valid32 (resync_offset Examples.busy_worker)) as Hvo
    by (split; vm_compute; reflexivity).
  assert (valid32 (resync_period Examples.busy_worker)) as Hvp
    by (split; vm_compute; reflexivity).
  assert (fltb (f_of_Z 0) (resync_period Examples.busy_worker) = true) as Hp
    by (vm_compute; reflexivity).
  assert (exact32 (resync_offset Examples.busy_worker)
          < 2 * exact32 (resync_period Examples.busy_worker)) as Hlt
    by (vm_compute; reflexivity).
  split; [split_and!; [exact busy_worker_ok | done..]|].
  exact (capture_within_period unit unit Examples.pass Examples.pass 8
           Examples.busy_worker (Examples.cx 9)
           busy_worker_ok Hcap Hvo Hvp Hp Hlt).
Defined.

(** The claim of C5 fails on the code: there is no loop around the
    subtraction.  With [resync_offset = 5] beyond twice the period 2, the
    capture leaves [5 − 2 = 3], which is not less than the period, and
    the round ends with [resync_offset = 4].  Such a state is reached
    from the initial one: at a period of half a sample the third sample
    is captured at [resync_offset = 2], and [2 − 0.5] is not less than
    0.5. *)
Lemma capture_offset_counterexample :
  (captures Examples.late_worker = true
   /\ fltb (fmul (Examples.fl 2) (resync_period Examples.late_worker))
          (resync_offset Examples.late_worker) = true
   /\ capture_offset (resync_offset Examples.late_worker)
                     (resync_period Examples.late_worker)
      = Examples.fl 3
   /\ fltb (Examples.fl 3) (resync_period Examples.late_worker) = false
   /\ (resync_offset
         <$> sample_step unit unit Examples.pass Examples.pass 8
               Examples.late_worker c0)
      = Some (Examples.fl 4))
  /\ (ws ← run_trace unit unit Examples.pass Examples.pass 8
             Examples.fast_worker [c0; c0];
      w ← ws !! 2%nat;
      Some (resync_offset w, resync_period w, captures w,
            fltb (capture_offset (resync_offset w) (resync_period w))
                 (resync_period w)))
     = Some (Examples.fl 2, Examples.half, true, false).
Proof. split_and!; vm_compute; reflexivity. Qed.

Lemma symbol_capture_witness :
  (buffer_ok 8 Examples.busy_worker /\ captures Examples.busy_worker = true)
  /\ exists w',
      sample_step unit unit Examples.pass Examples.pass 8
        Examples.busy_worker (mkC (Examples.fl 300) (Examples.fl (-7)))
      = Some w'
      /\ (let c := (Examples.pass (agc Examples.busy_worker)
                      (mkC (Examples.fl 300) (Examples.fl (-7)))).1 in
          let c' := (Examples.pass (cst Examples.busy_worker) c).1 in
          let tau := fmul (fsub (im c) (im (before Examples.busy_worker)))
                          (im (mid Examples.busy_worker)) in
          resync_offset w'
          = fadd (d2f (dadd (f2d (fsub (resync_offset Examples.busy_worker)
                                       (resync_period Examples.busy_worker)))
                            (ddiv (f2d (fmul tau
                                      (resync_period Examples.busy_worker)))
                                  (d_of_Z 2000000))))
                 (f_of_Z 1)
          /\ before w' = c
          /\ cur w' = c'
          /\ agc w' = (Examples.pass (agc Examples.busy_worker)
                         (mkC (Examples.fl 300) (Examples.fl (-7)))).2
          /\ cst w' = (Examples.pass (cst Examples.busy_worker) c).2
          /\ emitted w'
             = emitted Examples.busy_worker
               ++ [to_int8 (clamp (fdiv (re c') (f_of_Z 2)));
                   to_int8 (clamp (fdiv (im c') (f_of_Z 2)))]
          /\ -128 <= to_int8 (clamp (fdiv (re c') (f_of_Z 2))) <= 127
          /\ -128 <= to_int8 (clamp (fdiv (im c') (f_of_Z 2))) <= 127)
      /\ (forall v, clamp v
                    = round_half_away
                        (saturate v (f_of_Z (-127)) (f_of_Z 127))).
Proof.
  assert (captures Examples.busy_worker = true) as Hcap
    by (vm_compute; reflexivity).
  split; [split; [exact busy_worker_ok | exact Hcap]|].
  exact (symbol_capture unit unit Examples.pass Examples.pass 8
           Examples.busy_worker (mkC (Examples.fl 300) (Examples.fl (-7)))
           busy_worker_ok Hcap).
Defined.

(** The symbol of the witness above: 300 − 7i, halved and clamped, is put
    out as the bytes 127 and −4, and the full buffer is written out. *)
Example symbol_capture_bytes :
  (emitted <$> sample_step unit unit Examples.pass Examples.pass 8
                 Examples.busy_worker
                 (mkC (Examples.fl 300) (Examples.fl (-7))))
  = Some ([7; 7; 1; 2; 3; 4; 5; 6] ++ [127; -4]).
Proof. vm_compute. reflexivity. Qed.

Lemma bytes_out_two_per_symbol_witness :
  buffer_ok 8 Examples.busy_worker
  /\ exists ws,
      run_trace unit unit Examples.pass Examples.pass 8
        Examples.busy_worker [Examples.cx 9; Examples.cx 8; Examples.cx 7]
      = Some ws
      /\ length ws = S (length [Examples.cx 9; Examples.cx 8; Examples.cx 7])
      /\ (forall i w1 w2,
             ws !! i = Some w1 -> ws !! S i = Some w2 ->
             if captures w1
             then (exists b1 b2, emitted w2 = emitted w1 ++ [b1; b2])
                  /\ demod_get_bytes_out w2
                     = (demod_get_bytes_out w1 + 2) mod 2 ^ 32
             else emitted w2 = emitted w1
                  /\ demod_get_bytes_out w2 = demod_get_bytes_out w1)
      /\ (0 <= bytes_out_count Examples.busy_worker ->
          bytes_out_count Examples.busy_worker
          + 2 * Z.of_nat (length [Examples.cx 9; Examples.cx 8;
                                  Examples.cx 7])
          <= UINT_MAX ->
          (forall i w1 w2,
              ws !! i = Some w1 -> ws !! S i = Some w2 ->
              captures w1 = true ->
              demod_get_bytes_out w2 = demod_get_bytes_out w1 + 2)
          /\ (forall i j w1 w2,
                 (i <= j)%nat -> ws !! i = Some w1 -> ws !! j = Some w2 ->
                 demod_get_bytes_out w1 <= demod_get_bytes_out w2)).
Proof.
  split; [exact busy_worker_ok|].
  exact (bytes_out_two_per_symbol unit unit Examples.pass Examples.pass 8
           Examples.busy_worker
           [Examples.cx 9; Examples.cx 8; Examples.cx 7]
           busy_worker_ok).
Defined.

(** The claim of C7 fails on the code once the counter wraps: it is an
    [unsigned], and a symbol captured at [bytes_out_count = 4294967294]
    takes the value [demod_get_bytes_out] returns from 4294967294 to 0,
    which is neither 2 more nor as much as before, while two bytes are
    put out as for every symbol. *)
Lemma bytes_out_wrap_counterexample :
  buffer_ok 8 Examples.wrapping_worker
  /\ captures Examples.wrapping_worker = true
  /\ demod_get_bytes_out Examples.wrapping_worker = 4294967294
  /\ (demod_get_bytes_out
        <$> sample_step unit unit Examples.pass Examples.pass 8
              Examples.wrapping_worker (Examples.cx 9))
     = Some 0
  /\ (emitted
        <$> sample_step unit unit Examples.pass Examples.pass 8
              Examples.wrapping_worker (Examples.cx 9))
     = Some (emitted Examples.wrapping_worker ++ [5; 0])
  /\ 0 <> 4294967294 + 2
  /\ ~ 4294967294 <= 0.
Proof.
  split; [unfold buffer_ok, INT_MAX; cbn; lia|].
  split_and!; try (vm_compute; reflexivity); lia.
Qed.

(* ------------------------------------------------------------------ *)
(** ** Rounding to nearest: what [binary_round_aux] computes *)

Lemma iter_pos_nat {A} (f : A -> A) (p : positive) (x : A) :
  @SpecFloat.iter_pos A f p x = Nat.iter (Pos.to_nat p) f x.
Proof.
  revert x. induction p as [p IH|p IH|]; intros x; cbn [SpecFloat.iter_pos].
  - rewrite !IH, Pos2Nat.inj_xI.
    replace (S (2 * Pos.to_nat p)) with (Pos.to_nat p + S (Pos.to_nat p))%nat
      by lia.
    by rewrite Nat.iter_add, Nat.iter_succ_r.
  - rewrite !IH, Pos2Nat.inj_xO.
    replace (2 * Pos.to_nat p)%nat with (Pos.to_nat p + Pos.to_nat p)%nat
      by lia.
    by rewrite Nat.iter_add.
  - done.
Qed.

(** One shift to the right: the mantissa is halved, the bit that falls
    out becomes the round bit, and the sticky bit collects the rest. *)
Lemma shr_1_spec (rec : shr_record) :
  0 <= shr_m rec ->
  shr_m (shr_1 rec) = Z.div2 (shr_m rec)
  /\ shr_r (shr_1 rec) = Z.odd (shr_m rec)
  /\ shr_s (shr_1 rec) = shr_r rec || shr_s rec.
Proof.
  destruct rec as [m r s]. cbn [shr_m shr_r shr_s].
  destruct m as [|[p|p|]|p]; try done; lia.
Qed.

Lemma shr_iter (m : Z) (r0 s0 : bool) (k : nat) :
  0 <= m ->
  exists rho,
    0 <= shr_m (Nat.iter k shr_1 {| shr_m := m; shr_r := r0; shr_s := s0 |})
    /\ m = shr_m (Nat.iter k shr_1
                    {| shr_m := m; shr_r := r0; shr_s := s0 |})
           * 2 ^ Z.of_nat k + rho
    /\ 0 <= rho < 2 ^ Z.of_nat k
    /\ (r0 = false -> s0 = false ->
        shr_place (Nat.iter k shr_1
                     {| shr_m := m; shr_r := r0; shr_s := s0 |}) k rho).
Proof.
  intros Hm. induction k as [|k IH].
  - exists 0. cbn. split; [done|]. split; [lia|]. split; [lia|].
    intros -> ->. done.
  - destruct IH as (rho & Hq & Hval & Hrho & Hplace).
    rewrite Nat.iter_succ.
    set (rec := Nat.iter k shr_1 _) in *.
    destruct (shr_1_spec rec Hq) as (Hm' & Hr' & Hs').
    pose proof (Z.div2_odd (shr_m rec)) as Hodd.
    rewrite Nat2Z.inj_succ, Z.pow_succ_r by lia.
    assert (0 < 2 ^ Z.of_nat k) as Hpow by (apply Z.pow_pos_nonneg; lia).
    exists ((if Z.odd (shr_m rec) then 2 ^ Z.of_nat k else 0) + rho).
    split; [rewrite Hm'; destruct (Z.odd (shr_m rec)); cbn in Hodd; lia|].
    split.
    { rewrite Hm'. destruct (Z.odd (shr_m rec)); cbn in Hodd; nia. }
    split.
    { destruct (Z.odd (shr_m rec)); lia. }
    intros Hr0 Hs0. specialize (Hplace Hr0 Hs0).
    unfold shr_place in *. rewrite Hr', Hs'.
    rewrite Nat2Z.inj_succ, Z.pow_succ_r by lia.
    destruct (Z.odd (shr_m rec)), (shr_r rec), (shr_s rec); cbn; lia.
Qed.

(** The mantissa after rounding is the quotient or the next integer,
    and, when nothing was lost before the shift, the nearer of the two. *)
Lemma round_nearest_even_spec (rec : shr_record) (k : nat) (m rho : Z) :
  m = shr_m rec * 2 ^ Z.of_nat k + rho -> 0 <= rho < 2 ^ Z.of_nat k ->
  let m1 := round_nearest_even (shr_m rec) (loc_of_shr_record rec) in
  (m1 = shr_m rec \/ m1 = shr_m rec + 1)
  /\ (shr_place rec k rho ->
      2 * Z.abs (m1 * 2 ^ Z.of_nat k - m) <= 2 ^ Z.of_nat k).
Proof.
  intros Hval Hrho m1. subst m1. unfold shr_place.
  destruct rec as [q r s]. cbn [shr_m shr_r shr_s loc_of_shr_record].
  cbn [shr_m] in Hval.
  destruct r, s; cbn [round_nearest_even].
  - split; [by right|]. intros Hp. nia.
  - split; [destruct (Z.even q); [by left | by right]|].
    intros Hp. destruct (Z.even q); nia.
  - split; [by left|]. intros Hp. nia.
  - split; [by left|]. intros Hp. nia.
Qed.

Lemma digits_unique (p : positive) (k : Z) :
  2 ^ (k - 1) <= Z.pos p < 2 ^ k -> Z.pos (digits2_pos p) = k.
Proof.
  intros [Hlo Hhi]. pose proof (digits2_pos_bounds p) as [Hl Hh].
  assert (0 < k).
  { destruct (Z.lt_ge_cases 0 k); [done|].
    destruct (Z.eq_dec k 0) as [->|]; [cbn in Hhi; lia|].
    rewrite Z.pow_neg_r in Hhi by lia. lia. }
  destruct (Z.lt_trichotomy (Z.pos (digits2_pos p)) k) as [Hlt|[Heq|Hgt]];
    [|done|].
  - assert (2 ^ Z.pos (digits2_pos p) <= 2 ^ (k - 1))
      by (apply Z.pow_le_mono_r; lia).
    lia.
  - assert (2 ^ k <= 2 ^ (Z.pos (digits2_pos p) - 1))
      by (apply Z.pow_le_mono_r; lia).
    lia.
Qed.

Section Rounding.
Variables prec emax : Z.
Hypothesis Hprec : 0 < prec.

Lemma fexp_normal (k : Z) :
  3 - emax - prec <= k - prec -> fexp prec emax k = k - prec.
Proof. unfold fexp, emin. lia. Qed.

Lemma pow2_split (a b : Z) : 0 <= a -> 0 <= b -> 2 ^ (a + b) = 2 ^ a * 2 ^ b.
Proof. intros. by rewrite Z.pow_add_r. Qed.

(** The second pass of [binary_round_aux]: a mantissa of [prec] digits is
    in place; the one of [prec + 1] digits that rounding up can leave,
    [2^prec], is halved. *)
Lemma second_shr (s : bool) (m1 e1 : Z) :
  2 ^ (prec - 1) <= m1 <= 2 ^ prec ->
  3 - emax - prec <= e1 -> e1 + 1 <= emax - prec ->
  exists m' e',
    (let '(mrs'', e'') := shr_fexp prec emax m1 e1 loc_Exact in
     match shr_m mrs'' with
     | 0 => S754_zero s
     | Z.pos m => if e'' <=? emax - prec then S754_finite s m e''
                  else S754_infinity s
     | Z.neg _ => S754_nan
     end) = S754_finite s m' e'
    /\ bounded prec emax m' e' = true
    /\ Z.pos (digits2_pos m') = prec
    /\ (e' = e1 \/ e' = e1 + 1)
    /\ Z.pos m' * 2 ^ (e' - e1) = m1.
Proof.
  intros [Hlo Hhi] He1 Hmax.
  assert (0 < 2 ^ (prec - 1)) as Hpos by (apply Z.pow_pos_nonneg; lia).
  assert (2 ^ prec = 2 * 2 ^ (prec - 1)) as Hdbl.
  { rewrite <- Z.pow_succ_r by lia. f_equal. lia. }
  destruct m1 as [|p|p]; try lia.
  destruct (Z.eq_dec (Z.pos p) (2 ^ prec)) as [Heq|Hne].
  - (* the mantissa [2^prec] *)
    assert (Z.pos (digits2_pos p) = prec + 1) as Hd.
    { apply digits_unique. replace (prec + 1 - 1) with prec by lia.
      replace (prec + 1) with (Z.succ prec) by lia.
      rewrite Z.pow_succ_r by lia. lia. }
    unfold shr_fexp. cbn [Zdigits2 shr_record_of_loc]. rewrite Hd.
    rewrite fexp_normal by lia.
    replace (prec + 1 + e1 - prec - e1) with 1 by lia.
    cbn [shr SpecFloat.iter_pos].
    destruct (shr_1_spec {| shr_m := Z.pos p; shr_r := false; shr_s := false |})
      as (Hm' & _); [done|].
    cbn [shr_m] in Hm'.
    assert (Z.div2 (Z.pos p) = 2 ^ (prec - 1)) as Hhalf.
    { rewrite Heq, Hdbl, Z.div2_div, Z.mul_comm, Z.div_mul by lia. done. }
    rewrite Hm', Hhalf.
    destruct (2 ^ (prec - 1)) as [|p'|p'] eqn:Hp'; try lia.
    assert (Z.pos (digits2_pos p') = prec) as Hd'.
    { apply digits_unique. lia. }
    exists p', (e1 + 1).
    replace (e1 + 1 <=? emax - prec) with true
      by (symmetry; apply Z.leb_le; lia).
    split; [done|]. split.
    { unfold bounded, canonical_mantissa. rewrite Hd'.
      rewrite fexp_normal by lia.
      apply andb_true_iff. split; [apply Z.eqb_eq; lia | apply Z.leb_le; lia]. }
    split; [done|]. split; [by right|].
    replace (e1 + 1 - e1) with 1 by lia. change (2 ^ 1) with 2. lia.
  - (* a mantissa of [prec] digits *)
    assert (Z.pos (digits2_pos p) = prec) as Hd.
    { apply digits_unique. lia. }
    unfold shr_fexp. cbn [Zdigits2 shr_record_of_loc]. rewrite Hd.
    rewrite fexp_normal by lia.
    replace (prec + e1 - prec - e1) with 0 by lia.
    cbn [shr shr_m].
    exists p, e1.
    replace (e1 <=? emax - prec) with true
      by (symmetry; apply Z.leb_le; lia).
    split; [done|]. split.
    { unfold bounded, canonical_mantissa. rewrite Hd.
      rewrite fexp_normal by lia.
      apply andb_true_iff. split; [apply Z.eqb_eq; lia | apply Z.leb_le; lia]. }
    split; [done|]. split; [by left|].
    rewrite Z.sub_diag. cbn. lia.
Qed.

(** From the shifted mantissa to the result. *)
Lemma round_tail (s : bool) (m : positive) (e : Z) (exact : bool)
    (rec1 : shr_record) (k : nat) (rho : Z) :
  let d := Z.pos (digits2_pos m) in
  Z.of_nat k = d - prec ->
  3 - emax - prec <= d + e - prec -> d + e - prec + 1 <= emax - prec ->
  0 <= shr_m rec1 ->
  Z.pos m = shr_m rec1 * 2 ^ Z.of_nat k + rho ->
  0 <= rho < 2 ^ Z.of_nat k ->
  (exact = true -> shr_place rec1 k rho) ->
  exists m' e',
    (let '(mrs'', e'') :=
       shr_fexp prec emax
         (round_nearest_even (shr_m rec1) (loc_of_shr_record rec1))
         (e + Z.of_nat k) loc_Exact in
     match shr_m mrs'' with
     | 0 => S754_zero s
     | Z.pos m => if e'' <=? emax - prec then S754_finite s m e''
                  else S754_infinity s
     | Z.neg _ => S754_nan
     end) = S754_finite s m' e'
    /\ bounded prec emax m' e' = true
    /\ Z.pos (digits2_pos m') = prec
    /\ d + e - prec <= e' <= d + e - prec + 1
    /\ Z.abs (Z.pos m' * 2 ^ (e' - e) - Z.pos m) <= 2 ^ (d - prec)
    /\ (exact = true ->
        2 * Z.abs (Z.pos m' * 2 ^ (e' - e) - Z.pos m) <= 2 ^ (d - prec)).
Proof.
  intros d Hk Hnorm Hmax Hq Hval Hrho Hplace.
  pose proof (digits2_pos_bounds m) as [Hdl Hdh]. fold d in Hdl, Hdh.
  assert (0 < 2 ^ Z.of_nat k) as Hpk by (apply Z.pow_pos_nonneg; lia).
  assert (0 < 2 ^ (prec - 1)) as Hpp by (apply Z.pow_pos_nonneg; lia).
  assert (2 ^ (d - 1) = 2 ^ (prec - 1) * 2 ^ Z.of_nat k) as Hd1.
  { rewrite <- pow2_split by lia. f_equal. lia. }
  assert (2 ^ d = 2 ^ prec * 2 ^ Z.of_nat k) as Hd2.
  { rewrite <- pow2_split by lia. f_equal. lia. }
  assert (2 ^ prec = 2 * 2 ^ (prec - 1)) as Hdbl.
  { rewrite <- Z.pow_succ_r by lia. f_equal. lia. }
  destruct (round_nearest_even_spec rec1 k (Z.pos m) rho Hval Hrho)
    as [Hm1 Hnear].
  set (m1 := round_nearest_even (shr_m rec1) (loc_of_shr_record rec1)) in *.
  assert (2 ^ (prec - 1) <= shr_m rec1 < 2 ^ prec) as Hqr by nia.
  destruct (second_shr s m1 (e + Z.of_nat k)) as (m' & e' & -> & Hb & Hd' & He' & Hv);
    [lia | lia | lia |].
  exists m', e'. split; [done|]. split; [done|]. split; [done|].
  split; [lia|].
  assert (Z.pos m' * 2 ^ (e' - e) = m1 * 2 ^ Z.of_nat k) as Hscale.
  { replace (e' - e) with ((e' - (e + Z.of_nat k)) + Z.of_nat k) by lia.
    rewrite pow2_split by lia. rewrite Z.mul_assoc, Hv. done. }
  rewrite Hscale, <- Hk. split.
  - destruct Hm1 as [-> | ->]; nia.
  - intros Hex. apply Hnear. by apply Hplace.
Qed.

(** [binary_round_aux] on a mantissa of [prec] digits or more, in the
    range of the normal numbers: the result is a number of the format,
    one unit of its last place from the input at most, and the nearest
    one when the input was exact. *)
Lemma binary_round_aux_correct (s : bool) (m : positive) (e : Z)
    (l : location) :
  let d := Z.pos (digits2_pos m) in
  prec <= d ->
  3 - emax - prec <= d + e - prec -> d + e - prec + 1 <= emax - prec ->
  exists m' e',
    binary_round_aux prec emax s (Z.pos m) e l = S754_finite s m' e'
    /\ bounded prec emax m' e' = true
    /\ Z.pos (digits2_pos m') = prec
    /\ d + e - prec <= e' <= d + e - prec + 1
    /\ Z.abs (Z.pos m' * 2 ^ (e' - e) - Z.pos m) <= 2 ^ (d - prec)
    /\ (l = loc_Exact ->
        2 * Z.abs (Z.pos m' * 2 ^ (e' - e) - Z.pos m) <= 2 ^ (d - prec)).
Proof.
  intros d Hd Hnorm Hmax.
  unfold binary_round_aux, shr_fexp at 1. cbn [Zdigits2]. fold d.
  rewrite fexp_normal by lia.
  replace (d + e - prec - e) with (d - prec) by lia.
  assert (exists r0 s0,
            shr_record_of_loc (Z.pos m) l
            = {| shr_m := Z.pos m; shr_r := r0; shr_s := s0 |}
            /\ (l = loc_Exact -> r0 = false /\ s0 = false)) as (r0 & s0 & -> & Hl).
  { destruct l as [|[]]; cbn; eexists _, _; split; try done; intros ?; done. }
  set (k := Z.to_nat (d - prec)).
  destruct (shr_iter (Z.pos m) r0 s0 k) as (rho & Hq & Hval & Hrho & Hplace);
    [lia|].
  set (rec1 := Nat.iter k shr_1 _) in *.
  assert (shr {| shr_m := Z.pos m; shr_r := r0; shr_s := s0 |} e (d - prec)
          = (rec1, e + Z.of_nat k)) as ->.
  { unfold shr, rec1, k. destruct (d - prec) as [|p|p] eqn:Hn; try lia.
    - cbn. f_equal. lia.
    - rewrite iter_pos_nat. f_equal. rewrite Z2Nat.id by lia. done. }
  destruct (round_tail s m e (match l with loc_Exact => true | _ => false end)
              rec1 k rho) as (m' & e' & Hres & Hb & Hd' & He' & Hc & Hn);
    try done; try (unfold k; lia).
  { intros Hex. destruct l; [|done]. destruct Hl as [-> ->]; [done|].
    by apply Hplace. }
  exists m', e'. split; [exact Hres|]. split_and!; try done; try lia.
  intros ->. by apply Hn.
Qed.

(** A mantissa already in place is left as it is. *)
Lemma binary_round_aux_exact (s : bool) (m : positive) (e : Z) :
  fexp prec emax (Z.pos (digits2_pos m) + e) = e -> e <= emax - prec ->
  binary_round_aux prec emax s (Z.pos m) e loc_Exact = S754_finite s m e.
Proof.
  intros Hc He. unfold binary_round_aux, shr_fexp.
  cbn [Zdigits2 shr_record_of_loc].
  rewrite Hc, Z.sub_diag.
  cbn [shr shr_m loc_of_shr_record round_nearest_even Zdigits2
       shr_record_of_loc].
  rewrite Hc, Z.sub_diag. cbn [shr shr_m].
  replace (e <=? emax - prec) with true; [done|].
  symmetry. apply Z.leb_le. lia.
Qed.

(** [binary_round] in the range of the normal numbers: a mantissa of
    fewer than [prec] digits is shifted to the left and kept, a longer
    one is rounded to the nearest number of the format. *)
Lemma binary_round_correct (s : bool) (m : positive) (e : Z) :
  let d := Z.pos (digits2_pos m) in
  3 - emax - prec <= d + e - prec -> d + e - prec + 1 <= emax - prec ->
  exists m' e',
    binary_round prec emax s m e = S754_finite s m' e'
    /\ bounded prec emax m' e' = true
    /\ Z.pos (digits2_pos m') = prec
    /\ d + e - prec <= e' <= d + e - prec + 1
    /\ ((d <= prec /\ e' <= e /\ Z.pos m' = Z.pos m * 2 ^ (e - e'))
        \/ (prec <= d /\ e <= e'
            /\ 2 * Z.abs (Z.pos m' * 2 ^ (e' - e) - Z.pos m)
               <= 2 ^ (d - prec))).
Proof.
  intros d Hnorm Hmax. unfold binary_round. fold d.
  rewrite fexp_normal by lia. unfold shl_align.
  destruct (d + e - prec - e) as [|k|k] eqn:Hk.
  - destruct (binary_round_aux_correct s m e loc_Exact)
      as (m' & e' & -> & Hb & Hd & He & _ & Hn); [fold d; lia..|].
    fold d in He, Hn.
    exists m', e'. split; [done|]. split; [done|]. split; [done|].
    split; [lia|]. right. split; [lia|]. split; [lia|]. by apply Hn.
  - destruct (binary_round_aux_correct s m e loc_Exact)
      as (m' & e' & -> & Hb & Hd & He & _ & Hn); [fold d; lia..|].
    fold d in He, Hn.
    exists m', e'. split; [done|]. split; [done|]. split; [done|].
    split; [lia|]. right. split; [lia|]. split; [lia|]. by apply Hn.
  - assert (Z.pos (digits2_pos (Pos.iter xO m k)) = prec) as Hd
      by (rewrite iter_xO_digits; fold d; lia).
    rewrite binary_round_aux_exact.
    + exists (Pos.iter xO m k), (d + e - prec).
      split; [done|]. split.
      { unfold bounded, canonical_mantissa. rewrite Hd.
        rewrite fexp_normal by lia.
        apply andb_true_iff.
        split; [apply Z.eqb_eq; lia | apply Z.leb_le; lia]. }
      split; [done|]. split; [lia|]. left. split; [lia|]. split; [lia|].
      rewrite iter_xO_value. do 2 f_equal. lia.
    + rewrite Hd. rewrite fexp_normal by lia. lia.
    + lia.
Qed.

End Rounding.

(* ------------------------------------------------------------------ *)
(** ** [float]s that hold integers: their sums and products are exact *)

Lemma pow2_lt_inv (a b : Z) : 0 <= b -> 2 ^ a < 2 ^ b -> a < b.
Proof. intros Hb H. apply (Z.pow_lt_mono_r_iff 2); [lia | done | done]. Qed.

Lemma pow2_le_inv (a b : Z) : 0 <= b -> 2 ^ a <= 2 ^ b -> a <= b.
Proof. intros Hb H. apply (Z.pow_le_mono_r_iff 2); [lia | done | done]. Qed.

(** A number on a grid that is within half a step of another number of
    the grid is that number. *)
Lemma nearest_on_grid (a b n : Z) :
  0 <= n -> 2 * Z.abs (a * 2 ^ n - b * 2 ^ n) <= 2 ^ n -> a = b.
Proof.
  intros Hn H. assert (0 < 2 ^ n) by (apply Z.pow_pos_nonneg; lia). nia.
Qed.

(** The digits of a mantissa whose value is an integer below 2^24. *)
Lemma int_digits (p : positive) (e V : Z) :
  0 < V < 2 ^ 24 -> -149 <= e ->
  Z.pos p * 2 ^ (e + 149) = V * 2 ^ 149 ->
  1 <= Z.pos (digits2_pos p) + e <= 24.
Proof.
  intros HV He Hval. pose proof (digits2_pos_bounds p) as [Hl Hh].
  set (d := Z.pos (digits2_pos p)) in *.
  assert (0 < 2 ^ (e + 149)) as Hpe by (apply Z.pow_pos_nonneg; lia).
  assert (0 < 2 ^ 149) as Hp149 by (apply Z.pow_pos_nonneg; lia).
  split.
  - assert (2 ^ 149 < 2 ^ (d + (e + 149))) as H.
    { rewrite pow2_split by lia. nia. }
    apply pow2_lt_inv in H; lia.
  - assert (2 ^ ((d - 1) + (e + 149)) < 2 ^ (24 + 149)) as H.
    { rewrite !pow2_split by lia. nia. }
    apply pow2_lt_inv in H; lia.
Qed.

(** Rounding a mantissa whose value is an integer below 2^24 gives the
    [float] of that integer. *)
Lemma round_exact_int (p m' : positive) (e e' V : Z) :
  0 < V < 2 ^ 24 -> -149 <= e ->
  Z.pos p * 2 ^ (e + 149) = V * 2 ^ 149 ->
  24 <= Z.pos (digits2_pos p) -> e <= e' ->
  Z.pos (digits2_pos p) + e - 24 <= e' ->
  2 * Z.abs (Z.pos m' * 2 ^ (e' - e) - Z.pos p)
  <= 2 ^ (Z.pos (digits2_pos p) - 24) ->
  Z.pos m' * 2 ^ (e' + 149) = V * 2 ^ 149.
Proof.
  intros HV He Hval Hd Hee He' Hnear.
  pose proof (int_digits p e V HV He Hval) as Hde.
  set (d := Z.pos (digits2_pos p)) in *.
  assert (0 < 2 ^ (e + 149)) as Hpe by (apply Z.pow_pos_nonneg; lia).
  assert (Z.pos p = V * 2 ^ (- e)) as Hp.
  { apply (Z.mul_reg_r _ _ (2 ^ (e + 149))); [lia|].
    rewrite Hval, <- Z.mul_assoc, <- pow2_split by lia.
    do 2 f_equal. lia. }
  assert (Z.pos m' * 2 ^ (e' - e) = Z.pos p) as Hm.
  { rewrite Hp.
    replace (e' - e) with ((e' - e - (d - 24)) + (d - 24)) in * by lia.
    replace (- e) with ((- e - (d - 24)) + (d - 24)) in * by lia.
    rewrite !pow2_split in * by lia. rewrite !Z.mul_assoc in *.
    f_equal. apply (nearest_on_grid _ _ (d - 24)); [lia|].
    rewrite Hp in Hnear. exact Hnear. }
  rewrite <- Hval, <- Hm, <- Z.mul_assoc, <- pow2_split by lia.
  do 2 f_equal. lia.
Qed.

Lemma binary_round_int (s : bool) (p : positive) (e V : Z) :
  0 < V < 2 ^ 24 -> -149 <= e ->
  Z.pos p * 2 ^ (e + 149) = V * 2 ^ 149 ->
  exists m' e',
    binary_round 24 128 s p e = S754_finite s m' e'
    /\ bounded 24 128 m' e' = true
    /\ Z.pos m' * 2 ^ (e' + 149) = V * 2 ^ 149.
Proof.
  intros HV He Hval.
  pose proof (int_digits p e V HV He Hval) as Hde.
  destruct (binary_round_correct 24 128 ltac:(lia) s p e)
    as (m' & e' & -> & Hb & Hd' & He' & Hcase); [lia | lia |].
  exists m', e'. split; [done|]. split; [done|].
  destruct Hcase as [(Hd & Hee & Hm) | (Hd & Hee & Hnear)].
  - rewrite Hm, <- Hval, <- Z.mul_assoc, <- pow2_split by lia.
    do 2 f_equal. lia.
  - apply (round_exact_int p m' e e' V); try done; lia.
Qed.

Lemma binary_round_aux_int (s : bool) (p : positive) (e V : Z) :
  0 < V < 2 ^ 24 -> -149 <= e ->
  Z.pos p * 2 ^ (e + 149) = V * 2 ^ 149 ->
  24 <= Z.pos (digits2_pos p) ->
  exists m' e',
    binary_round_aux 24 128 s (Z.pos p) e loc_Exact = S754_finite s m' e'
    /\ bounded 24 128 m' e' = true
    /\ Z.pos m' * 2 ^ (e' + 149) = V * 2 ^ 149.
Proof.
  intros HV He Hval Hd.
  pose proof (int_digits p e V HV He Hval) as Hde.
  destruct (binary_round_aux_correct 24 128 ltac:(lia) s p e loc_Exact)
    as (m' & e' & -> & Hb & Hd' & He' & _ & Hnear); [lia | lia | lia |].
  exists m', e'. split; [done|]. split; [done|].
  apply (round_exact_int p m' e e' V); try done; try lia.
  by apply Hnear.
Qed.

(** *** The relation [holds] *)

Lemma holds_zero (s : bool) : holds 0 (S754_zero s).
Proof. by repeat split. Qed.

Lemma holds_zero_inv (z : Z) (s : bool) : holds z (S754_zero s) -> z = 0.
Proof. intros [_ H]. cbn in H. lia. Qed.

Lemma holds_finite_inv (z : Z) (s : bool) (m : positive) (e : Z) :
  holds z (S754_finite s m e) ->
  bounded 24 128 m e = true /\ -149 <= e
  /\ z = (if s then -1 else 1) * Z.abs z /\ 0 < Z.abs z
  /\ Z.pos m * 2 ^ (e + 149) = Z.abs z * 2 ^ 149.
Proof.
  intros [[Hv _] Hval]. cbn in Hv, Hval.
  destruct (bounded_canonical _ _ Hv) as (_ & _ & He & _).
  assert (0 < 2 ^ (e + 149)) by (apply Z.pow_pos_nonneg; lia).
  split; [done|]. split; [done|]. destruct s; nia.
Qed.

Lemma holds_finite (z : Z) (s : bool) (m : positive) (e : Z) :
  bounded 24 128 m e = true ->
  (if s then -1 else 1) * (Z.pos m * 2 ^ (e + 149)) = z * 2 ^ 149 ->
  holds z (S754_finite s m e).
Proof.
  intros Hb Hv. split; [by split|]. cbn. rewrite <- Hv. destruct s; lia.
Qed.

Lemma holds_opp (z : Z) (x : float) : holds z x -> holds (- z) (SFopp x).
Proof.
  intros [[Hv Hf] Hval]. destruct x as [s|s| |s m e]; try done.
  - cbn in Hval. assert (z = 0) as -> by lia. apply holds_zero.
  - split; [by split|]. cbn in *. destruct s; cbn; lia.
Qed.

Lemma shl_align_fst (mx : positive) (ex ez : Z) :
  ez <= ex ->
  Z.pos (fst (shl_align mx ex ez)) = Z.pos mx * 2 ^ (ex - ez).
Proof.
  intros He. unfold shl_align.
  destruct (ez - ex) as [|k|k] eqn:Hk; try lia.
  - replace (ex - ez) with 0 by lia. cbn. lia.
  - cbn [fst]. rewrite iter_xO_value. do 2 f_equal. lia.
Qed.

(** The sum of the aligned mantissas is the sum of the values. *)
Lemma aligned_sum (sx sy : bool) (mx my : positive) (ex ey : Z) :
  -149 <= ex -> -149 <= ey ->
  (cond_Zopp sx (Z.pos (fst (shl_align mx ex (Z.min ex ey))))
   + cond_Zopp sy (Z.pos (fst (shl_align my ey (Z.min ex ey)))))
  * 2 ^ (Z.min ex ey + 149)
  = exact32 (S754_finite sx mx ex) + exact32 (S754_finite sy my ey).
Proof.
  intros Hx Hy. rewrite !shl_align_fst by lia. cbn [exact32].
  replace (ex + 149) with ((ex - Z.min ex ey) + (Z.min ex ey + 149)) by lia.
  replace (ey + 149) with ((ey - Z.min ex ey) + (Z.min ex ey + 149)) by lia.
  rewrite (pow2_split (ex - Z.min ex ey)), (pow2_split (ey - Z.min ex ey))
    by lia.
  destruct sx, sy; cbn [cond_Zopp]; ring.
Qed.

Lemma holds_normalize (S e z : Z) :
  Z.abs z < 2 ^ 24 -> -149 <= e ->
  S * 2 ^ (e + 149) = z * 2 ^ 149 ->
  holds z (binary_normalize 24 128 S e false).
Proof.
  intros Hz He Hval.
  assert (0 < 2 ^ (e + 149)) by (apply Z.pow_pos_nonneg; lia).
  destruct S as [|p|p]; cbn [binary_normalize].
  - assert (z = 0) as -> by lia. apply holds_zero.
  - destruct (binary_round_int false p e z) as (m' & e' & -> & Hb & Hv);
      [lia | done | done |].
    apply holds_finite; [done|]. lia.
  - destruct (binary_round_int true p e (- z)) as (m' & e' & -> & Hb & Hv);
      [lia | done | lia |].
    apply holds_finite; [done|]. lia.
Qed.

Lemma holds_add (u z : Z) (x y : float) :
  holds u x -> holds z y -> Z.abs (u + z) < 2 ^ 24 ->
  holds (u + z) (fadd x y).
Proof.
  intros Hx Hy Hsum. pose proof Hx as [[_ Hfx] Hvx].
  pose proof Hy as [[_ Hfy] Hvy].
  destruct x as [sx|sx| |sx mx ex], y as [sy|sy| |sy my ey]; try done.
  - apply holds_zero_inv in Hx, Hy. subst.
    destruct sx, sy; apply holds_zero.
  - apply holds_zero_inv in Hx. subst. exact Hy.
  - apply holds_zero_inv in Hy. subst. by rewrite Z.add_0_r.
  - destruct (holds_finite_inv _ _ _ _ Hx) as (_ & Hex & _).
    destruct (holds_finite_inv _ _ _ _ Hy) as (_ & Hey & _).
    unfold fadd, SFadd. apply holds_normalize; [done | lia |].
    rewrite aligned_sum, Hvx, Hvy by done. ring.
Qed.

Lemma fsub_fadd (x y : float) : fsub x y = fadd x (SFopp y).
Proof.
  destruct x as [[]|[]| |[] ? ?], y as [[]|[]| |[] ? ?]; reflexivity.
Qed.

Lemma holds_sub (u z : Z) (x y : float) :
  holds u x -> holds z y -> Z.abs (u - z) < 2 ^ 24 ->
  holds (u - z) (fsub x y).
Proof.
  intros Hx Hy Hd. rewrite fsub_fadd.
  replace (u - z) with (u + - z) in * by lia.
  apply holds_add; [done | by apply holds_opp | done].
Qed.

Lemma digits_lower (p : positive) (k : Z) :
  2 ^ (k - 1) <= Z.pos p -> k <= Z.pos (digits2_pos p).
Proof.
  intros Hp. pose proof (digits2_pos_bounds p) as [_ Hh].
  destruct (Z.le_gt_cases k (Z.pos (digits2_pos p))) as [|Hgt]; [done|].
  assert (2 ^ Z.pos (digits2_pos p) <= 2 ^ (k - 1))
    by (apply Z.pow_le_mono_r; lia).
  lia.
Qed.

(** A [float] that holds an integer other than 0 is a normal number. *)
Lemma holds_normal (z : Z) (s : bool) (m : positive) (e : Z) :
  holds z (S754_finite s m e) ->
  Z.pos (digits2_pos m) = 24 /\ -23 <= e.
Proof.
  intros Hx. destruct (holds_finite_inv _ _ _ _ Hx) as (Hb & He & _ & Hz & Hv).
  destruct (bounded_canonical _ _ Hb) as (_ & _ & _ & Hd & Hn).
  pose proof (digits2_pos_bounds m) as [_ Hh].
  assert (0 < 2 ^ (e + 149)) by (apply Z.pow_pos_nonneg; lia).
  assert (2 ^ 149 < 2 ^ (24 + (e + 149))) as Hlt.
  { rewrite pow2_split by lia.
    assert (2 ^ Z.pos (digits2_pos m) <= 2 ^ 24)
      by (apply Z.pow_le_mono_r; lia).
    nia. }
  apply pow2_lt_inv in Hlt; [|lia]. split; [apply Hn|]; lia.
Qed.

Lemma holds_mul (u z : Z) (x y : float) :
  holds u x -> holds z y -> Z.abs (u * z) < 2 ^ 24 ->
  holds (u * z) (fmul x y).
Proof.
  intros Hx Hy Hprod. pose proof Hx as [[_ Hfx] Hvx].
  pose proof Hy as [[_ Hfy] Hvy].
  destruct x as [sx|sx| |sx mx ex], y as [sy|sy| |sy my ey]; try done.
  - apply holds_zero_inv in Hx. subst. apply holds_zero.
  - apply holds_zero_inv in Hx. subst. apply holds_zero.
  - apply holds_zero_inv in Hy. subst. rewrite Z.mul_0_r. apply holds_zero.
  - destruct (holds_finite_inv _ _ _ _ Hx) as (_ & _ & Hsu & Hu & Hmx).
    destruct (holds_finite_inv _ _ _ _ Hy) as (_ & _ & Hsz & Hz & Hmy).
    destruct (holds_normal _ _ _ _ Hx) as [Hdx Hex].
    destruct (holds_normal _ _ _ _ Hy) as [Hdy Hey].
    pose proof (digits2_pos_bounds mx) as [Hlx _].
    pose proof (digits2_pos_bounds my) as [Hly _].
    rewrite Hdx in Hlx. rewrite Hdy in Hly.
    assert (0 < 2 ^ (ex + 149)) by (apply Z.pow_pos_nonneg; lia).
    assert (0 < 2 ^ (ey + 149)) by (apply Z.pow_pos_nonneg; lia).
    assert (Z.pos (mx * my) * 2 ^ (ex + ey + 149)
            = (Z.abs u * Z.abs z) * 2 ^ 149) as Hval.
    { apply (Z.mul_reg_r _ _ (2 ^ 149)); [lia|].
      rewrite Pos2Z.inj_mul, <- Z.mul_assoc, <- pow2_split by lia.
      replace (ex + ey + 149 + 149) with ((ex + 149) + (ey + 149)) by lia.
      rewrite pow2_split by lia.
      transitivity ((Z.pos mx * 2 ^ (ex + 149)) * (Z.pos my * 2 ^ (ey + 149)));
        [ring|].
      rewrite Hmx, Hmy. ring. }
    unfold fmul, SFmul.
    destruct (binary_round_aux_int (xorb sx sy) (mx * my) (ex + ey)
                (Z.abs u * Z.abs z))
      as (m' & e' & -> & Hb & Hv).
    + rewrite <- Z.abs_mul. lia.
    + lia.
    + done.
    + apply digits_lower. rewrite Pos2Z.inj_mul.
      change (2 ^ (24 - 1)) with 8388608 in *. nia.
    + apply holds_finite; [done|]. rewrite Hv.
      rewrite Hsu, Hsz at 2. destruct sx, sy; cbn [xorb]; ring.
Qed.

Lemma holds_f_of_Z (z : Z) : Z.abs z < 2 ^ 24 -> holds z (f_of_Z z).
Proof.
  intros Hz. unfold f_of_Z. apply holds_normalize; [done | lia | done].
Qed.

(* ------------------------------------------------------------------ *)
(** ** Linearity of the [float] filter when no operation rounds *)

(** A value has one canonical mantissa and exponent. *)
Lemma canonical_unique (m1 m2 : positive) (e1 e2 : Z) :
  bounded 24 128 m1 e1 = true -> bounded 24 128 m2 e2 = true ->
  Z.pos m1 * 2 ^ (e1 + 149) = Z.pos m2 * 2 ^ (e2 + 149) ->
  m1 = m2 /\ e1 = e2.
Proof.
  intros H1 H2 Hv.
  destruct (bounded_canonical _ _ H1) as (Hf1 & _ & He1 & _).
  destruct (bounded_canonical _ _ H2) as (Hf2 & _ & He2 & _).
  pose proof (digits2_pos_bounds m1) as [Hl1 Hh1].
  pose proof (digits2_pos_bounds m2) as [Hl2 Hh2].
  pose proof (Pos2Z.is_pos (digits2_pos m1)) as Hd1.
  pose proof (Pos2Z.is_pos (digits2_pos m2)) as Hd2.
  set (d1 := Z.pos (digits2_pos m1)) in *.
  set (d2 := Z.pos (digits2_pos m2)) in *.
  assert (0 < 2 ^ (e1 + 149)) by (apply Z.pow_pos_nonneg; lia).
  assert (0 < 2 ^ (e2 + 149)) by (apply Z.pow_pos_nonneg; lia).
  assert (d1 + e1 = d2 + e2) as Hk.
  { destruct (Z.lt_trichotomy (d1 + e1) (d2 + e2)) as [Hlt|[|Hgt]]; [|done|].
    - assert (2 ^ d1 * 2 ^ (e1 + 149) <= 2 ^ (d2 - 1) * 2 ^ (e2 + 149)).
      { rewrite <- !pow2_split by lia. apply Z.pow_le_mono_r; lia. }
      nia.
    - assert (2 ^ d2 * 2 ^ (e2 + 149) <= 2 ^ (d1 - 1) * 2 ^ (e1 + 149)).
      { rewrite <- !pow2_split by lia. apply Z.pow_le_mono_r; lia. }
      nia. }
  assert (e1 = e2) as -> by congruence.
  split; [|done]. assert (Z.pos m1 = Z.pos m2) as [= ] by nia. done.
Qed.

Lemma SFeqb_refl_finite (s : bool) (m : positive) (e : Z) :
  SFeqb (S754_finite s m e) (S754_finite s m e) = true.
Proof.
  unfold SFeqb, SFcompare.
  destruct s; rewrite Z.compare_refl;
    change (Pos.compare_cont Eq m m) with (Pos.compare m m);
    by rewrite Pos.compare_refl.
Qed.

(** Two [float]s of one value compare equal. *)
Lemma feq_same_value (x y : float) :
  valid32 x -> valid32 y -> exact32 x = exact32 y -> feq x y = true.
Proof.
  intros [Hvx Hfx] [Hvy Hfy] Hv. unfold feq.
  destruct x as [sx|sx| |sx mx ex], y as [sy|sy| |sy my ey]; try done.
  - cbn in Hvy, Hv. destruct (bounded_canonical _ _ Hvy) as (_ & _ & He & _).
    assert (0 < 2 ^ (ey + 149)) by (apply Z.pow_pos_nonneg; lia).
    destruct sy; nia.
  - cbn in Hvx, Hv. destruct (bounded_canonical _ _ Hvx) as (_ & _ & He & _).
    assert (0 < 2 ^ (ex + 149)) by (apply Z.pow_pos_nonneg; lia).
    destruct sx; nia.
  - cbn in Hvx, Hvy, Hv.
    destruct (bounded_canonical _ _ Hvx) as (_ & _ & Hex & _).
    destruct (bounded_canonical _ _ Hvy) as (_ & _ & Hey & _).
    assert (0 < 2 ^ (ex + 149)) by (apply Z.pow_pos_nonneg; lia).
    assert (0 < 2 ^ (ey + 149)) by (apply Z.pow_pos_nonneg; lia).
    assert (sx = sy) as -> by (destruct sx, sy; try done; nia).
    destruct (canonical_unique mx my ex ey) as [-> ->]; [done | done | |].
    { destruct sy; nia. }
    apply SFeqb_refl_finite.
Qed.

Lemma Forall3_take {A B C} (P : A -> B -> C -> Prop) l k k' (n : nat) :
  Forall3 P l k k' -> Forall3 P (take n l) (take n k) (take n k').
Proof.
  intros HF. revert n. induction HF; intros [|n]; cbn; by constructor.
Qed.

Lemma Forall3_replicate {A B C} (P : A -> B -> C -> Prop) x y z (n : nat) :
  P x y z -> Forall3 P (replicate n x) (replicate n y) (replicate n z).
Proof. intros HP. induction n; cbn; by constructor. Qed.

Lemma Forall3_removelast {A B C} (P : A -> B -> C -> Prop) l k k' :
  Forall3 P l k k' ->
  Forall3 P (removelast l) (removelast k) (removelast k').
Proof.
  intros HF. rewrite !removelast_firstn_len.
  rewrite <- (Forall3_length_lm _ _ _ _ HF), <- (Forall3_length_lr _ _ _ _ HF).
  by apply Forall3_take.
Qed.

Section NoRounding.
Variables a b : float.
Implicit Types x y t : float.
Implicit Types f g : Filter complex32.

Lemma lin3_zero : lin3 a b (S754_zero false) (S754_zero false) (S754_zero false).
Proof. repeat split. cbn. lia. Qed.

Lemma lin3_lincomb x y :
  exact_mul x a -> exact_mul y b -> exact_add (fmul x a) (fmul y b) ->
  lin3 a b (fadd (fmul x a) (fmul y b)) x y.
Proof.
  intros (Hx & _ & _ & Hxa) (Hy & _ & _ & Hyb) (_ & _ & Hv & Hs).
  split; [done|]. split; [done|]. split; [done|].
  rewrite Hs, Z.mul_add_distr_r, Hxa, Hyb. ring.
Qed.

Lemma lin3_mul c x3 x1 x2 :
  lin3 a b x3 x1 x2 ->
  exact_mul x3 c -> exact_mul x1 c -> exact_mul x2 c ->
  lin3 a b (fmul x3 c) (fmul x1 c) (fmul x2 c).
Proof.
  intros (_ & _ & _ & HL) (_ & _ & V3 & H3) (_ & _ & V1 & H1)
    (_ & _ & V2 & H2).
  split; [done|]. split; [done|]. split; [done|].
  set (P := 2 ^ 149) in *.
  assert (0 < P) by (apply Z.pow_pos_nonneg; lia).
  apply (Z.mul_reg_r _ _ P); [lia|].
  transitivity (exact32 x3 * P * exact32 c).
  { rewrite H3. ring. }
  rewrite HL.
  transitivity (exact32 a * (exact32 (fmul x1 c) * P)
                + exact32 b * (exact32 (fmul x2 c) * P)); [|ring].
  rewrite H1, H2. ring.
Qed.

Lemma lin3_sub x3 x1 x2 t3 t1 t2 :
  lin3 a b x3 x1 x2 -> lin3 a b t3 t1 t2 ->
  exact_sub x3 t3 -> exact_sub x1 t1 -> exact_sub x2 t2 ->
  lin3 a b (fsub x3 t3) (fsub x1 t1) (fsub x2 t2).
Proof.
  intros (_ & _ & _ & HX) (_ & _ & _ & HT) (_ & _ & V3 & H3)
    (_ & _ & V1 & H1) (_ & _ & V2 & H2).
  split; [done|]. split; [done|]. split; [done|].
  rewrite H3, H1, H2, Z.mul_sub_distr_r, HX, HT. ring.
Qed.

Lemma lin3_add x3 x1 x2 t3 t1 t2 :
  lin3 a b x3 x1 x2 -> lin3 a b t3 t1 t2 ->
  exact_add x3 t3 -> exact_add x1 t1 -> exact_add x2 t2 ->
  lin3 a b (fadd x3 t3) (fadd x1 t1) (fadd x2 t2).
Proof.
  intros (_ & _ & _ & HX) (_ & _ & _ & HT) (_ & _ & V3 & H3)
    (_ & _ & V1 & H1) (_ & _ & V2 & H2).
  split; [done|]. split; [done|]. split; [done|].
  rewrite H3, H1, H2, Z.mul_add_distr_r, HX, HT. ring.
Qed.

(** One value, computed twice. *)
Lemma lin3_feq w u v :
  lin3 a b w u v ->
  exact_mul u a -> exact_mul v b -> exact_add (fmul u a) (fmul v b) ->
  feq w (fadd (fmul u a) (fmul v b)) = true.
Proof.
  intros (Vw & _ & _ & HL) Hu Hv Hs.
  destruct (lin3_lincomb u v Hu Hv Hs) as (Vl & _ & _ & HL').
  apply feq_same_value; [done | done |].
  assert (0 < 2 ^ 149) by (apply Z.pow_pos_nonneg; lia).
  apply (Z.mul_reg_r _ _ (2 ^ 149)); [lia|]. by rewrite HL, HL'.
Qed.

(** The same on [float complex]. *)

Implicit Types z : complex.

Lemma clin3_zero : clin3 a b c0 c0 c0.
Proof. split; apply lin3_zero. Qed.

Lemma clin3_lincomb z1 z2 :
  lincomb_exact a b z1 z2 -> clin3 a b (lincomb (H:=complex32) a b z1 z2) z1 z2.
Proof.
  intros ([] & [] & []). split; by apply lin3_lincomb.
Qed.

Lemma clin3_scale c z3 z1 z2 :
  clin3 a b z3 z1 z2 ->
  cexact_scale z3 c -> cexact_scale z1 c -> cexact_scale z2 c ->
  clin3 a b (cplx_scale z3 c) (cplx_scale z1 c) (cplx_scale z2 c).
Proof. intros [] [] [] []. split; by apply lin3_mul. Qed.

Lemma clin3_sub z3 z1 z2 (t3 t1 t2 : complex) :
  clin3 a b z3 z1 z2 -> clin3 a b t3 t1 t2 ->
  cexact_sub z3 t3 -> cexact_sub z1 t1 -> cexact_sub z2 t2 ->
  clin3 a b (cplx_sub z3 t3) (cplx_sub z1 t1) (cplx_sub z2 t2).
Proof. intros [] [] [] [] []. split; by apply lin3_sub. Qed.

Lemma clin3_add z3 z1 z2 (t3 t1 t2 : complex) :
  clin3 a b z3 z1 z2 -> clin3 a b t3 t1 t2 ->
  cexact_add z3 t3 -> cexact_add z1 t1 -> cexact_add z2 t2 ->
  clin3 a b (cplx_add z3 t3) (cplx_add z1 t1) (cplx_add z2 t2).
Proof. intros [] [] [] [] []. split; by apply lin3_add. Qed.

Lemma clin3_eq (w u v : complex) :
  clin3 a b w u v -> lincomb_exact a b u v ->
  cplx_eq w (lincomb (H:=complex32) a b u v) = true.
Proof.
  intros [Hr Hi] ([] & [] & []). unfold cplx_eq. apply andb_true_iff.
  split; by apply lin3_feq.
Qed.

(** The loops of [filter_fwd]. *)

Lemma products_clin3 (m3 m1 m2 : list complex) (c : list float) (lo hi : nat) :
  Forall3 (clin3 a b) m3 m1 m2 ->
  products_exact m3 c lo hi -> products_exact m1 c lo hi ->
  products_exact m2 c lo hi ->
  Forall3 (clin3 a b) (products (H:=complex32) m3 c lo hi)
    (products (H:=complex32) m1 c lo hi) (products (H:=complex32) m2 c lo hi).
Proof.
  unfold products, products_exact. intros HF. revert c lo hi.
  induction HF as [|z3 z1 z2 m3 m1 m2 Hz HF IH]; intros c lo hi H3 H1 H2.
  - cbn. rewrite take_nil, drop_nil. constructor.
  - destruct c as [|k c]; [cbn; rewrite take_nil, drop_nil; constructor|].
    destruct hi as [|hi]; [cbn; rewrite drop_nil; constructor|].
    cbn [zip_with take] in *. destruct lo as [|lo].
    + rewrite !drop_0 in *.
      destruct H3 as [E3 H3], H1 as [E1 H1], H2 as [E2 H2].
      constructor; [by apply clin3_scale|].
      specialize (IH c 0%nat hi). rewrite !drop_0 in IH. by apply IH.
    + cbn [drop] in *. by apply IH.
Qed.

Lemma minus_sigma_clin3 (ts3 ts1 ts2 : list complex) z3 z1 z2 :
  Forall3 (clin3 a b) ts3 ts1 ts2 -> clin3 a b z3 z1 z2 ->
  minus_sigma_exact z3 ts3 -> minus_sigma_exact z1 ts1 ->
  minus_sigma_exact z2 ts2 ->
  clin3 a b (minus_sigma (H:=complex32) z3 ts3)
    (minus_sigma (H:=complex32) z1 ts1) (minus_sigma (H:=complex32) z2 ts2).
Proof.
  unfold minus_sigma. intros HF. revert z3 z1 z2.
  induction HF as [|t3 t1 t2 ts3 ts1 ts2 Ht HF IH];
    intros z3 z1 z2 Hz H3 H1 H2; [done|].
  cbn in *. destruct H3, H1, H2. apply IH; try done. by apply clin3_sub.
Qed.

Lemma sigma_clin3 (ts3 ts1 ts2 : list complex) :
  Forall3 (clin3 a b) ts3 ts1 ts2 ->
  sigma_exact ts3 -> sigma_exact ts1 -> sigma_exact ts2 ->
  clin3 a b (sigma (H:=complex32) ts3) (sigma (H:=complex32) ts1)
    (sigma (H:=complex32) ts2).
Proof.
  unfold sigma. induction 1 as [|t3 t1 t2 ts3 ts1 ts2 Ht HF IH];
    intros H3 H1 H2; [apply clin3_zero|].
  cbn in *. destruct H3, H1, H2. apply clin3_add; try done. by apply IH.
Qed.

(** Three instances with the same coefficients, the delay line of the
    third holding the combination of the delay lines of the other two. *)
Lemma step_clin3 f1 f2 f3 z1 z2 z3 :
  filter_wf f1 -> filter_wf f2 -> filter_wf f3 ->
  same_taps f1 f3 -> same_taps f2 f3 ->
  Forall3 (clin3 a b) (mem f3) (mem f1) (mem f2) ->
  clin3 a b z3 z1 z2 ->
  step_exact f1 z1 (set_mem f1 (advance_mem f1 z1)) ->
  step_exact f2 z2 (set_mem f2 (advance_mem f2 z2)) ->
  step_exact f3 z3 (set_mem f3 (advance_mem f3 z3)) ->
  Forall3 (clin3 a b) (advance_mem f3 z3) (advance_mem f1 z1)
    (advance_mem f2 z2)
  /\ clin3 a b (advance_output f3 z3) (advance_output f1 z1)
       (advance_output f2 z2).
Proof.
  intros W1 W2 W3 (HM1 & HN1 & HF1 & HB1) (HM2 & HN2 & HF2 & HB2) Hm Hz
    (P1 & S1 & Q1 & T1) (P2 & S2 & Q2 & T2) (P3 & S3 & Q3 & T3).
  cbn [mem set_mem fwd_count back_count fwd_coeff back_coeff] in *.
  assert (Forall3 (clin3 a b) (advance_mem f3 z3) (advance_mem f1 z1)
            (advance_mem f2 z2)) as Hm'.
  { unfold advance_mem. constructor.
    - unfold advance_input. rewrite HN1, HB1 in *. rewrite HN2, HB2 in *.
      apply minus_sigma_clin3; try done. by apply products_clin3.
    - by apply Forall3_removelast. }
  split; [done|]. unfold advance_output.
  rewrite HM1, HF1 in *. rewrite HM2, HF2 in *.
  apply sigma_clin3; try done. by apply products_clin3.
Qed.

Lemma run_clin3 f1 f2 f3 (xs ys : list complex) :
  filter_wf f1 -> filter_wf f2 -> filter_wf f3 ->
  same_taps f1 f3 -> same_taps f2 f3 ->
  Forall3 (clin3 a b) (mem f3) (mem f1) (mem f2) ->
  Forall2 (lincomb_exact a b) xs ys ->
  run_exact f1 xs -> run_exact f2 ys ->
  run_exact f3 (lincomb_seq (H:=complex32) a b xs ys) ->
  exists us vs ws g1 g2 g3,
    filter_run f1 xs = Some (us, g1)
    /\ filter_run f2 ys = Some (vs, g2)
    /\ filter_run f3 (lincomb_seq (H:=complex32) a b xs ys) = Some (ws, g3)
    /\ length us = length xs /\ length vs = length xs
    /\ Forall3 (clin3 a b) ws us vs.
Proof.
  intros W1 W2 W3 T1 T2 Hm HF. revert f1 f2 f3 W1 W2 W3 T1 T2 Hm.
  induction HF as [|x y xs ys Hxy HF IH];
    intros f1 f2 f3 W1 W2 W3 T1 T2 Hm R1 R2 R3.
  - exists [], [], [], f1, f2, f3. cbn. split_and!; try done. constructor.
  - cbn [lincomb_seq zip_with run_exact filter_run] in *.
    fold (lincomb_seq (H:=complex32) a b xs ys) in *.
    rewrite filter_fwd_spec in R1, R2, R3 |- * by done.
    rewrite !filter_fwd_spec by done.
    destruct R1 as [E1 R1], R2 as [E2 R2], R3 as [E3 R3].
    destruct (step_clin3 f1 f2 f3 x y (lincomb (H:=complex32) a b x y))
      as [Hm' Ho]; try done.
    { by apply clin3_lincomb. }
    cbn [mbind option_bind].
    destruct (IH (set_mem f1 (advance_mem f1 x))
                 (set_mem f2 (advance_mem f2 y))
                 (set_mem f3 (advance_mem f3 (lincomb (H:=complex32) a b x y))))
      as (us & vs & ws & g1 & g2 & g3 & -> & -> & -> & Lu & Lv & Hw);
      try done.
    { by apply set_mem_wf, length_advance_mem. }
    { by apply set_mem_wf, length_advance_mem. }
    { by apply set_mem_wf, length_advance_mem. }
    cbn. eexists _, _, _, g1, g2, g3.
    split; [done|]. split; [done|]. split; [done|].
    split; [cbn; by f_equal|]. split; [cbn; by f_equal|]. by constructor.
Qed.

(** C9 (as amended): three [float] filter instances with identical
    coefficients and freshly zeroed delay lines are linear as long as no
    operation rounds.  If no multiplication, subtraction or addition
    rounds in the run on [x], in the run on [y], in the run on
    [a·x + b·y] and in [a·x + b·y] itself, then the three runs return, and
    every output sample of the third compares equal ([==]) to [a] times
    the output of the first plus [b] times the output of the second,
    whenever that combination is computed without rounding too. *)
Theorem filter_linear f1 f2 f3 (xs ys : list complex) :
  filter_wf f1 -> filter_wf f2 -> filter_wf f3 ->
  same_taps f1 f3 -> same_taps f2 f3 ->
  zeroed f1 -> zeroed f2 -> zeroed f3 ->
  Forall2 (lincomb_exact a b) xs ys ->
  run_exact f1 xs -> run_exact f2 ys ->
  run_exact f3 (lincomb_seq (H:=complex32) a b xs ys) ->
  exists us vs ws g1 g2 g3,
    filter_run f1 xs = Some (us, g1)
    /\ filter_run f2 ys = Some (vs, g2)
    /\ filter_run f3 (lincomb_seq (H:=complex32) a b xs ys) = Some (ws, g3)
    /\ length us = length xs /\ length vs = length xs
    /\ length ws = length xs
    /\ forall i w u v,
         ws !! i = Some w -> us !! i = Some u -> vs !! i = Some v ->
         lincomb_exact a b u v ->
         cplx_eq w (lincomb (H:=complex32) a b u v) = true.
Proof.
  intros W1 W2 W3 T1 T2 Z1 Z2 Z3 HF R1 R2 R3.
  destruct (run_clin3 f1 f2 f3 xs ys)
    as (us & vs & ws & g1 & g2 & g3 & H1 & H2 & H3 & Lu & Lv & Hw);
    try done.
  { rewrite Z1, Z2, Z3.
    replace (length (mem f1)) with (length (mem f3)).
    2:{ destruct W1, W3, T1 as (? & _). lia. }
    replace (length (mem f2)) with (length (mem f3)).
    2:{ destruct W2, W3, T2 as (? & _). lia. }
    apply Forall3_replicate, clin3_zero. }
  exists us, vs, ws, g1, g2, g3. split_and!; try done.
  - rewrite <- Lu. by eapply Forall3_length_lm.
  - intros i w u v Hi Hu Hv He. apply clin3_eq; [|done].
    by eapply (Forall3_lookup_lmr _ _ _ _ i).
Qed.

End NoRounding.

Lemma iir_half_wf : filter_wf Examples.iir_half.
Proof. split; vm_compute; try reflexivity; split; discriminate. Qed.

Lemma filter_linear_witness :
  zeroed Examples.iir_half
  /\ Forall2 (lincomb_exact (Examples.fl 2) Examples.half)
       Examples.lin_xs Examples.lin_ys
  /\ run_exact Examples.iir_half Examples.lin_xs
  /\ run_exact Examples.iir_half Examples.lin_ys
  /\ run_exact Examples.iir_half
       (lincomb_seq (H:=complex32) (Examples.fl 2) Examples.half
          Examples.lin_xs Examples.lin_ys)
  /\ exists us vs ws g1 g2 g3,
      filter_run Examples.iir_half Examples.lin_xs = Some (us, g1)
      /\ filter_run Examples.iir_half Examples.lin_ys = Some (vs, g2)
      /\ filter_run Examples.iir_half
           (lincomb_seq (H:=complex32) (Examples.fl 2) Examples.half
              Examples.lin_xs Examples.lin_ys) = Some (ws, g3)
      /\ length us = length Examples.lin_xs
      /\ length vs = length Examples.lin_xs
      /\ length ws = length Examples.lin_xs
      /\ forall i w u v,
           ws !! i = Some w -> us !! i = Some u -> vs !! i = Some v ->
           lincomb_exact (Examples.fl 2) Examples.half u v ->
           cplx_eq w (lincomb (H:=complex32) (Examples.fl 2) Examples.half u v)
           = true.
Proof.
  assert (zeroed Examples.iir_half) as Hz by reflexivity.
  assert (same_taps Examples.iir_half Examples.iir_half) as Ht
    by (repeat split).
  assert (Forall2 (lincomb_exact (Examples.fl 2) Examples.half)
            Examples.lin_xs Examples.lin_ys) as HF.
  { repeat constructor; vm_compute; reflexivity. }
  assert (run_exact Examples.iir_half Examples.lin_xs) as R1.
  { vm_compute. repeat split; reflexivity. }
  assert (run_exact Examples.iir_half Examples.lin_ys) as R2.
  { vm_compute. repeat split; reflexivity. }
  assert (run_exact Examples.iir_half
            (lincomb_seq (H:=complex32) (Examples.fl 2) Examples.half
               Examples.lin_xs Examples.lin_ys)) as R3.
  { vm_compute. repeat split; reflexivity. }
  split; [exact Hz|]. split; [exact HF|]. split; [exact R1|].
  split; [exact R2|]. split; [exact R3|].
  exact (filter_linear (Examples.fl 2) Examples.half
           Examples.iir_half Examples.iir_half Examples.iir_half
           Examples.lin_xs Examples.lin_ys
           iir_half_wf iir_half_wf iir_half_wf Ht Ht Hz Hz Hz HF R1 R2 R3).
Defined.

(** The claim of C9 fails on the code in two ways.  In [float]
    arithmetic the products are rounded: on freshly zeroed one-tap filters
    with the coefficient 0.1, [(3 + 4)·0.1] is 11744051·2^-24 and
    [3·0.1 + 4·0.1] is 11744052·2^-24.  And identical delay lines that are
    not zero are counted once on one side and [a + b] times on the other:
    with the delay line [5; 5], taps [1; 1] and [a = b = 1], the inputs
    1 and 1 give [2 + 5 = 7] against [(1 + 5) + (1 + 5) = 12]. *)
Lemma filter_linear_counterexample :
  (filter_new 1 0 [Examples.d_tenth] [] = Some Examples.fir_tenth
   /\ zeroed Examples.fir_tenth
   /\ (fst <$> filter_run Examples.fir_tenth [Examples.cx 3])
      = Some [of_real (fmul (Examples.fl 3) (d2f Examples.d_tenth))]
   /\ (fst <$> filter_run Examples.fir_tenth [Examples.cx 4])
      = Some [of_real (fmul (Examples.fl 4) (d2f Examples.d_tenth))]
   /\ (fst <$> filter_run Examples.fir_tenth
                 (lincomb_seq (Examples.fl 1) (Examples.fl 1)
                    [Examples.cx 3] [Examples.cx 4]))
      = Some [Examples.seven_tenths_lo]
   /\ lincomb_seq (Examples.fl 1) (Examples.fl 1)
        [of_real (fmul (Examples.fl 3) (d2f Examples.d_tenth))]
        [of_real (fmul (Examples.fl 4) (d2f Examples.d_tenth))]
      = [Examples.seven_tenths_hi]
   /\ Examples.seven_tenths_lo <> Examples.seven_tenths_hi)
  /\ ((fst <$> filter_run Examples.fir_loaded [Examples.cx 1])
      = Some [Examples.cx 6]
     /\ (fst <$> filter_run Examples.fir_loaded
                   (lincomb_seq (Examples.fl 1) (Examples.fl 1)
                      [Examples.cx 1] [Examples.cx 1]))
        = Some [Examples.cx 7]
     /\ lincomb_seq (Examples.fl 1) (Examples.fl 1)
          [Examples.cx 6] [Examples.cx 6]
        = [Examples.cx 12]
     /\ Examples.cx 7 <> Examples.cx 12).
Proof.
  split.
  - split; [reflexivity|]. split; [reflexivity|].
    split; [reflexivity|]. split; [reflexivity|].
    split; [reflexivity|]. split; [reflexivity|].
    vm_compute. discriminate.
  - split; [reflexivity|]. split; [reflexivity|].
    split; [reflexivity|]. vm_compute. discriminate.
Qed.

(* ------------------------------------------------------------------ *)
(** ** [float] to [double] and back *)

(** Shifting right the bits that a shift to the left brought in loses
    nothing. *)
Lemma iter_pos_shr_1_exact (p m : positive) :
  @SpecFloat.iter_pos _ shr_1 p
    {| shr_m := Z.pos (Pos.iter xO m p); shr_r := false; shr_s := false |}
  = {| shr_m := Z.pos m; shr_r := false; shr_s := false |}.
Proof.
  revert m. induction p as [p IH|p IH|]; intros m; cbn [SpecFloat.iter_pos Pos.iter].
  - cbn [shr_1 orb]. by rewrite !IH.
  - by rewrite !IH.
  - done.
Qed.

(* ------------------------------------------------------------------ *)
(** ** The error of one rounding, in units of 2^-U *)

Lemma digits_upper (U : Z) (m : positive) (e k : Z) :
  - U <= e -> Z.pos m * 2 ^ (e + U) < 2 ^ (k + U) ->
  Z.pos (digits2_pos m) + e <= k.
Proof.
  intros He Hv. pose proof (digits2_pos_bounds m) as [Hl _].
  pose proof (Pos2Z.is_pos (digits2_pos m)) as Hd.
  set (d := Z.pos (digits2_pos m)) in *.
  assert (0 < 2 ^ (e + U)) by (apply Z.pow_pos_nonneg; lia).
  destruct (Z.le_gt_cases 0 (k + U)) as [Hk|Hk].
  - assert (2 ^ ((d - 1) + (e + U)) < 2 ^ (k + U)) as Hlt.
    { rewrite pow2_split by lia. nia. }
    apply pow2_lt_inv in Hlt; lia.
  - rewrite (Z.pow_neg_r 2 (k + U)) in Hv by lia. nia.
Qed.

Lemma digits_lower_value (U : Z) (m : positive) (e k : Z) :
  - U <= e -> 2 ^ (k - 1 + U) <= Z.pos m * 2 ^ (e + U) ->
  k <= Z.pos (digits2_pos m) + e.
Proof.
  intros He Hv. pose proof (digits2_pos_bounds m) as [_ Hh].
  pose proof (Pos2Z.is_pos (digits2_pos m)) as Hd.
  set (d := Z.pos (digits2_pos m)) in *.
  assert (0 < 2 ^ (e + U)) by (apply Z.pow_pos_nonneg; lia).
  assert (2 ^ (k - 1 + U) < 2 ^ (d + (e + U))) as Hlt.
  { rewrite (pow2_split d) by lia. nia. }
  apply pow2_lt_inv in Hlt; lia.
Qed.

Lemma bounded_intro (prec emax : Z) (m : positive) (e : Z) :
  fexp prec emax (Z.pos (digits2_pos m) + e) = e -> e <= emax - prec ->
  bounded prec emax m e = true.
Proof.
  intros Hc He. unfold bounded, canonical_mantissa. apply andb_true_iff.
  split; [by apply Z.eqb_eq | by apply Z.leb_le].
Qed.

Lemma bounded_inv (prec emax : Z) (m : positive) (e : Z) :
  bounded prec emax m e = true ->
  fexp prec emax (Z.pos (digits2_pos m) + e) = e /\ e <= emax - prec.
Proof.
  unfold bounded, canonical_mantissa. intros [Hc He]%andb_true_iff.
  split; [by apply Z.eqb_eq | by apply Z.leb_le].
Qed.

Section Units.
Variables prec emax U : Z.
Hypothesis Hprec : 0 < prec.
Hypothesis HU : - U <= 3 - emax - prec.

(** [binary_round] in the range of the normal numbers is within half a
    unit of the last place. *)
Lemma round_units (s : bool) (m : positive) (e : Z) :
  let d := Z.pos (digits2_pos m) in
  - U <= e ->
  3 - emax - prec <= d + e - prec -> d + e - prec + 1 <= emax - prec ->
  exists m' e',
    binary_round prec emax s m e = S754_finite s m' e'
    /\ bounded prec emax m' e' = true /\ - U <= e'
    /\ 2 * Z.abs (Z.pos m' * 2 ^ (e' + U) - Z.pos m * 2 ^ (e + U))
       <= 2 ^ (d + e - prec + U).
Proof.
  intros d He Hn Hm.
  destruct (binary_round_correct prec emax Hprec s m e Hn Hm)
    as (m' & e' & Hr & Hb & Hd' & He' & Hc).
  fold d in He', Hc.
  exists m', e'. split; [done|]. split; [done|]. split; [lia|].
  assert (0 <= 2 ^ (d + e - prec + U)) by (apply Z.pow_nonneg; lia).
  destruct Hc as [(Hd & Hee & Hv) | (Hd & Hee & Hv)].
  - rewrite Hv. replace (e + U) with ((e - e') + (e' + U)) by lia.
    rewrite (pow2_split (e - e') (e' + U)) by lia.
    replace (Z.pos m * 2 ^ (e - e') * 2 ^ (e' + U)
             - Z.pos m * (2 ^ (e - e') * 2 ^ (e' + U))) with 0 by ring.
    cbn [Z.abs]. lia.
  - replace (e' + U) with ((e' - e) + (e + U)) by lia.
    replace (d + e - prec + U) with ((d - prec) + (e + U)) by lia.
    rewrite (pow2_split (e' - e) (e + U)), (pow2_split (d - prec) (e + U))
      by lia.
    assert (0 < 2 ^ (e + U)) by (apply Z.pow_pos_nonneg; lia).
    rewrite Z.mul_assoc, <- Z.mul_sub_distr_r, Z.abs_mul.
    rewrite (Z.abs_eq (2 ^ (e + U))) by lia. nia.
Qed.

(** [binary_round_aux] is within one unit of the last place, whatever
    the location says about the digits that were cut off before. *)
Lemma round_aux_units (s : bool) (m : positive) (e : Z) (l : location) :
  let d := Z.pos (digits2_pos m) in
  - U <= e -> prec <= d ->
  3 - emax - prec <= d + e - prec -> d + e - prec + 1 <= emax - prec ->
  exists m' e',
    binary_round_aux prec emax s (Z.pos m) e l = S754_finite s m' e'
    /\ bounded prec emax m' e' = true /\ - U <= e'
    /\ Z.abs (Z.pos m' * 2 ^ (e' + U) - Z.pos m * 2 ^ (e + U))
       <= 2 ^ (d + e - prec + U).
Proof.
  intros d He Hd Hn Hm.
  destruct (binary_round_aux_correct prec emax Hprec s m e l Hd Hn Hm)
    as (m' & e' & Hr & Hb & Hd' & He' & Hv & _).
  fold d in He', Hv.
  exists m', e'. split; [done|]. split; [done|]. split; [lia|].
  replace (e' + U) with ((e' - e) + (e + U)) by lia.
  replace (d + e - prec + U) with ((d - prec) + (e + U)) by lia.
  rewrite (pow2_split (e' - e) (e + U)), (pow2_split (d - prec) (e + U))
    by lia.
  assert (0 < 2 ^ (e + U)) by (apply Z.pow_pos_nonneg; lia).
  rewrite Z.mul_assoc, <- Z.mul_sub_distr_r, Z.abs_mul.
  rewrite (Z.abs_eq (2 ^ (e + U))) by lia. nia.
Qed.

(** A mantissa that was shifted to the left comes back as it was. *)
Lemma binary_round_aux_shifted (s : bool) (m k : positive) (e : Z) :
  fexp prec emax (Z.pos (digits2_pos m) + e) = e -> e <= emax - prec ->
  binary_round_aux prec emax s (Z.pos (Pos.iter xO m k)) (e - Z.pos k)
    loc_Exact
  = S754_finite s m e.
Proof.
  intros Hc He.
  unfold binary_round_aux, shr_fexp. cbn [Zdigits2 shr_record_of_loc].
  rewrite iter_xO_digits.
  replace (Z.pos (digits2_pos m) + Z.pos k + (e - Z.pos k))
    with (Z.pos (digits2_pos m) + e) by lia.
  rewrite Hc.
  replace (e - (e - Z.pos k)) with (Z.pos k) by lia.
  cbn [shr]. rewrite iter_pos_shr_1_exact.
  cbn [shr_m loc_of_shr_record round_nearest_even Zdigits2 shr_record_of_loc].
  replace (e - Z.pos k + Z.pos k) with e by lia.
  rewrite Hc, Z.sub_diag. cbn [shr shr_m].
  replace (e <=? emax - prec) with true; [done|].
  symmetry. apply Z.leb_le. lia.
Qed.

(** The sum of the aligned mantissas is the sum of the values. *)
Lemma aligned_sum_units (sx sy : bool) (mx my : positive) (ex ey : Z) :
  - U <= ex -> - U <= ey ->
  (cond_Zopp sx (Z.pos (fst (shl_align mx ex (Z.min ex ey))))
   + cond_Zopp sy (Z.pos (fst (shl_align my ey (Z.min ex ey)))))
  * 2 ^ (Z.min ex ey + U)
  = (if sx then -1 else 1) * Z.pos mx * 2 ^ (ex + U)
    + (if sy then -1 else 1) * Z.pos my * 2 ^ (ey + U).
Proof.
  intros Hx Hy. rewrite !shl_align_fst by lia.
  replace (ex + U) with ((ex - Z.min ex ey) + (Z.min ex ey + U)) by lia.
  replace (ey + U) with ((ey - Z.min ex ey) + (Z.min ex ey + U)) by lia.
  rewrite (pow2_split (ex - Z.min ex ey)), (pow2_split (ey - Z.min ex ey))
    by lia.
  destruct sx, sy; cbn [cond_Zopp]; ring.
Qed.

End Units.

Lemma f2d_finite (s : bool) (m : positive) (e : Z) :
  bounded 24 128 m e = true ->
  exists k,
    f2d (S754_finite s m e) = S754_finite s (Pos.iter xO m k) (e - Z.pos k)
    /\ Z.pos (digits2_pos m) + Z.pos k = 53.
Proof.
  intros Hb. destruct (bounded_canonical _ _ Hb) as (Hc & He & Hm & Hd & _).
  unfold f2d, SFconv, binary_round.
  assert (fexp 53 1024 (Z.pos (digits2_pos m) + e)
          = Z.pos (digits2_pos m) + e - 53) as ->
    by (unfold fexp, emin; lia).
  unfold shl_align.
  destruct (Z.pos (digits2_pos m) + e - 53 - e) as [|k|k] eqn:Hk; try lia.
  exists k. split; [|lia]. rewrite binary_round_aux_exact.
  - f_equal. lia.
  - rewrite iter_xO_digits. unfold fexp, emin. lia.
  - lia.
Qed.

Lemma d2f_shifted (s : bool) (m k : positive) (e : Z) :
  bounded 24 128 m e = true ->
  d2f (S754_finite s (Pos.iter xO m k) (e - Z.pos k)) = S754_finite s m e.
Proof.
  intros Hb. destruct (bounded_canonical _ _ Hb) as (Hc & He & Hm & Hd & _).
  unfold d2f, SFconv, binary_round. rewrite iter_xO_digits.
  replace (Z.pos (digits2_pos m) + Z.pos k + (e - Z.pos k))
    with (Z.pos (digits2_pos m) + e) by lia.
  rewrite Hc. unfold shl_align.
  destruct (e - (e - Z.pos k)) as [|j|j] eqn:Hj; try lia.
  apply binary_round_aux_shifted; [done|lia].
Qed.

(** A [float] taken to [double] and back is the [float] it was. *)
Lemma d2f_f2d (x : float) :
  valid_binary 24 128 x = true -> d2f (f2d x) = x.
Proof.
  destruct x as [s|s| |s m e]; try done. cbn [valid_binary]. intros Hb.
  destruct (f2d_finite s m e Hb) as (k & -> & _). by apply d2f_shifted.
Qed.

(** The [double] of a [float] has 53 digits and the value of the
    [float]. *)
Lemma f2d_value (s : bool) (m : positive) (e : Z) :
  bounded 24 128 m e = true ->
  exists m' e',
    f2d (S754_finite s m e) = S754_finite s m' e'
    /\ bounded 53 1024 m' e' = true
    /\ Z.pos (digits2_pos m') = 53
    /\ -201 <= e'
    /\ Z.pos m' * 2 ^ (e' + 1074) = Z.pos m * 2 ^ (e + 149) * 2 ^ 925.
Proof.
  intros Hb. destruct (bounded_canonical _ _ Hb) as (Hc & He & Hm & Hd & _).
  destruct (f2d_finite s m e Hb) as (k & -> & Hk).
  pose proof (Pos2Z.is_pos (digits2_pos m)) as Hdp.
  exists (Pos.iter xO m k), (e - Z.pos k).
  assert (Z.pos (digits2_pos (Pos.iter xO m k)) = 53) as Hd53
    by (rewrite iter_xO_digits; lia).
  split; [done|]. split.
  { apply bounded_intro; [|lia]. rewrite Hd53. unfold fexp, emin. lia. }
  split; [done|]. split; [lia|].
  rewrite iter_xO_value, <- !Z.mul_assoc, <- !pow2_split by lia.
  do 2 f_equal. lia.
Qed.

(* ------------------------------------------------------------------ *)
(** ** The centre tap of the RRC filter, operation by operation *)

Lemma f_of_Z_1 : f_of_Z 1 = S754_finite false 8388608 (-23).
Proof. reflexivity. Qed.

Lemma f_of_Z_4 : f_of_Z 4 = S754_finite false 8388608 (-21).
Proof. reflexivity. Qed.

Lemma mantissa_lt (m : positive) (e : Z) :
  bounded 24 128 m e = true -> Z.pos m < 2 ^ 24.
Proof.
  intros Hb. destruct (bounded_canonical _ _ Hb) as (_ & _ & _ & Hd & _).
  pose proof (digits2_pos_bounds m) as [_ Hh].
  assert (2 ^ Z.pos (digits2_pos m) <= 2 ^ 24)
    by (apply Z.pow_le_mono_r; lia).
  lia.
Qed.

(** [1 - alpha] in [float]: half a unit of the last place of a number
    below 1 off, 2^-25 at most. *)
Lemma fsub_one (m : positive) (e : Z) :
  bounded 24 128 m e = true -> Z.pos m * 2 ^ (e + 149) <= 2 ^ 149 ->
  valid32 (fsub (f_of_Z 1) (S754_finite false m e))
  /\ 0 <= exact32 (fsub (f_of_Z 1) (S754_finite false m e))
  /\ 2 * Z.abs (exact32 (fsub (f_of_Z 1) (S754_finite false m e))
                - (2 ^ 149 - Z.pos m * 2 ^ (e + 149))) <= 2 ^ 125.
Proof.
  intros Hb Hle. destruct (bounded_canonical _ _ Hb) as (_ & _ & He & Hd & _).
  pose proof (mantissa_lt m e Hb) as Hm.
  assert (0 < 2 ^ (e + 149)) as Hpe by (apply Z.pow_pos_nonneg; lia).
  rewrite fsub_fadd, f_of_Z_1. unfold fadd, SFadd. cbn [SFopp negb]. cbv zeta.
  pose proof (aligned_sum false true 8388608 m (-23) e ltac:(lia) He) as Hs.
  cbn [exact32] in Hs.
  change (1 * 8388608 * 2 ^ (-23 + 149)) with (2 ^ 149) in Hs.
  set (ez := Z.min (-23) e) in *.
  assert (0 < 2 ^ (ez + 149)) as Hpz by (apply Z.pow_pos_nonneg; lia).
  destruct (cond_Zopp false _ + cond_Zopp true _) as [|p|p].
  - cbn [binary_normalize exact32]. split; [by split|]. split; [done|].
    replace (0 - (2 ^ 149 - Z.pos m * 2 ^ (e + 149))) with 0 by lia.
    cbn. lia.
  - cbn [binary_normalize].
    assert (Z.pos (digits2_pos p) + ez <= 0) as Hup.
    { apply (digits_upper 149); [lia|]. cbn [Z.add]. lia. }
    assert (-24 <= Z.pos (digits2_pos p) + ez) as Hlo.
    { apply (digits_lower_value 149); [lia|].
      change (2 ^ (-24 - 1 + 149)) with (2 ^ 124).
      destruct (Z.le_gt_cases (-25) e) as [Hc|Hc].
      - assert (2 ^ 124 <= 2 ^ (ez + 149)) by (apply Z.pow_le_mono_r; lia).
        nia.
      - assert (2 ^ (e + 149) <= 2 ^ 123) by (apply Z.pow_le_mono_r; lia).
        change (2 ^ 24) with 16777216 in Hm.
        assert (Z.pos m * 2 ^ (e + 149) <= 16777216 * 2 ^ 123) by nia.
        rewrite Hs. lia. }
    destruct (round_units 24 128 149 ltac:(lia) ltac:(lia) false p ez)
      as (m' & e' & -> & Hb' & He' & Herr); [lia | lia | lia |].
    assert (2 ^ (Z.pos (digits2_pos p) + ez - 24 + 149) <= 2 ^ 125)
      by (apply Z.pow_le_mono_r; lia).
    assert (0 < 2 ^ (e' + 149)) by (apply Z.pow_pos_nonneg; lia).
    cbn [exact32]. split; [by split|]. split; [lia|].
    rewrite Hs in Herr. lia.
  - exfalso. lia.
Qed.

(** [4 * alpha] in [float] is exact, for a subnormal [alpha] too. *)
Lemma fmul_four (m : positive) (e : Z) :
  bounded 24 128 m e = true -> Z.pos m * 2 ^ (e + 149) <= 2 ^ 149 ->
  exists m' e',
    fmul (f_of_Z 4) (S754_finite false m e) = S754_finite false m' e'
    /\ bounded 24 128 m' e' = true
    /\ Z.pos m' * 2 ^ (e' + 149) = 4 * (Z.pos m * 2 ^ (e + 149)).
Proof.
  intros Hb Hle.
  destruct (bounded_canonical _ _ Hb) as (Hc & _ & He & Hd & Hnorm).
  pose proof (digits2_pos_bounds m) as [Hl Hh].
  assert (0 < 2 ^ (e + 149)) as Hpe by (apply Z.pow_pos_nonneg; lia).
  rewrite f_of_Z_4. unfold fmul, SFmul. cbn [xorb].
  destruct (Z.eq_dec (Z.pos (digits2_pos m)) 24) as [H24|Hn24].
  - (* a mantissa of 24 digits *)
    assert (e <= -23) as Hle23.
    { rewrite H24 in Hl.
      assert (2 ^ ((24 - 1) + (e + 149)) <= 2 ^ 149) as Hp.
      { rewrite pow2_split by lia. nia. }
      apply pow2_le_inv in Hp; lia. }
    assert ((8388608 * m)%positive = Pos.iter xO m 23) as ->.
    { apply Pos2Z.inj. rewrite iter_xO_value, Pos2Z.inj_mul.
      change (2 ^ Z.pos 23) with 8388608. lia. }
    replace (-21 + e) with ((e + 2) - Z.pos 23) by lia.
    assert (fexp 24 128 (Z.pos (digits2_pos m) + (e + 2)) = e + 2) as Hfe
      by (rewrite H24; unfold fexp, emin; lia).
    rewrite (binary_round_aux_shifted 24 128) by (done || lia).
    exists m, (e + 2). split; [done|].
    split; [apply bounded_intro; [done|lia]|].
    replace (e + 2 + 149) with (2 + (e + 149)) by lia.
    rewrite pow2_split by lia. change (2 ^ 2) with 4. ring.
  - assert (e = -149) as -> by lia.
    destruct (Z.eq_dec (Z.pos (digits2_pos m)) 23) as [H23|Hn23].
    + (* a subnormal number with 23 digits *)
      assert ((8388608 * m)%positive = Pos.iter xO (xO m) 22) as ->.
      { apply Pos2Z.inj. rewrite iter_xO_value, Pos2Z.inj_mul.
        change (2 ^ Z.pos 22) with 4194304. lia. }
      replace (-21 + -149) with (-148 - Z.pos 22) by lia.
      assert (Z.pos (digits2_pos (xO m)) = 24) as Hd'
        by (cbn [digits2_pos]; lia).
      assert (fexp 24 128 (Z.pos (digits2_pos (xO m)) + -148) = -148) as Hfe
        by (rewrite Hd'; reflexivity).
      rewrite (binary_round_aux_shifted 24 128) by (done || lia).
      exists (xO m), (-148). split; [done|].
      split; [apply bounded_intro; [done|lia]|].
      change (2 ^ (-148 + 149)) with 2. change (2 ^ (-149 + 149)) with 1. lia.
    + (* a subnormal number with fewer digits *)
      assert ((8388608 * m)%positive = Pos.iter xO (xO (xO m)) 21) as ->.
      { apply Pos2Z.inj. rewrite iter_xO_value, Pos2Z.inj_mul.
        change (2 ^ Z.pos 21) with 2097152. lia. }
      replace (-21 + -149) with (-149 - Z.pos 21) by lia.
      pose proof (Pos2Z.is_pos (digits2_pos m)) as Hdp.
      assert (Z.pos (digits2_pos (xO (xO m))) = Z.pos (digits2_pos m) + 2) as Hd'
        by (cbn [digits2_pos]; lia).
      assert (fexp 24 128 (Z.pos (digits2_pos (xO (xO m))) + -149) = -149) as Hfe
        by (rewrite Hd'; unfold fexp, emin; lia).
      rewrite (binary_round_aux_shifted 24 128) by (done || lia).
      exists (xO (xO m)), (-149). split; [done|].
      split; [apply bounded_intro; [done|lia]|].
      change (2 ^ (-149 + 149)) with 1. lia.
Qed.

(** The quotient of two mantissas of 53 digits. *)
Lemma div_core_53 (m1 m2 : positive) (e1 e2 : Z) :
  Z.pos (digits2_pos m1) = 53 -> Z.pos (digits2_pos m2) = 53 ->
  -1000 <= e1 - e2 ->
  SFdiv_core_binary 53 1024 (Z.pos m1) e1 (Z.pos m2) e2
  = (Z.pos m1 * 2 ^ 53 / Z.pos m2, e1 - e2 - 53,
     new_location (Z.pos m2) (Z.pos m1 * 2 ^ 53 mod Z.pos m2)).
Proof.
  intros H1 H2 He. unfold SFdiv_core_binary. cbn [Zdigits2].
  rewrite H1, H2.
  assert (fexp 53 1024 (53 + e1 - (53 + e2)) = e1 - e2 - 53) as ->
    by (unfold fexp, emin; lia).
  rewrite Z.min_l by lia.
  replace (e1 - e2 - (e1 - e2 - 53)) with 53 by lia.
  cbv iota beta zeta. rewrite Z.shiftl_mul_pow2 by lia.
  unfold Z.div, Z.modulo.
  by destruct (Z.div_eucl (Z.pos m1 * 2 ^ 53) (Z.pos m2)).
Qed.

Lemma digits_le (p : positive) (k : Z) :
  Z.pos p < 2 ^ k -> Z.pos (digits2_pos p) <= k.
Proof.
  intros Hp. pose proof (digits2_pos_bounds p) as [Hl _].
  pose proof (Pos2Z.is_pos (digits2_pos p)).
  destruct (Z.le_gt_cases (Z.pos (digits2_pos p)) k) as [|Hgt]; [done|].
  assert (2 ^ k <= 2 ^ (Z.pos (digits2_pos p) - 1))
    by (apply Z.pow_le_mono_r; lia).
  lia.
Qed.

(** The quotient by [M_PI] in [double]: three units of the last place
    of the quotient off at most. *)
Lemma ddiv_pi (m : positive) (e : Z) :
  Z.pos (digits2_pos m) = 53 -> -250 <= e <= 0 ->
  exists m' e',
    ddiv (S754_finite false m e) M_PI = S754_finite false m' e'
    /\ bounded 53 1024 m' e' = true /\ -1074 <= e'
    /\ 2 ^ 54 * Z.abs (Z.pos m' * 2 ^ (e' + 1074) * 7074237752028440
                       - Z.pos m * 2 ^ (e + 1074) * 2 ^ 51)
       <= 3 * 7074237752028440 * (Z.pos m * 2 ^ (e + 1074)).
Proof.
  intros Hd He. pose proof (digits2_pos_bounds m) as [Hl Hh].
  rewrite Hd in Hl, Hh.
  change (2 ^ (53 - 1)) with 4503599627370496 in Hl.
  change (2 ^ 53) with 9007199254740992 in Hh.
  unfold ddiv, SFdiv, M_PI.
  rewrite div_core_53 by (done || lia). cbn [xorb].
  replace (e - -51 - 53) with (e - 2) by lia.
  pose proof (Z.div_mod (Z.pos m * 2 ^ 53) 7074237752028440 ltac:(lia))
    as Hdiv.
  pose proof (Z.mod_pos_bound (Z.pos m * 2 ^ 53) 7074237752028440
                ltac:(lia)) as Hr.
  set (q := Z.pos m * 2 ^ 53 / 7074237752028440) in *.
  set (r := (Z.pos m * 2 ^ 53) mod 7074237752028440) in *.
  change (2 ^ 53) with 9007199254740992 in Hdiv.
  assert (4503599627370496 <= q < 18014398509481984) as Hq by lia.
  destruct q as [|pq|pq]; try lia.
  assert (53 <= Z.pos (digits2_pos pq)) as Hd1
    by (apply digits_lower; change (2 ^ (53 - 1)) with 4503599627370496; lia).
  assert (Z.pos (digits2_pos pq) <= 54) as Hd2
    by (apply digits_le; change (2 ^ 54) with 18014398509481984; lia).
  destruct (round_aux_units 53 1024 1074 ltac:(lia) ltac:(lia) false pq
              (e - 2) (new_location 7074237752028440 r))
    as (m' & e' & -> & Hb & He' & Herr); [lia | lia | lia | lia |].
  exists m', e'. split; [done|]. split; [done|]. split; [done|].
  set (u := 2 ^ (e - 2 + 1074)) in *.
  assert (0 < u) as Hu by (apply Z.pow_pos_nonneg; lia).
  assert (2 ^ (e + 1074) = 4 * u) as ->.
  { unfold u. replace (e + 1074) with (2 + (e - 2 + 1074)) by lia.
    by rewrite (pow2_split 2) by lia. }
  assert (2 ^ (Z.pos (digits2_pos pq) + (e - 2) - 53 + 1074) <= 2 * u) as Hulp.
  { transitivity (2 ^ (1 + (e - 2 + 1074))).
    - apply Z.pow_le_mono_r; lia.
    - rewrite (pow2_split 1) by lia. done. }
  assert (7074237752028440 * (Z.pos pq * u) + r * u
          = Z.pos m * u * 9007199254740992) as Hdu.
  { transitivity ((7074237752028440 * Z.pos pq + r) * u); [ring|].
    rewrite <- Hdiv. ring. }
  assert (0 <= r * u < 7074237752028440 * u) as Hru by nia.
  assert (4503599627370496 * u <= Z.pos m * u) as Hmu by nia.
  change (2 ^ 54) with 18014398509481984.
  change (2 ^ 51) with 2251799813685248.
  set (vQ := Z.pos m' * 2 ^ (e' + 1074)) in *.
  set (QU := Z.pos pq * u) in *. set (RU := r * u) in *.
  replace (Z.pos m * (4 * u)) with (4 * (Z.pos m * u)) by ring.
  set (MU := Z.pos m * u) in *.
  lia.
Qed.

Lemma bounded_double_exp (m : positive) (e : Z) :
  bounded 53 1024 m e = true -> -1074 <= e.
Proof.
  intros [Hc _]%bounded_inv. revert Hc. unfold fexp, emin. lia.
Qed.

(** The sum of two positive [double]s between 1/2 and 2: half a unit of
    the last place off, 2^-53 at most. *)
Lemma dadd_near (mx my : positive) (ex ey : Z) :
  bounded 53 1024 mx ex = true -> bounded 53 1024 my ey = true ->
  2 ^ 1073 <= Z.pos mx * 2 ^ (ex + 1074) + Z.pos my * 2 ^ (ey + 1074)
           < 2 ^ 1075 ->
  exists m e,
    dadd (S754_finite false mx ex) (S754_finite false my ey)
    = S754_finite false m e
    /\ bounded 53 1024 m e = true
    /\ 2 * Z.abs (Z.pos m * 2 ^ (e + 1074)
                  - (Z.pos mx * 2 ^ (ex + 1074) + Z.pos my * 2 ^ (ey + 1074)))
       <= 2 ^ 1022.
Proof.
  intros Hbx Hby Hv.
  pose proof (bounded_double_exp _ _ Hbx) as Hex.
  pose proof (bounded_double_exp _ _ Hby) as Hey.
  unfold dadd, SFadd. cbv zeta.
  pose proof (aligned_sum_units 1074 false false mx my ex ey ltac:(lia)
                ltac:(lia)) as Hs.
  rewrite !Z.mul_1_l in Hs.
  set (ez := Z.min ex ey) in *.
  assert (0 < 2 ^ (ez + 1074)) as Hpz by (apply Z.pow_pos_nonneg; lia).
  assert (0 < 2 ^ 1073) as Hp by done.
  destruct (cond_Zopp false _ + cond_Zopp false _) as [|p|p]; try lia.
  cbn [binary_normalize].
  assert (Z.pos (digits2_pos p) + ez <= 1) as Hup.
  { apply (digits_upper 1074); [lia|].
    change (2 ^ (1 + 1074)) with (2 ^ 1075). lia. }
  assert (0 <= Z.pos (digits2_pos p) + ez) as Hlo.
  { apply (digits_lower_value 1074); [lia|].
    change (2 ^ (0 - 1 + 1074)) with (2 ^ 1073). lia. }
  destruct (round_units 53 1024 1074 ltac:(lia) ltac:(lia) false p ez)
    as (m' & e' & -> & Hb' & He' & Herr); [lia | lia | lia |].
  assert (2 ^ (Z.pos (digits2_pos p) + ez - 53 + 1074) <= 2 ^ 1022)
    by (apply Z.pow_le_mono_r; lia).
  exists m', e'. split; [done|]. split; [done|].
  rewrite Hs in Herr. lia.
Qed.

(** A [double] between 1/2 and 2 brought to [float]: half a unit of the
    last place off, 2^-24 at most. *)
Lemma d2f_near (m : positive) (e : Z) :
  bounded 53 1024 m e = true ->
  2 ^ 1073 <= Z.pos m * 2 ^ (e + 1074) < 2 ^ 1075 ->
  exists m' e',
    d2f (S754_finite false m e) = S754_finite false m' e'
    /\ bounded 24 128 m' e' = true
    /\ 2 * Z.abs (Z.pos m' * 2 ^ (e' + 149) * 2 ^ 925
                  - Z.pos m * 2 ^ (e + 1074)) <= 2 ^ 1051.
Proof.
  intros Hb Hv. pose proof (bounded_double_exp _ _ Hb) as He.
  unfold d2f, SFconv.
  assert (Z.pos (digits2_pos m) + e <= 1) as Hup.
  { apply (digits_upper 1074); [lia|].
    change (2 ^ (1 + 1074)) with (2 ^ 1075). lia. }
  assert (0 <= Z.pos (digits2_pos m) + e) as Hlo.
  { apply (digits_lower_value 1074); [lia|].
    change (2 ^ (0 - 1 + 1074)) with (2 ^ 1073). lia. }
  destruct (round_units 24 128 1074 ltac:(lia) ltac:(lia) false m e)
    as (m' & e' & -> & Hb' & He' & Herr); [lia | lia | lia |].
  assert (2 ^ (Z.pos (digits2_pos m) + e - 24 + 1074) <= 2 ^ 1051)
    by (apply Z.pow_le_mono_r; lia).
  destruct (bounded_canonical _ _ Hb') as (_ & _ & He149 & _).
  exists m', e'. split; [done|]. split; [done|].
  rewrite <- Z.mul_assoc, <- pow2_split by lia.
  replace (e' + 149 + 925) with (e' + 1074) by lia. lia.
Qed.

Lemma scale_error (x y c E : Z) :
  0 < c -> 2 * Z.abs (x - y) <= E -> 2 * Z.abs (x * c - y * c) <= E * c.
Proof.
  intros Hc H. rewrite <- Z.mul_sub_distr_r, Z.abs_mul, (Z.abs_eq c) by lia.
  nia.
Qed.

(** The centre tap, [(float)(1 - alpha + 4*alpha/M_PI)], against
    [1 - alpha + Q], where [Q] is the [double] quotient [4*alpha/M_PI]:
    all values in units of 2^-1074. *)
Lemma rrc_center_near (m : positive) (e : Z) :
  bounded 24 128 m e = true -> Z.pos m * 2 ^ (e + 149) <= 2 ^ 149 ->
  exists (Q : Z) (m' : positive) (e' : Z),
    d2f (rrc_center (S754_finite false m e)) = S754_finite false m' e'
    /\ bounded 24 128 m' e' = true
    /\ 2 ^ 54 * Z.abs (Q * 7074237752028440
                       - 4 * (Z.pos m * 2 ^ (e + 149) * 2 ^ 925) * 2 ^ 51)
       <= 3 * 7074237752028440 * (4 * (Z.pos m * 2 ^ (e + 149) * 2 ^ 925))
    /\ 2 * Z.abs (Z.pos m' * 2 ^ (e' + 149) * 2 ^ 925
                  - (2 ^ 1074 - Z.pos m * 2 ^ (e + 149) * 2 ^ 925 + Q))
       <= 2 ^ 1051 + 2 ^ 1022 + 2 ^ 1050.
Proof.
  intros Hb Hle. unfold rrc_center.
  destruct (bounded_canonical _ _ Hb) as (_ & _ & He & _).
  destruct (fsub_one m e Hb Hle) as (HvA & HA0 & HAerr).
  destruct (fmul_four m e Hb Hle) as (mB & eB & -> & HbB & HvB).
  destruct (f2d_value false mB eB HbB)
    as (mX & eX & -> & HbX & HdX & HeX & HvX).
  assert (0 < 2 ^ (e + 149)) as Hpe by (apply Z.pow_pos_nonneg; lia).
  set (a := Z.pos m * 2 ^ (e + 149)) in *.
  assert (0 < a) as Ha by (unfold a; lia).
  apply (scale_error _ _ (2 ^ 925)) in HAerr; [|done].
  rewrite Z.mul_sub_distr_r in HAerr.
  change (2 ^ 149 * 2 ^ 925) with (2 ^ 1074) in HAerr.
  change (2 ^ 125 * 2 ^ 925) with (2 ^ 1050) in HAerr.
  assert (a * 2 ^ 925 <= 2 ^ 1074) as Ha1.
  { change (2 ^ 1074) with (2 ^ 149 * 2 ^ 925).
    apply Z.mul_le_mono_nonneg_r; [done|lia]. }
  assert (0 < a * 2 ^ 925) as Ha0 by (apply Z.mul_pos_pos; [lia|done]).
  rewrite HvB in HvX.
  replace (4 * a * 2 ^ 925) with (4 * (a * 2 ^ 925)) in HvX by ring.
  set (a' := a * 2 ^ 925) in *.
  assert (eX <= 0) as HeX0.
  { assert (Z.pos (digits2_pos mX) + eX <= 3); [|lia].
    apply (digits_upper 1074); [lia|]. rewrite HvX.
    change (2 ^ (3 + 1074)) with (8 * 2 ^ 1074). lia. }
  destruct (ddiv_pi mX eX HdX ltac:(lia))
    as (mQ & eQ & -> & HbQ & HeQ & HQ).
  rewrite HvX in HQ.
  set (vQ := Z.pos mQ * 2 ^ (eQ + 1074)) in *.
  exists vQ.
  change (2 ^ 54) with 18014398509481984 in HQ |- *.
  change (2 ^ 51) with 2251799813685248 in HQ |- *.
  destruct (fsub (f_of_Z 1) (S754_finite false m e))
    as [sA|sA| |sA mA eA] eqn:HA.
  - (* [1 - alpha] is zero *)
    change (f2d (S754_zero sA)) with (S754_zero sA).
    change (dadd (S754_zero sA) (S754_finite false mQ eQ))
      with (S754_finite false mQ eQ).
    cbn [exact32] in HAerr. rewrite Z.mul_0_l in HAerr.
    destruct (d2f_near mQ eQ HbQ) as (m' & e' & -> & Hb' & Herr).
    { fold vQ. change (2 ^ 1073) with (2 ^ 1074 / 2).
      change (2 ^ 1075) with (2 * 2 ^ 1074).
      change (2 ^ 1050) with (2 ^ 1074 / 16777216) in HAerr.
      set (K := 2 ^ 1074) in *.
      assert (K = 16777216 * (K / 16777216)) by reflexivity.
      assert (K = 2 * (K / 2)) by reflexivity.
      lia. }
    exists m', e'. split; [done|]. split; [done|]. split; [done|].
    fold vQ in Herr.
    assert (0 <= 2 ^ 1022) by done. lia.
  - destruct HvA as [_ Hf]. done.
  - destruct HvA as [_ Hf]. done.
  - (* [1 - alpha] is a positive number *)
    destruct HvA as [HbA _]. cbn [valid_binary] in HbA.
    destruct (bounded_canonical _ _ HbA) as (_ & _ & HeA & _).
    assert (0 < 2 ^ (eA + 149)) as HpA by (apply Z.pow_pos_nonneg; lia).
    cbn [exact32] in HA0, HAerr.
    destruct sA; [exfalso; lia|]. rewrite Z.mul_1_l in HAerr.
    destruct (f2d_value false mA eA HbA)
      as (mA' & eA' & -> & HbA' & _ & _ & HvA').
    set (vA := Z.pos mA * 2 ^ (eA + 149) * 2 ^ 925) in *.
    change (2 ^ 1050) with (2 ^ 1074 / 16777216) in HAerr |- *.
    destruct (dadd_near mA' mQ eA' eQ HbA' HbQ)
      as (mD & eD & -> & HbD & HDerr).
    { rewrite HvA'. fold vQ. change (2 ^ 1073) with (2 ^ 1074 / 2).
      change (2 ^ 1075) with (2 * 2 ^ 1074).
      set (K := 2 ^ 1074) in *.
      assert (K = 16777216 * (K / 16777216)) by reflexivity.
      assert (K = 2 * (K / 2)) by reflexivity.
      lia. }
    rewrite HvA' in HDerr. fold vQ in HDerr.
    set (vD := Z.pos mD * 2 ^ (eD + 1074)) in *.
    change (2 ^ 1022) with (2 ^ 1074 / 4503599627370496) in HDerr |- *.
    destruct (d2f_near mD eD HbD) as (m' & e' & -> & Hb' & Herr).
    { fold vD. change (2 ^ 1073) with (2 ^ 1074 / 2).
      change (2 ^ 1075) with (2 * 2 ^ 1074).
      set (K := 2 ^ 1074) in *.
      assert (K = 16777216 * (K / 16777216)) by reflexivity.
      assert (K = 4503599627370496 * (K / 4503599627370496)) by reflexivity.
      assert (K = 2 * (K / 2)) by reflexivity.
      lia. }
    exists m', e'. split; [done|]. split; [done|]. split; [done|].
    fold vD in Herr. lia.
Qed.

(* ------------------------------------------------------------------ *)
(** ** The centre tap against the real number [1 − α + 4α/π] *)

(** [2^n] written out. *)
Ltac numeral n :=
  let v := eval vm_compute in (2 ^ n)%Z in
  change (2 ^ n)%Z with v in *.

Section CentreTapReal.
Local Open Scope R_scope.

Lemma PI_bounds : 314159265 / 100000000 <= PI <= 314159266 / 100000000.
Proof.
  pose proof (PI_2_3_7_ineq 4) as H.
  unfold sum_f_R0, tg_alt, PI_2_3_7_tg, Ratan_seq in H.
  simpl in H. lra.
Qed.

(** The error budget: 2^-24 for the conversion to [float], 2^-25 for
    [1 - alpha], 2^-53 for the sum in [double], and what the quotient by
    [M_PI] in place of π costs. *)
Lemma center_tap_budget (t al q : R) :
  0 < al <= 1 ->
  - (3 * 7074237752028440 * (4 * al))
  <= 18014398509481984 * (q * 7074237752028440 - 4 * al * 2251799813685248)
  <= 3 * 7074237752028440 * (4 * al) ->
  - (/ 2 ^ 23 + / 2 ^ 52 + / 2 ^ 24) <= 2 * (t - (1 - al + q))
  <= / 2 ^ 23 + / 2 ^ 52 + / 2 ^ 24 ->
  1 < 1 - al + 4 * al / PI < 2
  /\ Rabs (t - (1 - al + 4 * al / PI)) <= / 2 ^ 23.
Proof.
  intros Hal Hq Ht. pose proof PI_bounds as [Hlo Hhi].
  set (x := 4 * al / PI).
  assert (x * PI = 4 * al) as Hx by (unfold x; field; lra).
  assert (0 < x) as Hx0.
  { unfold x. apply Rdiv_lt_0_compat; lra. }
  assert (0 <= x * (PI - 314159265 / 100000000)) as H1
    by (apply Rmult_le_pos; lra).
  assert (0 <= x * (314159266 / 100000000 - PI)) as H2
    by (apply Rmult_le_pos; lra).
  rewrite Rmult_minus_distr_l in H1, H2.
  set (p := x * PI) in *.
  split; [lra|]. apply Rabs_le. lra.
Qed.

(** The centre tap is within 2^-23, one unit of the last place of the
    [float]s between 1 and 2, of [1 − α + 4α/π]. *)
Lemma rrc_center_real (alpha : float) :
  valid32 alpha -> 0 < real32 alpha <= 1 ->
  valid32 (d2f (rrc_center alpha))
  /\ 1 < 1 - real32 alpha + 4 * real32 alpha / PI < 2
  /\ Rabs (real32 (d2f (rrc_center alpha))
           - (1 - real32 alpha + 4 * real32 alpha / PI)) <= / 2 ^ 23.
Proof.
  intros [Hv _] [H0 H1].
  assert (0 < IZR (2 ^ 149)) as HP by (apply IZR_lt; done).
  assert (IZR (exact32 alpha) = real32 alpha * IZR (2 ^ 149)) as Hval
    by (unfold real32; field; lra).
  assert (0 < exact32 alpha <= 2 ^ 149)%Z as [Ha0 Ha1].
  { split.
    - apply lt_IZR. rewrite Hval. by apply Rmult_lt_0_compat.
    - apply le_IZR. rewrite Hval.
      rewrite <- (Rmult_1_l (IZR (2 ^ 149))) at 2.
      apply Rmult_le_compat_r; lra. }
  destruct alpha as [s|s| |s m e]; try (cbn in Ha0; lia).
  cbn [valid_binary] in Hv.
  destruct (bounded_canonical _ _ Hv) as (_ & _ & He & _).
  assert (0 < 2 ^ (e + 149))%Z as Hpe by (apply Z.pow_pos_nonneg; lia).
  cbn [exact32] in Ha0, Ha1. destruct s; [lia|].
  rewrite Z.mul_1_l in Ha0, Ha1.
  destruct (rrc_center_near m e Hv Ha1) as (Q & m' & e' & -> & Hb' & HQ & HE).
  split; [by split|].
  unfold real32. cbn [exact32]. rewrite !Z.mul_1_l.
  set (a := (Z.pos m * 2 ^ (e + 149))%Z) in *.
  set (vT := (Z.pos m' * 2 ^ (e' + 149))%Z) in *.
  assert (- (3 * 7074237752028440 * (4 * (a * 2 ^ 925)))
          <= 2 ^ 54 * (Q * 7074237752028440 - 4 * (a * 2 ^ 925) * 2 ^ 51)
          <= 3 * 7074237752028440 * (4 * (a * 2 ^ 925)))%Z as [Q1 Q2] by lia.
  assert (- (2 ^ 1051 + 2 ^ 1022 + 2 ^ 1050)
          <= 2 * (vT * 2 ^ 925 - (2 ^ 1074 - a * 2 ^ 925 + Q))
          <= 2 ^ 1051 + 2 ^ 1022 + 2 ^ 1050)%Z as [E1 E2] by lia.
  clear HQ HE.
  clear H0 H1 Hval Hpe. numeral 149%Z. numeral 925%Z. numeral 54%Z.
  numeral 51%Z. numeral 1051%Z. numeral 1022%Z. numeral 1050%Z.
  numeral 1074%Z.
  apply IZR_le in Q1, Q2, E1, E2, Ha1. apply IZR_lt in Ha0.
  repeat rewrite ?opp_IZR, ?mult_IZR, ?minus_IZR, ?plus_IZR in Q1.
  repeat rewrite ?opp_IZR, ?mult_IZR, ?minus_IZR, ?plus_IZR in Q2.
  repeat rewrite ?opp_IZR, ?mult_IZR, ?minus_IZR, ?plus_IZR in E1.
  repeat rewrite ?opp_IZR, ?mult_IZR, ?minus_IZR, ?plus_IZR in E2.
  apply (center_tap_budget _ _
           (IZR Q / 202402253307310618352495346718917307049556649764142118356901358027430339567995346891960383701437124495187077864316811911389808737385793476867013399940738509921517424276566361364466907742093216341239767678472745068562007483424692698618103355649159556340810056512358769552333414615230502532186327508646006263307707741093494784)).
  - split; lra.
  - split; lra.
  - split; lra.
Qed.

End CentreTapReal.

Section RRCCentre.
Variables sin cos : double -> double.

(** C3: for every order (with [2·order+1] inside the range of [int]),
    factor, oversampling factor and roll-off α that is a [float] with
    [0 < α <= 1], [filter_rrc] makes an FIR filter with exactly
    [2·order+1] taps, and its centre tap [taps[order]] equals
    [1 − α + 4α/π] within one unit of the last place: the tap is a finite
    [float], the real number [1 − α + 4α/π] lies between 1 and 2, where
    neighbouring [float]s are 2^-23 apart, and the tap is no more than
    2^-23 away from it.  The tap is the expression
    [1-alpha+4*alpha/M_PI] as the code evaluates it: the difference and
    the product in [float], the quotient and the sum in [double], the
    result brought to [float], stored as a [double] and read back. *)
Theorem filter_rrc_center (order factor : Z) (osf alpha : float) :
  0 <= order -> 2 * order + 1 <= INT_MAX ->
  valid32 alpha -> (0 < real32 alpha <= 1)%R ->
  exists f tap,
    filter_rrc sin cos order factor osf alpha = Some f
    /\ back_count f = 0
    /\ fwd_count f = 2 * order + 1
    /\ Z.of_nat (length (fwd_coeff f)) = 2 * order + 1
    /\ load (fwd_coeff f) order = Some tap
    /\ tap = d2f (f2d (d2f
               (dadd (f2d (fsub (f_of_Z 1) alpha))
                     (ddiv (f2d (fmul (f_of_Z 4) alpha)) M_PI))))
    /\ valid32 tap
    /\ (1 < 1 - real32 alpha + 4 * real32 alpha / PI < 2)%R
    /\ (Rabs (real32 tap - (1 - real32 alpha + 4 * real32 alpha / PI))
        <= / 2 ^ 23)%R.
Proof.
  intros H0 H1 Hv Ha.
  destruct (filter_rrc_spec sin cos order factor osf alpha H0 H1)
    as (f & Hf & Hwf & HM & HN & _ & Htap).
  destruct (rrc_center_real alpha Hv Ha) as (Hvt & Hr & Herr).
  assert (d2f (f2d (d2f (rrc_center alpha))) = d2f (rrc_center alpha)) as Hrt
    by (apply d2f_f2d, Hvt).
  exists f, (d2f (f2d (d2f (rrc_center alpha)))).
  split; [done|]. split; [done|]. split; [done|].
  split; [destruct Hwf; lia|].
  split.
  { rewrite Htap by lia.
    rewrite compute_rrc_coeff_center; [done..|].
    unfold INT_MAX, UINT_MAX in *. lia. }
  split; [done|]. rewrite Hrt. done.
Qed.

End RRCCentre.

Lemma filter_rrc_center_witness :
  (valid32 Examples.half /\ (0 < real32 Examples.half <= 1)%R)
  /\ exists f tap,
      filter_rrc (fun x => x) (fun x => x) 32 2 (f_of_Z 1) Examples.half
      = Some f
      /\ back_count f = 0
      /\ fwd_count f = 2 * 32 + 1
      /\ Z.of_nat (length (fwd_coeff f)) = 2 * 32 + 1
      /\ load (fwd_coeff f) 32 = Some tap
      /\ tap = d2f (f2d (d2f
                 (dadd (f2d (fsub (f_of_Z 1) Examples.half))
                       (ddiv (f2d (fmul (f_of_Z 4) Examples.half)) M_PI))))
      /\ valid32 tap
      /\ (1 < 1 - real32 Examples.half + 4 * real32 Examples.half / PI < 2)%R
      /\ (Rabs (real32 tap
                - (1 - real32 Examples.half + 4 * real32 Examples.half / PI))
          <= / 2 ^ 23)%R.
Proof.
  assert (0 <= 32) as H0 by lia.
  assert (2 * 32 + 1 <= INT_MAX) as H1 by (vm_compute; discriminate).
  assert (valid32 Examples.half) as Hv by (split; reflexivity).
  assert (0 < real32 Examples.half <= 1)%R as Ha.
  { unfold real32.
    change (exact32 Examples.half)
      with 356811923176489970264571492362373784095686656.
    change (2 ^ 149) with 713623846352979940529142984724747568191373312.
    lra. }
  split; [done|].
  exact (filter_rrc_center (fun x => x) (fun x => x) 32 2
           (f_of_Z 1) Examples.half H0 H1 Hv Ha).
Defined.

(* ------------------------------------------------------------------ *)
(** ** More on the filter engine: [filter_copy], the limits of
       [filter_fwd], streams *)

Lemma for_up_fails {S} (body : Z -> S -> option S) (n : nat) (i j : Z) (s : S) :
  (forall s', body j s' = None) -> i <= j < i + Z.of_nat n ->
  for_up n i body s = None.
Proof.
  intros Hj. revert i s. induction n as [|n IH]; intros i s Hij; [lia|].
  cbn [for_up]. destruct (decide (i = j)) as [->|Hne].
  - by rewrite Hj.
  - destruct (body i s) as [s'|]; [|done]. cbn. apply IH. lia.
Qed.

Lemma mapM_load_all {A} (a : list A) (n : Z) :
  0 <= n <= Z.of_nat (length a) ->
  mapM (fun i => load a i) (seqZ 0 n) = Some (take (Z.to_nat n) a).
Proof.
  intros Hn. apply mapM_Some, Forall2_same_length_lookup_2.
  - rewrite length_seqZ, length_take. lia.
  - intros i x y [-> Hi]%lookup_seqZ.
    rewrite lookup_take_lt by lia.
    replace (0 + Z.of_nat i) with (Z.of_nat i) by lia.
    by rewrite load_lookup.
Qed.

Section FilterMore.
Context {O : SampleOps}.
Implicit Types f g : Filter O.

Lemma filter_new_shape (M N : Z) (fwd back : list dcoef) :
  1 <= M -> 0 <= N ->
  M <= Z.of_nat (length fwd) -> N <= Z.of_nat (length back) ->
  filter_new M N fwd back
  = Some {| fwd_count := M; back_count := N;
            fwd_coeff := coef_of_double <$> take (Z.to_nat M) fwd;
            back_coeff := coef_of_double <$> take (Z.to_nat N) back;
            mem := replicate (Z.to_nat M) czero |}.
Proof.
  intros HM HN Hf Hb. unfold filter_new.
  rewrite decide_True by lia.
  rewrite (mapM_load _ fwd) by lia. cbn [mbind option_bind].
  destruct (decide (N <> 0)) as [HN0|HN0].
  - by rewrite (mapM_load _ back) by lia.
  - assert (N = 0) as -> by lia. done.
Qed.

Lemma mapM_load_is_Some {A B} (g : A -> B) (a : list A) (n : Z) :
  0 <= n ->
  (is_Some (mapM (fun i => g <$> load a i) (seqZ 0 n))
   <-> n <= Z.of_nat (length a)).
Proof.
  intros Hn. split.
  - intros Hs. destruct (Z.le_gt_cases n (Z.of_nat (length a))) as [|Hgt];
      [done|].
    exfalso. apply mapM_is_Some in Hs.
    rewrite Forall_seqZ in Hs.
    specialize (Hs (Z.of_nat (length a)) ltac:(lia)). cbn in Hs.
    rewrite load_lookup, lookup_ge_None_2 in Hs by lia.
    by destruct Hs.
  - intros Hle. rewrite mapM_load by lia. done.
Qed.

(** X3: [filter_new] reads the first [fwd_count] entries of the first
    array and, when there are feedback taps, the first [back_count]
    entries of the second: it is defined exactly when the arrays passed
    are that long.  With no feed-forward taps neither array is read. *)
Theorem filter_new_defined_iff (M N : Z) (fwd back : list dcoef) :
  0 <= M -> 0 <= N ->
  (is_Some (filter_new M N fwd back)
   <-> M = 0
       \/ (M <= Z.of_nat (length fwd)
           /\ (N = 0 \/ N <= Z.of_nat (length back)))).
Proof.
  intros HM HN. unfold filter_new.
  destruct (decide (M <> 0)) as [HM0|HM0]; [|split; [lia|done]].
  pose proof (mapM_load_is_Some coef_of_double fwd M HM) as Hf.
  pose proof (mapM_load_is_Some coef_of_double back N HN) as Hb.
  destruct (mapM _ (seqZ 0 M)) as [fc|].
  - cbn [mbind option_bind].
    assert (M <= Z.of_nat (length fwd)) as HMl by (by apply Hf).
    destruct (decide (N <> 0)) as [HN0|HN0].
    + destruct (mapM _ (seqZ 0 N)) as [bc|]; cbn.
      * split; [|done]. intros _. right. split; [done|]. right. by apply Hb.
      * split; [by intros []|].
        intros [?|[_ [?|Hl]]]; [lia | lia |].
        apply Hb in Hl. by destruct Hl.
    + cbn. split; [|done]. intros _. right. split; [done|]. left. lia.
  - cbn. split; [by intros []|].
    intros [?|[Hl _]]; [lia|]. apply Hf in Hl. by destruct Hl.
Qed.

Lemma filter_copy_wf f :
  filter_wf f ->
  filter_copy f
  = Some (set_mem f (replicate (Z.to_nat (fwd_count f)) czero)).
Proof.
  intros [Ht Hb Hfl Hml Hbl]. unfold filter_copy, set_mem.
  rewrite decide_True by lia.
  rewrite (mapM_load_all (fwd_coeff f)) by lia. cbn [mbind option_bind].
  rewrite take_ge by lia.
  destruct (decide (back_count f <> 0)) as [HN0|HN0].
  - rewrite (mapM_load_all (back_coeff f)) by lia. cbn [mbind option_bind].
    by rewrite take_ge by lia.
  - cbn. destruct (back_coeff f); [done|]. cbn in Hbl. lia.
Qed.

Lemma filter_run_wf f (xs : list sample) :
  filter_wf f ->
  exists ys g,
    filter_run f xs = Some (ys, g) /\ filter_wf g /\ same_taps f g
    /\ length ys = length xs.
Proof.
  revert f. induction xs as [|x xs IH]; intros f Hwf.
  - exists [], f. split; [done|]. split; [done|]. by split.
  - cbn [filter_run]. rewrite filter_fwd_spec by done. cbn [mbind option_bind].
    destruct (IH (set_mem f (advance_mem f x))) as (ys & g & -> & Hg & Ht & Hl).
    { apply set_mem_wf; [done|]. by apply length_advance_mem. }
    eexists _, g. split; [done|]. split; [done|]. split; [exact Ht|].
    cbn. by rewrite Hl.
Qed.

Lemma filter_eq f g :
  same_taps f g -> mem f = mem g -> f = g.
Proof.
  destruct f, g. unfold same_taps. cbn. intros (? & ? & ? & ?) ?. by subst.
Qed.

(** X1: [filter_copy] gives a filter with the counts and coefficients of the
    original and a delay line of zeros, whatever the delay line of the
    original holds; the copy is again a filter [filter_fwd] works on. *)
Theorem filter_copy_clears_delay_line f :
  filter_wf f ->
  exists c,
    filter_copy f = Some c
    /\ filter_wf c /\ same_taps f c
    /\ mem c = replicate (Z.to_nat (fwd_count f)) czero
    /\ length (mem c) = length (mem f)
    /\ count_nonzero (mem c) = 0%nat.
Proof.
  intros Hwf. rewrite filter_copy_wf by done. eexists. split; [done|].
  assert (length (replicate (Z.to_nat (fwd_count f)) (czero : sample))
          = length (mem f)) as Hlen.
  { rewrite length_replicate. destruct Hwf. lia. }
  split_and!.
  - by apply set_mem_wf.
  - done.
  - done.
  - exact Hlen.
  - cbn. apply count_nonzero_zeros.
Qed.

(** X2: a filter made by [filter_new], fed any samples and then copied, gives
    back the filter as [filter_new] made it. *)
Theorem filter_copy_restores_new (M N : Z) (fwd back : list dcoef)
    (xs : list sample) :
  1 <= M <= INT_MAX -> 0 <= N <= M ->
  M <= Z.of_nat (length fwd) -> N <= Z.of_nat (length back) ->
  exists f ys g,
    filter_new M N fwd back = Some f
    /\ filter_run f xs = Some (ys, g)
    /\ filter_copy g = Some f.
Proof.
  intros HM HN Hf Hb.
  destruct (filter_new_spec M N fwd back)
    as (f & Hnew & Hwf & HfM & HfN & _ & Hmem); [lia..|].
  destruct (filter_run_wf f xs Hwf) as (ys & g & Hrun & Hg & Ht & _).
  exists f, ys, g. split; [done|]. split; [done|].
  rewrite filter_copy_wf by done. f_equal. symmetry. apply filter_eq.
  - destruct Ht as (?&?&?&?). by repeat split.
  - cbn. destruct Ht as (<-&_). by rewrite Hmem, HfM.
Qed.

(** X4: a filter made by [filter_new] can be fed exactly when it has at least
    one feed-forward tap and no more feedback taps than feed-forward
    ones: otherwise [filter_fwd] reaches outside the delay line. *)
Theorem filter_fwd_defined_iff (M N : Z) (fwd back : list dcoef) (x : sample) :
  0 <= M <= INT_MAX -> 0 <= N <= INT_MAX ->
  M <= Z.of_nat (length fwd) -> N <= Z.of_nat (length back) ->
  exists f,
    filter_new M N fwd back = Some f
    /\ (is_Some (filter_fwd f x) <-> 1 <= M /\ N <= M).
Proof.
  intros HM HN Hf Hb. destruct (decide (M = 0)) as [->|HM0].
  - eexists. split; [reflexivity|]. split; [|lia].
    intros [r Hr]. exfalso. revert Hr. unfold filter_fwd.
    destruct (feedback _ _) as [x'|]; [|done]. cbn. done.
  - rewrite filter_new_shape by lia. eexists. split; [reflexivity|].
    set (f := mkFilter _ _ _ _ _).
    destruct (decide (N <= M)) as [HNM|HNM].
    + split; [lia|]. intros _. rewrite filter_fwd_spec; [done|].
      split; cbn; rewrite ?length_fmap, ?length_take, ?length_replicate; lia.
    + split; [|lia]. intros [r Hr]. exfalso. revert Hr. unfold filter_fwd.
      assert (feedback f x = None) as ->; [|done].
      unfold feedback. apply (for_up_fails _ _ _ M).
      * intros s. unfold f. cbn [mem]. rewrite !load_nonneg by lia.
        by rewrite (lookup_ge_None_2 (replicate _ _))
          by (rewrite length_replicate; lia).
      * unfold trip_count, f. cbn [back_count].
        rewrite to_int_id by (unfold INT_MAX in *; lia). lia.
Qed.

Lemma products_back0 (m : list sample) (c1 c2 : list coef) (N : nat) :
  drop 1 c1 = drop 1 c2 -> length c1 = length c2 ->
  products m c1 1 N = products m c2 1 N.
Proof.
  unfold products. destruct m as [|x m]; [done|].
  destruct c1 as [|a c1], c2 as [|b c2]; try done.
  intros Hd _. cbn [drop] in Hd. rewrite !drop_0 in Hd. subst c2.
  destruct N as [|n]; [done|]. done.
Qed.

Lemma filter_run_back0 f g (xs : list sample) :
  filter_wf f -> filter_wf g ->
  fwd_count f = fwd_count g -> back_count f = back_count g ->
  fwd_coeff f = fwd_coeff g -> drop 1 (back_coeff f) = drop 1 (back_coeff g) ->
  mem f = mem g ->
  exists ys f' g',
    filter_run f xs = Some (ys, f') /\ filter_run g xs = Some (ys, g')
    /\ mem f' = mem g'.
Proof.
  revert f g. induction xs as [|x xs IH]; intros f g Hf Hg HM HN Hfc Hbc Hm.
  - by exists [], f, g.
  - cbn [filter_run]. rewrite !filter_fwd_spec by done.
    cbn [mbind option_bind].
    assert (advance_mem f x = advance_mem g x) as Hadv.
    { unfold advance_mem, advance_input. rewrite Hm, HN.
      rewrite (products_back0 _ (back_coeff f) (back_coeff g)); [done..|].
      destruct Hf, Hg. lia. }
    assert (advance_output f x = advance_output g x) as Hout.
    { unfold advance_output. by rewrite Hadv, Hfc, HM. }
    destruct (IH (set_mem f (advance_mem f x)) (set_mem g (advance_mem g x)))
      as (ys & f' & g' & -> & -> & Hm'); try done.
    { apply set_mem_wf; [done|]. by apply length_advance_mem. }
    { apply set_mem_wf; [done|]. by apply length_advance_mem. }
    cbn. rewrite Hout. by exists (advance_output g x :: ys), f', g'.
Qed.

(** X5: the first feedback coefficient is never used: the loop over the
    feedback taps starts at 1, and changing [back_coeff[0]] changes no
    output and no delay line. *)
Theorem filter_run_ignores_back0 f (c : coef) (xs : list sample) :
  filter_wf f ->
  exists ys f' g',
    filter_run f xs = Some (ys, f')
    /\ filter_run {| fwd_count := fwd_count f; back_count := back_count f;
                     fwd_coeff := fwd_coeff f;
                     back_coeff := <[0%nat := c]> (back_coeff f);
                     mem := mem f |} xs
       = Some (ys, g')
    /\ mem g' = mem f'.
Proof.
  intros Hwf.
  destruct (filter_run_back0 f
              {| fwd_count := fwd_count f; back_count := back_count f;
                 fwd_coeff := fwd_coeff f;
                 back_coeff := <[0%nat := c]> (back_coeff f);
                 mem := mem f |} xs)
    as (ys & f' & g' & H1 & H2 & Hm); try done.
  - destruct Hwf. split; cbn; try done. by rewrite length_insert.
  - cbn. by destruct (back_coeff f).
  - by exists ys, f', g'.
Qed.


End FilterMore.

Section FirMore.
Context {O : SampleOps}.
Implicit Types f g : Filter O.

Lemma take_app_take {A} (n : nat) (a b : list A) :
  take n (a ++ take n b) = take n (a ++ b).
Proof. rewrite !take_app, take_take. do 2 f_equal. lia. Qed.

Lemma advance_mem_fir f (x : sample) :
  filter_wf f -> back_count f <= 1 ->
  advance_mem f x = take (length (mem f)) (x :: mem f).
Proof.
  intros Hwf HN. unfold advance_mem. rewrite advance_input_fir by done.
  pose proof (take_snoc_removelast [] (mem f) x) as Ht. cbn [app] in Ht.
  rewrite <- Ht. rewrite take_ge; [done|].
  cbn [length]. rewrite length_removelast. destruct Hwf. lia.
Qed.

(** The window of the last [M] samples after [k + 1] inputs. *)
Lemma fir_window f (x : sample) (xs : list sample) :
  filter_wf f -> back_count f <= 1 ->
  take (length (mem f)) (reverse xs ++ advance_mem f x)
  = take (length (mem f)) (reverse (x :: xs) ++ mem f).
Proof.
  intros Hwf HN. rewrite advance_mem_fir by done.
  rewrite take_app_take, reverse_cons, <- app_assoc. done.
Qed.

Lemma fir_run_outputs f (xs : list sample) :
  filter_wf f -> back_count f <= 1 ->
  exists ys g,
    filter_run f xs = Some (ys, g)
    /\ length ys = length xs
    /\ mem g = take (length (mem f)) (reverse xs ++ mem f)
    /\ same_taps f g
    /\ forall k, (k < length xs)%nat ->
        ys !! k
        = Some (sigma (products
                         (take (length (mem f))
                               (reverse (take (S k) xs) ++ mem f))
                         (fwd_coeff f) 0 (Z.to_nat (fwd_count f)))).
Proof.
  revert f. induction xs as [|x xs IH]; intros f Hwf HN.
  - exists [], f. split_and!; try done.
    + cbn. by rewrite take_ge.
    + cbn. lia.
  - cbn [filter_run]. rewrite filter_fwd_spec by done. cbn [mbind option_bind].
    destruct (IH (set_mem f (advance_mem f x)))
      as (ys & g & -> & Hlen & Hg & Ht & Hout).
    { apply set_mem_wf; [done|]. by apply length_advance_mem. }
    { done. }
    cbn [mem set_mem fwd_coeff fwd_count] in Hg, Hout.
    rewrite length_advance_mem in Hg, Hout by done.
    eexists _, g. split; [done|]. split_and!.
    + cbn. by rewrite Hlen.
    + rewrite Hg. by apply fir_window.
    + exact Ht.
    + intros [|k] Hk.
      * cbn [lookup list_lookup take reverse]. f_equal.
        unfold advance_output. do 2 f_equal.
        rewrite advance_mem_fir by done. done.
      * cbn [lookup list_lookup]. rewrite Hout by (cbn in Hk; lia).
        do 3 f_equal. rewrite fir_window by done. done.
Qed.

(** X7: every output of an FIR filter is the weighted sum over the window of
    the last [M] samples: the inputs so far, newest first, followed by
    what the delay line held at the start.  Once [M] samples have been
    fed, the outputs depend on the inputs only. *)
Theorem fir_output_window f (xs : list sample) :
  filter_wf f -> back_count f <= 1 ->
  exists ys g,
    filter_run f xs = Some (ys, g)
    /\ length ys = length xs
    /\ (forall k, (k < length xs)%nat ->
          ys !! k
          = Some (sigma (products
                           (take (length (mem f))
                                 (reverse (take (S k) xs) ++ mem f))
                           (fwd_coeff f) 0 (Z.to_nat (fwd_count f)))))
    /\ (forall k, (k < length xs)%nat -> (length (mem f) <= S k)%nat ->
          ys !! k
          = Some (sigma (products
                           (take (length (mem f)) (reverse (take (S k) xs)))
                           (fwd_coeff f) 0 (Z.to_nat (fwd_count f))))).
Proof.
  intros Hwf HN.
  destruct (fir_run_outputs f xs Hwf HN) as (ys & g & Hrun & Hlen & _ & _ & Hout).
  exists ys, g. split_and!; try done.
  intros k Hk HM. rewrite Hout by done. do 3 f_equal.
  rewrite take_app_le; [done|].
  rewrite length_reverse, length_take. lia.
Qed.

(** X8: an FIR filter forgets the state it started in: two instances with
    the same coefficients, whatever their delay lines hold, are in the
    same state after any [M] or more common inputs, and their outputs
    agree from the [M]-th on. *)
Theorem fir_forgets_initial_state f g (xs : list sample) :
  filter_wf f -> filter_wf g -> same_taps f g -> back_count f <= 1 ->
  (length (mem f) <= length xs)%nat ->
  exists ys zs h,
    filter_run f xs = Some (ys, h)
    /\ filter_run g xs = Some (zs, h)
    /\ drop (length (mem f) - 1) ys = drop (length (mem f) - 1) zs.
Proof.
  intros Hf Hg Ht HN Hlen.
  assert (length (mem g) = length (mem f)) as Hmg.
  { destruct Hf, Hg, Ht as (?&?&?&?). lia. }
  assert (back_count g <= 1) as HNg by (destruct Ht as (?&<-&?); done).
  destruct (fir_run_outputs f xs Hf HN) as (ys & f' & Hrf & Hly & Hmf & Htf & Hof).
  destruct (fir_run_outputs g xs Hg HNg) as (zs & g' & Hrg & Hlz & Hmg' & Htg & Hog).
  assert (f' = g') as <-.
  { apply filter_eq.
    - destruct Ht as (?&?&?&?), Htf as (?&?&?&?), Htg as (?&?&?&?).
      repeat split; congruence.
    - rewrite Hmf, Hmg', Hmg.
      rewrite !take_app_le by (rewrite length_reverse; lia). done. }
  exists ys, zs, f'. split_and!; try done.
  apply list_eq. intros i. rewrite !lookup_drop.
  destruct (decide (length (mem f) - 1 + i < length xs)%nat) as [Hi|Hi].
  - rewrite Hof, Hog by done. rewrite Hmg.
    destruct Ht as (HM & _ & Hfc & _). rewrite <- HM, <- Hfc.
    do 3 f_equal.
    rewrite !take_app_le by (rewrite length_reverse, length_take; lia). done.
  - rewrite !lookup_ge_None_2 by lia. done.
Qed.

End FirMore.

(* ------------------------------------------------------------------ *)
(** ** Taps that are no numbers *)

Lemma fmul_not_finite (x c : float) :
  is_finite c = false -> is_finite (fmul x c) = false.
Proof. by destruct x, c. Qed.

Lemma fadd_not_finite_r (x y : float) :
  is_finite y = false -> is_finite (fadd x y) = false.
Proof. destruct x as [| [] | |], y as [| [] | |]; done. Qed.

Lemma fadd_not_finite_l (x y : float) :
  is_finite x = false -> is_finite (fadd x y) = false.
Proof. destruct x as [| [] | |], y as [| [] | |]; done. Qed.

Lemma sigma_not_finite (ts : list complex) (t : complex) :
  t ∈ ts -> is_finite (re t) = false -> is_finite (im t) = false ->
  is_finite (re (sigma ts)) = false /\ is_finite (im (sigma ts)) = false.
Proof.
  intros Hin Hre Him. induction Hin as [t ts|t u ts Hin IH]; cbn.
  - split; by apply fadd_not_finite_r.
  - destruct IH as [IHre IHim]; [done..|].
    split; by apply fadd_not_finite_l.
Qed.

Lemma advance_output_not_finite (f : Filter complex32) (x : complex)
    (j : nat) (c : float) :
  filter_wf f -> fwd_coeff f !! j = Some c -> is_finite c = false ->
  is_finite (re (advance_output f x)) = false
  /\ is_finite (im (advance_output f x)) = false.
Proof.
  intros Hwf Hj Hc. unfold advance_output, products.
  pose proof (length_advance_mem f x Hwf) as Hlen.
  assert (Z.of_nat j < fwd_count f) as Hjl.
  { rewrite <- (wf_fwd_len f Hwf). apply Nat2Z.inj_lt.
    exact (lookup_lt_Some _ _ _ Hj). }
  assert (j < length (advance_mem f x))%nat as Hjm.
  { rewrite Hlen. apply Nat2Z.inj_lt. by rewrite (wf_mem_len f Hwf). }
  destruct (lookup_lt_is_Some_2 (advance_mem f x) j Hjm) as [m Hm].
  apply (sigma_not_finite _ (cplx_scale m c)).
  - rewrite drop_0. apply (list_elem_of_lookup_2 _ j).
    rewrite lookup_take_lt by lia.
    rewrite lookup_zip_with, Hm. cbn [mbind option_bind].
    change (@lookup nat (@coef complex32) _ _ j (fwd_coeff f) = Some c) in Hj.
    by rewrite Hj.
  - by apply fmul_not_finite.
  - by apply fmul_not_finite.
Qed.

(** X9: a tap that is an infinity or no number spoils everything: both parts
    of every output of the filter are infinities or no numbers, whatever
    the inputs are. *)
Theorem nonfinite_tap_spoils_output (f : Filter complex32) (j : nat)
    (c : float) (xs : list complex) :
  filter_wf f -> fwd_coeff f !! j = Some c -> is_finite c = false ->
  exists ys g,
    filter_run f xs = Some (ys, g)
    /\ length ys = length xs
    /\ Forall (fun y => is_finite (re y) = false /\ is_finite (im y) = false)
              ys.
Proof.
  revert f. induction xs as [|x xs IH]; intros f Hwf Hj Hc.
  - by exists [], f.
  - cbn [filter_run]. rewrite filter_fwd_spec by done. cbn [mbind option_bind].
    destruct (IH (set_mem f (advance_mem f x))) as (ys & g & -> & Hl & Hall).
    { apply set_mem_wf; [done|]. by apply length_advance_mem. }
    { done. }
    { done. }
    eexists _, g. split; [done|]. split; [cbn; f_equal; exact Hl|].
    constructor; [|done]. by apply (advance_output_not_finite f x j c).
Qed.
(* ------------------------------------------------------------------ *)
(** ** Symmetry of the RRC taps *)

Section RRCMore.
Variables sin cos : double -> double.

Lemma compute_rrc_coeff_mirror (order k : Z) (osf alpha : float) :
  0 <= order -> 2 * order + 1 <= INT_MAX -> 0 <= k <= order ->
  compute_rrc_coeff sin cos (order - k) (2 * order + 1) osf alpha
  = compute_rrc_coeff sin cos (order + k) (2 * order + 1) osf alpha.
Proof.
  intros H0 H1 Hk. unfold compute_rrc_coeff.
  rewrite rrc_order by (unfold INT_MAX, UINT_MAX in *; lia).
  destruct (decide (k = 0)) as [->|Hk0].
  { by rewrite Z.sub_0_r, Z.add_0_r. }
  rewrite !decide_False by lia. cbv zeta.
  replace (order - (order - k)) with k by lia.
  replace (order - (order + k)) with (- k) by lia.
  rewrite !to_int_id by (unfold INT_MAX in *; lia).
  by rewrite Z.abs_opp.
Qed.

(** X10: the taps of the filter [filter_rrc] makes are symmetric about the
    centre tap, for every [sin] and [cos]: the coefficient depends on the
    stage only through its distance [abs(order - stage_no)] from the
    centre. *)
Theorem filter_rrc_symmetric (order factor : Z) (osf alpha : float) (k : Z) :
  0 <= order -> 2 * order + 1 <= INT_MAX -> 0 <= k <= order ->
  exists f c,
    filter_rrc sin cos order factor osf alpha = Some f
    /\ load (fwd_coeff f) (order - k) = Some c
    /\ load (fwd_coeff f) (order + k) = Some c.
Proof.
  intros H0 H1 Hk.
  destruct (filter_rrc_spec sin cos order factor osf alpha H0 H1)
    as (f & Hf & _ & _ & _ & _ & Htap).
  eexists f, _. split; [done|].
  rewrite !Htap by lia. by rewrite compute_rrc_coeff_mirror.
Qed.

End RRCMore.

Section RRCExact.
Variables sin cos : double -> double.

(** X11: the detour of the coefficients through an array of [double] changes
    nothing: every value [compute_rrc_coeff] returns in the canonical
    form of a [float] is the tap that [filter_rrc] stores. *)
Theorem filter_rrc_taps_exact (order factor : Z) (osf alpha : float) (i : Z) :
  0 <= order -> 2 * order + 1 <= INT_MAX -> 0 <= i < 2 * order + 1 ->
  valid_binary 24 128
    (compute_rrc_coeff sin cos i (2 * order + 1)
       (fmul osf (f_of_Z factor)) alpha) = true ->
  exists f,
    filter_rrc sin cos order factor osf alpha = Some f
    /\ load (fwd_coeff f) i
       = Some (compute_rrc_coeff sin cos i (2 * order + 1)
                 (fmul osf (f_of_Z factor)) alpha).
Proof.
  intros H0 H1 Hi Hv.
  destruct (filter_rrc_spec sin cos order factor osf alpha H0 H1)
    as (f & Hf & _ & _ & _ & _ & Htap).
  exists f. split; [done|]. rewrite Htap by done. by rewrite d2f_f2d.
Qed.

End RRCExact.

(* ------------------------------------------------------------------ *)
(** ** More on the interpolator *)

Lemma length_bind_replicate {A} (l : list A) (L : nat) :
  length (l ≫= replicate L) = (length l * L)%nat.
Proof.
  induction l as [|x l IH]; [done|].
  cbn. rewrite length_app, length_replicate, IH. lia.
Qed.

Lemma lookup_bind_replicate {A} (l : list A) (L i : nat) :
  (0 < L)%nat -> (l ≫= replicate L) !! i = l !! (i / L)%nat.
Proof.
  intros HL. revert i. induction l as [|x l IH]; intros i; [done|].
  cbn [mbind list_bind]. destruct (decide (i < L)%nat) as [Hi|Hi].
  - rewrite lookup_app_l by (rewrite length_replicate; lia).
    rewrite Nat.div_small by lia. cbn. by apply lookup_replicate_2.
  - rewrite lookup_app_r by (rewrite length_replicate; lia).
    rewrite length_replicate, IH.
    replace i with (1 * L + (i - L))%nat at 2 by lia.
    rewrite Nat.div_add_l by lia. done.
Qed.

Lemma interp_inputs_hold (src : list complex) (L k : Z) :
  0 < L -> 0 <= k <= Z.of_nat (length src) ->
  interp_inputs src L (k * L)
  = Some (take (Z.to_nat k) src ≫= replicate (Z.to_nat L)).
Proof.
  intros HL Hk. unfold interp_inputs.
  apply mapM_Some, Forall2_same_length_lookup_2.
  - rewrite length_seqZ, length_bind_replicate, length_take. nia.
  - intros i x y [-> Hi]%lookup_seqZ.
    rewrite lookup_bind_replicate by lia.
    assert (i / Z.to_nat L < Z.to_nat k)%nat as Hq.
    { apply Nat.Div0.div_lt_upper_bound. nia. }
    rewrite lookup_take_lt by done. intros <-.
    rewrite Z.add_0_l, load_nonneg by (apply Z.quot_pos; lia).
    f_equal. rewrite Z.quot_div_nonneg by lia.
    rewrite <- (Z2Nat.id L) at 1 by lia.
    rewrite <- Nat2Z.inj_div. by rewrite Nat2Z.id.
Qed.

Lemma length_block (ys rest : list complex) (n : nat) :
  length ys = n ->
  length ((cplx_div_sqrt2 <$> ys) ++ rest) = (n + length rest)%nat.
Proof. intros <-. by rewrite length_app, length_fmap. Qed.

Section InterpolatorMore.
Variable Src : Type.
Variable src_read : Src -> Z -> Z * Src.
Variable src_data : Src -> list complex.

#[local] Abbreviation interp_read_ := (interp_read Src src_read src_data).
Implicit Types self : Interp Src.

Lemma interp_read_unfold self (cnt produced : Z) (src' : Src) :
  interp_wf self -> 0 < cnt <= INT_MAX ->
  src_read (st_src (_backend self))
           (cnt `quot` st_factor (_backend self)) = (produced, src') ->
  to_size produced <> 0 ->
  interp_read_ self cnt
  = '(rrc', out) ← for_up (Z.to_nat cnt) 0
                     (interp_body (src_data src')
                                  (st_factor (_backend self)))
                     (st_rrc (_backend self), interp_buffer self cnt);
    Some (cnt,
          {| count := cnt; data := Some out;
             _backend := {| st_src := src'; st_rrc := rrc';
                            st_factor := st_factor (_backend self) |} |}).
Proof.
  intros Hwf Hc Hread Hp. pose proof Hwf as [_ _ Hf _].
  unfold interp_read, interp_request.
  rewrite to_int_id by (unfold INT_MAX in *; lia).
  rewrite decide_False by lia.
  rewrite to_size_id by (unfold INT_MAX in *; lia).
  rewrite Hread. rewrite decide_False by done.
  rewrite decide_True by lia.
  unfold trip_count. replace (cnt - 0) with cnt by lia.
  rewrite to_int_id by (unfold INT_MAX in *; lia).
  reflexivity.
Qed.

Lemma interp_read_zero self (cnt produced : Z) (src' : Src) :
  interp_wf self -> 0 < cnt <= INT_MAX ->
  src_read (st_src (_backend self))
           (cnt `quot` st_factor (_backend self)) = (produced, src') ->
  to_size produced = 0 ->
  interp_read_ self cnt
  = Some (0, {| count := cnt; data := Some (interp_buffer self cnt);
                _backend := {| st_src := src';
                               st_rrc := st_rrc (_backend self);
                               st_factor := st_factor (_backend self) |} |}).
Proof.
  intros Hwf Hc Hread Hp. pose proof Hwf as [_ _ Hf _].
  unfold interp_read, interp_request.
  rewrite to_int_id by (unfold INT_MAX in *; lia).
  rewrite decide_False by lia.
  rewrite to_size_id by (unfold INT_MAX in *; lia).
  rewrite Hread. by rewrite decide_True.
Qed.

(** A call that gets samples, with the block it leaves in the buffer. *)
Lemma interp_read_block self (cnt produced : Z) (src' : Src) :
  interp_wf self -> 0 < cnt <= INT_MAX ->
  src_read (st_src (_backend self))
           (cnt `quot` st_factor (_backend self)) = (produced, src') ->
  to_size produced <> 0 ->
  (cnt - 1) `quot` st_factor (_backend self)
    < Z.of_nat (length (src_data src')) ->
  exists xs ys rrc',
    interp_inputs (src_data src') (st_factor (_backend self)) cnt = Some xs
    /\ filter_run (st_rrc (_backend self)) xs = Some (ys, rrc')
    /\ filter_wf rrc' /\ length ys = Z.to_nat cnt
    /\ interp_read_ self cnt
       = Some (cnt,
               {| count := cnt;
                  data := Some ((cplx_div_sqrt2 <$> ys)
                                ++ drop (Z.to_nat cnt)
                                        (interp_buffer self cnt));
                  _backend :=
                    {| st_src := src'; st_rrc := rrc';
                       st_factor := st_factor (_backend self) |} |}).
Proof.
  intros Hwf Hc Hread Hp Hlen. pose proof Hwf as [_ _ Hf Hrrc].
  destruct (interp_inputs_total (src_data src') (st_factor (_backend self)) cnt)
    as [xs Hxs]; [lia..|].
  pose proof (length_interp_buffer Src self cnt Hwf) as Hbuf.
  pose proof Hxs as Hxs'. unfold interp_inputs in Hxs'.
  replace cnt with (Z.of_nat (Z.to_nat cnt)) in Hxs' at 1 by lia.
  destruct (interp_loop (src_data src') (st_factor (_backend self))
              (Z.to_nat cnt) 0 (st_rrc (_backend self))
              (interp_buffer self cnt) xs)
    as (ys & rrc' & Hrun & Hwf' & Hys & Hloop); [done | lia | lia | done |].
  exists xs, ys, rrc'. split_and!; try done.
  rewrite (interp_read_unfold self cnt produced src') by done.
  rewrite Hloop. cbn [mbind option_bind].
  by rewrite Z2Nat.inj_0, take_0, app_nil_l, Nat.add_0_l.
Qed.

Lemma to_size_int (p : Z) : - 2 ^ 31 <= p <= INT_MAX -> p <> 0 -> to_size p <> 0.
Proof.
  unfold to_size, INT_MAX. intros Hp Hnz E.
  apply Z.mod_divide in E; [|lia]. destruct E as [k E]. lia.
Qed.

(** What a call of [interp_read] leaves, whatever the source did. *)
Lemma interp_read_result self (n produced : Z) (src' : Src) :
  interp_wf self -> 0 < n <= INT_MAX ->
  src_read (st_src (_backend self))
           (n `quot` st_factor (_backend self)) = (produced, src') ->
  - 2 ^ 31 <= produced <= INT_MAX ->
  (n - 1) `quot` st_factor (_backend self)
    < Z.of_nat (length (src_data src')) ->
  exists r self' d,
    interp_read_ self n = Some (r, self')
    /\ interp_wf self'
    /\ count self' = n
    /\ st_factor (_backend self') = st_factor (_backend self)
    /\ st_src (_backend self') = src'
    /\ data self' = Some d /\ n <= Z.of_nat (length d)
    /\ (r = 0 \/ r = n).
Proof.
  intros Hwf Hn Hread Hp Hlen. pose proof Hwf as [_ _ Hf Hrrc].
  pose proof (length_interp_buffer Src self n Hwf ltac:(lia)) as Hbuf.
  destruct (decide (produced = 0)) as [->|Hnz].
  - rewrite (interp_read_zero self n 0 src') by done.
    eexists 0, _, _. split; [done|]. split_and!; try done; [|by left].
    split; cbn; try done; [lia|]. by intros d [= <-].
  - destruct (interp_read_block self n produced src')
      as (xs & ys & rrc' & _ & _ & Hwf' & Hys & ->);
      [done | done | done | by apply to_size_int | done |].
    assert (n <= Z.of_nat (length ((cplx_div_sqrt2 <$> ys)
                                   ++ drop (Z.to_nat n)
                                           (interp_buffer self n)))) as Hout.
    { rewrite (length_block ys _ (Z.to_nat n) Hys). lia. }
    eexists n, _, _. split; [done|]. split_and!; try done; [|by right].
    split; cbn; try done; [lia|]. by intros d [= <-].
Qed.

(** X12: [interp_read] keeps the invariant of the interpolator: whether
    the source produced samples or not, the factor is as before, the
    count is the one asked for, and there is a buffer that holds at least
    as many samples; the filter is in order for the next call. *)
Theorem interp_read_keeps_invariant self (n produced : Z) (src' : Src) :
  interp_wf self -> 0 < n <= INT_MAX ->
  src_read (st_src (_backend self))
           (n `quot` st_factor (_backend self)) = (produced, src') ->
  - 2 ^ 31 <= produced <= INT_MAX ->
  (n - 1) `quot` st_factor (_backend self)
    < Z.of_nat (length (src_data src')) ->
  exists r self' d,
    interp_read_ self n = Some (r, self')
    /\ interp_wf self'
    /\ count self' = n
    /\ st_factor (_backend self') = st_factor (_backend self)
    /\ st_src (_backend self') = src'
    /\ data self' = Some d /\ n <= Z.of_nat (length d).
Proof.
  intros Hwf Hn Hread Hp Hlen.
  destruct (interp_read_result self n produced src' Hwf Hn Hread Hp Hlen)
    as (r & self' & d & Hr & Hwf' & Hc & HL & Hs & Hd & Hdl & _).
  by exists r, self', d.
Qed.

(** X13: the buffer is replaced only for a request larger than the last one.
    A request that is not larger writes the first [n] samples of the
    buffer there is and leaves the rest of it as the earlier call left
    it; a larger request gets a buffer of [n] samples. *)
Theorem interp_read_reuses_buffer self (n produced : Z) (src' : Src) :
  interp_wf self -> 0 < n <= INT_MAX ->
  src_read (st_src (_backend self))
           (n `quot` st_factor (_backend self)) = (produced, src') ->
  - 2 ^ 31 <= produced <= INT_MAX -> produced <> 0 ->
  (n - 1) `quot` st_factor (_backend self)
    < Z.of_nat (length (src_data src')) ->
  exists self' out,
    interp_read_ self n = Some (n, self')
    /\ data self' = Some out
    /\ (forall d, data self = Some d -> n <= count self ->
          length out = length d
          /\ drop (Z.to_nat n) out = drop (Z.to_nat n) d)
    /\ (count self < n -> Z.of_nat (length out) = n).
Proof.
  intros Hwf Hn Hread Hp Hnz Hlen.
  pose proof (length_interp_buffer Src self n Hwf ltac:(lia)) as Hbuf.
  destruct (interp_read_block self n produced src')
    as (xs & ys & rrc' & _ & _ & Hwf' & Hys & ->);
    [done | done | done | by apply to_size_int | done |].
  assert (length (cplx_div_sqrt2 <$> ys) = Z.to_nat n) as Hmap.
  { rewrite length_fmap. exact Hys. }
  pose proof (length_block ys (drop (Z.to_nat n) (interp_buffer self n))
                (Z.to_nat n) Hys) as Hout.
  rewrite length_drop in Hout.
  eexists _, _. split; [done|]. split; [done|]. split.
  - intros d Hd Hle. unfold interp_buffer in *. rewrite Hd in *.
    rewrite decide_False in * by lia. split.
    + rewrite Hout. lia.
    + rewrite drop_app_length'; done.
  - intros Hlt. rewrite Hout.
    unfold interp_buffer, alloc_samples.
    destruct (data self) as [d|].
    + rewrite decide_True by done. rewrite length_replicate. lia.
    + rewrite length_replicate. lia.
Qed.

(** X14: the interpolator holds each sample of the source for [factor]
    outputs: asked for [k·factor] samples, it asks the source for [k],
    feeds each of them [factor] times to the filter, and puts out the
    filter's outputs divided by [M_SQRT2]. *)
Theorem interp_read_holds_samples self (k produced : Z) (src' : Src) :
  interp_wf self -> 0 < k -> k * st_factor (_backend self) <= INT_MAX ->
  src_read (st_src (_backend self)) k = (produced, src') ->
  - 2 ^ 31 <= produced <= INT_MAX -> produced <> 0 ->
  k <= Z.of_nat (length (src_data src')) ->
  exists ys rrc' out,
    filter_run (st_rrc (_backend self))
      (take (Z.to_nat k) (src_data src')
       ≫= replicate (Z.to_nat (st_factor (_backend self))))
    = Some (ys, rrc')
    /\ interp_read_ self (k * st_factor (_backend self))
       = Some (k * st_factor (_backend self),
               {| count := k * st_factor (_backend self);
                  data := Some out;
                  _backend :=
                    {| st_src := src'; st_rrc := rrc';
                       st_factor := st_factor (_backend self) |} |})
    /\ take (Z.to_nat (k * st_factor (_backend self))) out
       = cplx_div_sqrt2 <$> ys.
Proof.
  intros Hwf Hk Hmax Hread Hp Hnz Hlen. pose proof Hwf as [_ _ Hf _].
  set (L := st_factor (_backend self)) in *.
  assert ((k * L) `quot` L = k) as Hq by (apply Z.quot_mul; lia).
  destruct (interp_read_block self (k * L) produced src')
    as (xs & ys & rrc' & Hxs & Hrun & _ & Hys & Hr).
  - done.
  - nia.
  - fold L. by rewrite Hq.
  - by apply to_size_int.
  - fold L. rewrite Z.quot_div_nonneg by nia.
    apply Z.lt_le_trans with k; [|done].
    apply Z.div_lt_upper_bound; nia.
  - fold L in Hxs, Hr. rewrite interp_inputs_hold in Hxs by lia.
    injection Hxs as <-.
    eexists ys, rrc', _. split; [done|]. split; [exact Hr|].
    apply take_app_length'. rewrite length_fmap. symmetry. exact Hys.
Qed.

(** X15: a call that gets samples from the source is defined exactly when
    the buffer of the source covers the index [(n - 1) / factor], the
    last one the loop reads. *)
Theorem interp_read_defined_iff self (n produced : Z) (src' : Src) :
  interp_wf self -> 0 < n <= INT_MAX ->
  src_read (st_src (_backend self))
           (n `quot` st_factor (_backend self)) = (produced, src') ->
  - 2 ^ 31 <= produced <= INT_MAX -> produced <> 0 ->
  (is_Some (interp_read_ self n)
   <-> (n - 1) `quot` st_factor (_backend self)
       < Z.of_nat (length (src_data src'))).
Proof.
  intros Hwf Hn Hread Hp Hnz. pose proof Hwf as [_ _ Hf _].
  set (L := st_factor (_backend self)) in *.
  split.
  - intros [r Hr].
    destruct (Z.lt_ge_cases ((n - 1) `quot` L)
                (Z.of_nat (length (src_data src')))) as [|Hge]; [done|].
    exfalso. revert Hr.
    rewrite (interp_read_unfold self n produced src')
      by (done || by apply to_size_int).
    fold L.
    rewrite (for_up_fails _ _ 0 (L * Z.of_nat (length (src_data src')))).
    + done.
    + intros s. unfold interp_body.
      rewrite Z.mul_comm, Z.quot_mul by lia.
      rewrite load_lookup, lookup_ge_None_2 by lia. done.
    + rewrite Z.quot_div_nonneg in Hge by lia.
      pose proof (Z.mul_div_le (n - 1) L ltac:(lia)). nia.
  - intros Hlen.
    destruct (interp_read_block self n produced src')
      as (xs & ys & rrc' & _ & _ & _ & _ & ->);
      [done | done | done | by apply to_size_int | done |].
    done.
Qed.

(** X16: a request for fewer samples than the factor asks the source for
    no samples at all; when the source answers that with 0,
    [interp_read] returns 0, as it does at the end of the stream, and
    the filter is not touched. *)
Theorem interp_read_below_factor self (n : Z) (src' : Src) :
  interp_wf self -> 0 < n < st_factor (_backend self) ->
  src_read (st_src (_backend self)) 0 = (0, src') ->
  interp_request n (st_factor (_backend self)) = 0
  /\ exists self',
      interp_read_ self n = Some (0, self')
      /\ count self' = n
      /\ st_rrc (_backend self') = st_rrc (_backend self)
      /\ st_src (_backend self') = src'.
Proof.
  intros Hwf Hn Hread. pose proof Hwf as [_ _ Hf _].
  assert (n `quot` st_factor (_backend self) = 0) as Hq
    by (apply Z.quot_small; lia).
  split.
  - unfold interp_request. by rewrite to_size_id by (unfold INT_MAX in *; lia).
  - rewrite (interp_read_zero self n 0 src'); [|done|lia|by rewrite Hq|done].
    eexists. split; [done|]. done.
Qed.

End InterpolatorMore.

(* ------------------------------------------------------------------ *)
(** ** More on the worker loop: the buffer, the counter, the file *)

Lemma to_uint_succ2 (c n : Z) :
  to_uint c = to_uint n -> to_uint (to_uint (c + 2)) = to_uint (n + 2).
Proof.
  unfold to_uint. intros Hc. rewrite Z.mod_mod by lia.
  rewrite (Z.add_mod c), (Z.add_mod n) by lia. by rewrite Hc.
Qed.

Section WorkerMore.
Variables Agc Costas : Type.
Variable agc_apply : Agc -> complex -> complex * Agc.
Variable costas_resync : Costas -> complex -> complex * Costas.
Variable SYM_CHUNKSIZE : Z.

#[local] Abbreviation WorkerT := (Worker Agc Costas).
#[local] Abbreviation capture_ :=
  (capture Agc Costas agc_apply costas_resync SYM_CHUNKSIZE).
#[local] Abbreviation sample_step_ :=
  (sample_step Agc Costas agc_apply costas_resync SYM_CHUNKSIZE).
#[local] Abbreviation run_trace_ :=
  (run_trace Agc Costas agc_apply costas_resync SYM_CHUNKSIZE).
#[local] Abbreviation buffer_ok_ := (buffer_ok SYM_CHUNKSIZE).
Implicit Types w : WorkerT.

(** What the symbol branch does to the buffer and to the file. *)
Lemma capture_flush w (x : complex) :
  buffer_ok_ w ->
  exists w',
    capture_ w x = Some w'
    /\ length (out_buf w') = length (out_buf w)
    /\ bytes_out_count w' = to_uint (bytes_out_count w + 2)
    /\ ((SYM_CHUNKSIZE - 1 <= buf_offset w + 2
         /\ buf_offset w' = 0
         /\ exists blk, out_fd w' = out_fd w ++ blk
                        /\ Z.of_nat (length blk) = buf_offset w + 2)
        \/ (buf_offset w + 2 < SYM_CHUNKSIZE - 1
            /\ buf_offset w' = buf_offset w + 2
            /\ out_fd w' = out_fd w)).
Proof.
  intros (Hb0 & Hb2 & Hsym & Hmax). unfold capture.
  destruct (agc_apply (agc w) x) as [c agc'].
  destruct (costas_resync (cst w) c) as [c' cst'].
  rewrite store_inside by lia. cbn [mbind option_bind].
  rewrite (to_int_id (buf_offset w + 1)) by (unfold INT_MAX in *; lia).
  rewrite (to_int_id (buf_offset w + 2)) by (unfold INT_MAX in *; lia).
  rewrite store_inside by (rewrite length_insert; lia).
  cbn [mbind option_bind].
  eexists. split; [reflexivity|]. cbn.
  rewrite !length_insert. split; [done|]. split; [done|].
  case_bool_decide.
  - left. split; [lia|]. split; [done|]. eexists. split; [done|].
    rewrite length_take, !length_insert. lia.
  - right. split; [lia|]. done.
Qed.

(** A round of the loop, without any condition on the counter. *)
Lemma sample_step_always w (x : complex) :
  buffer_ok_ w ->
  exists w',
    sample_step_ w x = Some w' /\ buffer_ok_ w'
    /\ length (out_buf w') = length (out_buf w)
    /\ ((captures w = true
         /\ (exists b1 b2, emitted w' = emitted w ++ [b1; b2])
         /\ bytes_out_count w' = to_uint (bytes_out_count w + 2))
        \/ (captures w = false /\ emitted w' = emitted w
            /\ bytes_out_count w' = bytes_out_count w)).
Proof.
  intros Hok. unfold sample_step, captures.
  destruct (at_mid _ _) eqn:Hmid; cbn [negb andb].
  - destruct (agc_apply (agc w) x) as [m agc'].
    eexists. split; [reflexivity|]. split; [done|]. split; [done|].
    right. done.
  - destruct (at_symbol _ _) eqn:Hsym.
    + destruct (capture_spec Agc Costas agc_apply costas_resync SYM_CHUNKSIZE
                  w x Hok)
        as (w' & Hcap & _ & _ & _ & _ & _ & _ & _ & Hem & Hcnt & Hok').
      destruct (capture_flush w x Hok) as (w'' & Hcap' & Hlen & _).
      rewrite Hcap in Hcap'. injection Hcap' as <-.
      rewrite Hcap. eexists. split; [reflexivity|].
      split; [done|]. split; [done|]. left.
      split; [done|]. split; [|done]. rewrite emitted_tick. eauto.
    + eexists. split; [reflexivity|]. split; [done|]. split; [done|].
      right. done.
Qed.

Lemma run_trace_always (xs : list complex) (P : WorkerT -> Prop) :
  (forall w x w', buffer_ok_ w -> P w -> sample_step_ w x = Some w' -> P w') ->
  forall w,
    buffer_ok_ w -> P w ->
    exists ws,
      run_trace_ w xs = Some ws
      /\ length ws = S (length xs)
      /\ Forall (fun w' => buffer_ok_ w' /\ P w') ws.
Proof.
  intros HP. induction xs as [|x xs IH]; intros w Hok Hw.
  - exists [w]. split; [done|]. split; [done|].
    constructor; [done|constructor].
  - destruct (sample_step_always w x Hok) as (w' & Hstep & Hok' & _).
    destruct (IH w' Hok' (HP w x w' Hok Hw Hstep)) as (ws & Hrun & Hlen & Hall).
    exists (w :: ws). cbn [run_trace]. rewrite Hstep. cbn.
    rewrite Hrun. cbn. split; [done|]. split; [by rewrite Hlen|].
    by constructor.
Qed.

(** X17: the worker loop never stores outside [out_buf]: from every state in
    which the buffer has room for a symbol and holds [SYM_CHUNKSIZE]
    bytes, every round of the loop goes through, for any samples and any
    value of the counter, and leaves the buffer in that condition. *)
Theorem worker_stays_in_buffer w (xs : list complex) :
  buffer_ok_ w ->
  exists ws,
    run_trace_ w xs = Some ws
    /\ length ws = S (length xs)
    /\ Forall (fun w' =>
                 0 <= buf_offset w'
                 /\ buf_offset w' + 2 <= Z.of_nat (length (out_buf w'))
                 /\ length (out_buf w') = length (out_buf w)) ws.
Proof.
  intros Hok.
  destruct (run_trace_always xs
              (fun w' => length (out_buf w') = length (out_buf w)))
    with (w := w) as (ws & Hrun & Hlen & Hall); try done.
  - intros w1 x w2 Hok1 H1 Hstep.
    destruct (sample_step_always w1 x Hok1) as (w2' & Hstep' & _ & Hl & _).
    rewrite Hstep in Hstep'. injection Hstep' as <-. congruence.
  - exists ws. split; [done|]. split; [done|].
    eapply Forall_impl; [exact Hall|].
    intros w' [(H0 & H2 & _) Hl]. done.
Qed.

(** X18: the counter follows the output also past its wrap-around: if the
    value [demod_get_bytes_out] returns is the number of bytes put out so
    far modulo 2^32, as it is when the worker enters the loop, it is so
    after every round, and the number of bytes stays even. *)
Theorem bytes_out_counts_emitted w (xs : list complex) :
  buffer_ok_ w ->
  demod_get_bytes_out w = to_uint (Z.of_nat (length (emitted w))) ->
  Z.of_nat (length (emitted w)) mod 2 = 0 ->
  exists ws,
    run_trace_ w xs = Some ws
    /\ Forall (fun w' =>
                 demod_get_bytes_out w'
                 = to_uint (Z.of_nat (length (emitted w')))
                 /\ Z.of_nat (length (emitted w')) mod 2 = 0) ws.
Proof.
  intros Hok Hcnt Heven.
  destruct (run_trace_always xs
              (fun w' => demod_get_bytes_out w'
                         = to_uint (Z.of_nat (length (emitted w')))
                         /\ Z.of_nat (length (emitted w')) mod 2 = 0))
    with (w := w) as (ws & Hrun & Hlen & Hall); try done.
  - intros w1 x w2 Hok1 [H1 H1e] Hstep.
    destruct (sample_step_always w1 x Hok1)
      as (w2' & Hstep' & _ & _ & [(_ & (b1 & b2 & Hem) & Hc)|(_ & Hem & Hc)]);
      rewrite Hstep in Hstep'; injection Hstep' as <-.
    + unfold demod_get_bytes_out in *. rewrite Hc, Hem, length_app.
      cbn [length]. split.
      * rewrite Nat2Z.inj_add. by apply to_uint_succ2.
      * rewrite Nat2Z.inj_add. change (Z.of_nat 2) with (1 * 2).
        by rewrite Z.mod_add by lia.
    + unfold demod_get_bytes_out in *. by rewrite Hc, Hem.
  - exists ws. split; [done|].
    eapply Forall_impl; [exact Hall|]. by intros w' [_ Hw'].
Qed.

(** X19: the file grows by whole blocks.  From a state with an even
    [buf_offset] below the block size (as when the worker enters the
    loop), every write to the file inside the loop is one block of
    [SYM_CHUNKSIZE] bytes ([SYM_CHUNKSIZE − 1] if that is odd), after
    which the buffer is empty; between writes [buf_offset] stays even and
    below the block size. *)
Theorem flush_in_whole_blocks w (xs : list complex) :
  let blk := SYM_CHUNKSIZE - SYM_CHUNKSIZE mod 2 in
  2 <= SYM_CHUNKSIZE <= Z.of_nat (length (out_buf w)) ->
  Z.of_nat (length (out_buf w)) <= INT_MAX ->
  0 <= buf_offset w < blk -> buf_offset w mod 2 = 0 ->
  Z.of_nat (length (out_fd w)) mod blk = 0 ->
  exists ws,
    run_trace_ w xs = Some ws
    /\ Forall (fun w' =>
                 0 <= buf_offset w' < blk /\ buf_offset w' mod 2 = 0
                 /\ Z.of_nat (length (out_fd w')) mod blk = 0) ws
    /\ (forall i w1 w2,
          ws !! i = Some w1 -> ws !! S i = Some w2 ->
          out_fd w2 = out_fd w1
          \/ exists bytes,
               out_fd w2 = out_fd w1 ++ bytes
               /\ Z.of_nat (length bytes) = blk /\ buf_offset w2 = 0).
Proof.
  intros blk Hsym Hmax Hbo Hev Hfd.
  pose proof (Z.mod_pos_bound SYM_CHUNKSIZE 2 ltac:(lia)) as Hm2.
  pose proof (Z.div_mod SYM_CHUNKSIZE 2 ltac:(lia)) as Hdm.
  assert (blk mod 2 = 0) as Hblk.
  { unfold blk. rewrite Hdm at 1.
    replace (2 * (SYM_CHUNKSIZE / 2) + SYM_CHUNKSIZE mod 2 - SYM_CHUNKSIZE mod 2)
      with ((SYM_CHUNKSIZE / 2) * 2) by lia.
    apply Z.mod_mul. lia. }
  set (I := fun w' : WorkerT =>
              0 <= buf_offset w' < blk /\ buf_offset w' mod 2 = 0
              /\ Z.of_nat (length (out_fd w')) mod blk = 0
              /\ length (out_buf w') = length (out_buf w)).
  assert (forall w1, I w1 -> buffer_ok_ w1) as HIok.
  { intros w1 (H1 & H2 & _ & H4). unfold buffer_ok. rewrite H4.
    pose proof (Z.div_mod (buf_offset w1) 2 ltac:(lia)).
    pose proof (Z.div_mod blk 2 ltac:(lia)).
    unfold blk in *. lia. }
  assert (forall w1 x w2, I w1 -> sample_step_ w1 x = Some w2 ->
            I w2 /\ (out_fd w2 = out_fd w1
                     \/ exists bytes,
                          out_fd w2 = out_fd w1 ++ bytes
                          /\ Z.of_nat (length bytes) = blk
                          /\ buf_offset w2 = 0)) as Hstep.
  { intros w1 x w2 HI1 Hs. pose proof (HIok w1 HI1) as Hok1.
    destruct HI1 as (H1 & H2 & H3 & H4).
    revert Hs. unfold sample_step.
    destruct (at_mid _ _).
    - destruct (agc_apply (agc w1) x) as [m agc']. intros [= <-].
      split; [done|]. by left.
    - destruct (at_symbol _ _); [|intros [= <-]; split; [done|by left]].
      destruct (capture_flush w1 x Hok1)
        as (w' & -> & Hl & _ & [(Hge & Hbo' & bytes & Hfd' & Hlb)
                               |(Hlt & Hbo' & Hfd')]).
      + intros [= <-]. cbn [tick buf_offset out_fd out_buf].
        pose proof (Z.div_mod (buf_offset w1) 2 ltac:(lia)).
        pose proof (Z.div_mod blk 2 ltac:(lia)).
        assert (buf_offset w1 + 2 = blk) as Hfull by (unfold blk in *; lia).
        split.
        * unfold I. cbn [tick buf_offset out_fd out_buf].
          rewrite Hbo', Hfd', length_app, Nat2Z.inj_add, Hlb, Hfull.
          split_and!; [lia | lia | done | | congruence].
          rewrite <- Z.add_mod_idemp_l, H3 by lia.
          cbn. apply Z.mod_same. lia.
        * right. exists bytes. split; [done|]. split; [lia|done].
      + intros [= <-]. split; [|by left].
        unfold I. cbn [tick buf_offset out_fd out_buf].
        rewrite Hbo', Hfd'.
        pose proof (Z.div_mod (buf_offset w1) 2 ltac:(lia)).
        pose proof (Z.div_mod blk 2 ltac:(lia)).
        split_and!; [lia | unfold blk in *; lia | | done | congruence].
        change 2 with (1 * 2) at 1. by rewrite Z.mod_add by lia. }
  assert (forall ys w1, I w1 ->
            exists ws,
              run_trace_ w1 ys = Some ws /\ Forall I ws
              /\ (forall i wa wb,
                    ws !! i = Some wa -> ws !! S i = Some wb ->
                    out_fd wb = out_fd wa
                    \/ exists bytes,
                         out_fd wb = out_fd wa ++ bytes
                         /\ Z.of_nat (length bytes) = blk
                         /\ buf_offset wb = 0)) as Hrun.
  { induction ys as [|y ys IH]; intros w1 HI1.
    - exists [w1]. split; [done|].
      split; [constructor; [done|constructor]|].
      intros i wa wb _ Hb. by destruct i.
    - destruct (sample_step_always w1 y (HIok w1 HI1)) as (w2 & Hs & _).
      destruct (Hstep w1 y w2 HI1 Hs) as [HI2 Hfd2].
      destruct (IH w2 HI2) as (ws & Hr & Hall & Hsteps).
      exists (w1 :: ws). cbn [run_trace]. rewrite Hs. cbn. rewrite Hr. cbn.
      split; [done|]. split; [by constructor|].
      intros [|i] wa wb Ha Hb.
      + injection Ha as <-. change (ws !! 0%nat = Some wb) in Hb.
        rewrite (run_trace_head Agc Costas agc_apply costas_resync
                   SYM_CHUNKSIZE _ _ _ Hr) in Hb.
        by injection Hb as <-.
      + exact (Hsteps i wa wb Ha Hb). }
  destruct (Hrun xs w) as (ws & Hr & Hall & Hsteps).
  { unfold I. done. }
  exists ws. split; [done|]. split; [|done].
  eapply Forall_impl; [exact Hall|]. intros w' (?&?&?&?). done.
Qed.

End WorkerMore.

(* ------------------------------------------------------------------ *)
(** ** The thread as a whole *)




Section ThreadFacts.
Variable Src : Type.
Variable src_read : Src -> Z -> Z * Src.
Variable src_data : Src -> list complex.
Variables Agc Costas : Type.
Variable agc_apply : Agc -> complex -> complex * Agc.
Variable costas_resync : Costas -> complex -> complex * Costas.
Variables SYM_CHUNKSIZE CHUNKSIZE : Z.

#[local] Abbreviation WorkerT := (Worker Agc Costas).
#[local] Abbreviation sample_step_ :=
  (sample_step Agc Costas agc_apply costas_resync SYM_CHUNKSIZE).
#[local] Abbreviation buffer_ok_ := (buffer_ok SYM_CHUNKSIZE).
#[local] Abbreviation block_loop_ :=
  (block_loop Agc Costas agc_apply costas_resync SYM_CHUNKSIZE).
#[local] Abbreviation main_loop_ :=
  (main_loop Src src_read src_data Agc Costas agc_apply costas_resync
             SYM_CHUNKSIZE CHUNKSIZE).
#[local] Abbreviation demod_thr_run_ :=
  (demod_thr_run Src src_read src_data Agc Costas agc_apply costas_resync
                 SYM_CHUNKSIZE CHUNKSIZE).
Implicit Types w : WorkerT.


Lemma block_loop_inv (P : WorkerT -> Prop) (d : list complex) :
  (forall w x w', buffer_ok_ w -> P w -> sample_step_ w x = Some w' -> P w') ->
  forall (n : nat) (i : Z) w,
    0 <= i -> i + Z.of_nat n <= Z.of_nat (length d) ->
    buffer_ok_ w -> P w ->
    exists w',
      for_up n i (fun i w => x ← load d i; sample_step_ w x) w = Some w'
      /\ buffer_ok_ w' /\ P w'.
Proof.
  intros HP. induction n as [|n IH]; intros i w Hi Hn Hok Hw.
  - by exists w.
  - cbn [for_up]. rewrite load_nonneg by lia.
    destruct (lookup_lt_is_Some_2 d (Z.to_nat i)) as [x Hx]; [lia|].
    rewrite Hx. cbn [mbind option_bind].
    destruct (sample_step_always Agc Costas agc_apply costas_resync
                SYM_CHUNKSIZE w x Hok) as (w1 & Hs & Hok1 & _).
    rewrite Hs. cbn [mbind option_bind].
    apply IH; [lia | lia | done | by apply (HP w x)].
Qed.

Lemma main_loop_inv (ok : Src -> Prop) (P : WorkerT -> Prop) (L : Z) :
  (forall s n, ok s ->
     ok (src_read s n).2
     /\ - 2 ^ 31 <= (src_read s n).1 <= INT_MAX
     /\ (CHUNKSIZE - 1) `quot` L
        < Z.of_nat (length (src_data (src_read s n).2))) ->
  (forall w x w', buffer_ok_ w -> P w -> sample_step_ w x = Some w' -> P w') ->
  0 < CHUNKSIZE <= INT_MAX ->
  forall (polls : nat) (it : Interp Src) w,
    interp_wf it -> st_factor (_backend it) = L ->
    ok (st_src (_backend it)) -> buffer_ok_ w -> P w ->
    exists it' w',
      main_loop_ polls it w = Some (it', w')
      /\ interp_wf it' /\ buffer_ok_ w' /\ P w'.
Proof.
  intros Hsrc HP Hc. induction polls as [|polls IH];
    intros it w Hwf HL Hok Hbuf Hw.
  - by exists it, w.
  - cbn [main_loop].
    destruct (src_read (st_src (_backend it))
                (CHUNKSIZE `quot` st_factor (_backend it)))
      as [produced src'] eqn:Hread.
    destruct (Hsrc (st_src (_backend it))
                (CHUNKSIZE `quot` st_factor (_backend it)) Hok)
      as (Hok' & Hp & Hlen).
    rewrite Hread in Hok', Hp, Hlen. cbn [fst snd] in Hok', Hp, Hlen.
    destruct (interp_read_result Src src_read src_data it CHUNKSIZE
                produced src')
      as (r & it' & d & -> & Hwf' & _ & HL' & Hsrc' & Hd & Hdl & Hr);
      [done | done | done | done | by rewrite HL |].
    cbn [mbind option_bind].
    destruct Hr as [->| ->].
    + rewrite decide_True by done. by exists it', w.
    + rewrite decide_False by lia. rewrite Hd. cbn [mbind option_bind].
      destruct (block_loop_inv P d HP (Z.to_nat CHUNKSIZE) 0 w)
        as (w1 & Hloop & Hbuf1 & Hw1); [lia | lia | done | done |].
      unfold block_loop, trip_count. rewrite Z.sub_0_r, Hloop.
      cbn [mbind option_bind].
      apply IH; try done; [congruence | by rewrite Hsrc'].
Qed.

(** X21: the thread runs to its end without reaching outside a buffer, on
    every source that keeps its buffer long enough for a block, and when
    it closes the file, the file holds an even number of bytes, which is
    the value [demod_get_bytes_out] returns from then on, modulo 2^32. *)
Theorem thread_file_matches_counter (ok : Src -> Prop) (polls : nat)
    (it : Interp Src) (per : float) (buf : list Z) (a : Agc) (c : Costas) :
  (forall s n, ok s ->
     ok (src_read s n).2
     /\ - 2 ^ 31 <= (src_read s n).1 <= INT_MAX
     /\ (CHUNKSIZE - 1) `quot` st_factor (_backend it)
        < Z.of_nat (length (src_data (src_read s n).2))) ->
  interp_wf it -> ok (st_src (_backend it)) ->
  0 < CHUNKSIZE <= INT_MAX ->
  2 <= Z.of_nat (length buf) ->
  SYM_CHUNKSIZE <= Z.of_nat (length buf) <= INT_MAX ->
  exists it' w file,
    demod_thr_run_ polls it per buf a c = Some (it', w, file)
    /\ interp_wf it'
    /\ file = emitted w
    /\ demod_get_bytes_out w = to_uint (Z.of_nat (length file))
    /\ Z.of_nat (length file) mod 2 = 0.
Proof.
  intros Hsrc Hwf Hok Hc Hb2 Hbs.
  destruct (main_loop_inv ok
              (fun w' => demod_get_bytes_out w'
                         = to_uint (Z.of_nat (length (emitted w')))
                         /\ Z.of_nat (length (emitted w')) mod 2 = 0)
              (st_factor (_backend it)) Hsrc)
    with (polls := polls) (it := it) (w := worker_init per buf a c)
    as (it' & w & Hrun & Hwf' & _ & Hcnt & Hev); try done.
  - intros w1 x w2 Hok1 [H1 H1e] Hstep.
    destruct (sample_step_always Agc Costas agc_apply costas_resync
                SYM_CHUNKSIZE w1 x Hok1)
      as (w2' & Hstep' & _ & _ & [(_ & (b1 & b2 & Hem) & Hcn)|(_ & Hem & Hcn)]);
      rewrite Hstep in Hstep'; injection Hstep' as <-.
    + unfold demod_get_bytes_out in *. rewrite Hcn, Hem, length_app.
      cbn [length]. split.
      * rewrite Nat2Z.inj_add. by apply to_uint_succ2.
      * rewrite Nat2Z.inj_add. change (Z.of_nat 2) with (1 * 2).
        by rewrite Z.mod_add by lia.
    + unfold demod_get_bytes_out in *. by rewrite Hcn, Hem.
  - unfold demod_thr_run. rewrite Hrun. cbn [mbind option_bind].
    eexists it', w, _. split; [done|]. split_and!; done.
Qed.

End ThreadFacts.

(* ------------------------------------------------------------------ *)
(** ** FIR filters on integers never round *)

Lemma holds_exact_mul (u z : Z) (x y : float) :
  holds u x -> holds z y -> Z.abs (u * z) < 2 ^ 24 -> exact_mul x y.
Proof.
  intros Hx Hy Hb. destruct (holds_mul u z x y Hx Hy Hb) as [Hv He].
  destruct Hx as [Vx Ex], Hy as [Vy Ey].
  split; [done|]. split; [done|]. split; [done|]. rewrite He, Ex, Ey. ring.
Qed.

Lemma holds_exact_add (u z : Z) (x y : float) :
  holds u x -> holds z y -> Z.abs (u + z) < 2 ^ 24 -> exact_add x y.
Proof.
  intros Hx Hy Hb. destruct (holds_add u z x y Hx Hy Hb) as [Hv He].
  destruct Hx as [Vx Ex], Hy as [Vy Ey].
  split; [done|]. split; [done|]. split; [done|]. rewrite He, Ex, Ey. ring.
Qed.

Lemma abs_sum_nonneg (cs : list Z) : 0 <= abs_sum cs.
Proof. unfold abs_sum. induction cs as [|c cs IH]; cbn; lia. Qed.

(** The products of integer samples and integer taps and their sum,
    accumulated as the output loop does, are exact as long as
    [B·Σ|c_i|] stays below 2^24. *)
Lemma fir_sum_exact (B : Z) (ms : list complex) (cs : list Z)
    (ts : list float) :
  0 <= B -> Forall (int_sample B) ms -> Forall2 holds cs ts ->
  B * abs_sum cs < 2 ^ 24 ->
  scales_exact (zip ms ts)
  /\ sigma_exact (zip_with cplx_scale ms ts)
  /\ exists S : Z * Z,
       cholds S (sigma (H:=complex32) (zip_with cplx_scale ms ts))
       /\ Z.abs S.1 <= B * abs_sum cs /\ Z.abs S.2 <= B * abs_sum cs.
Proof.
  intros HB Hms Hcs. revert ms Hms.
  induction Hcs as [|c t cs ts Hc Hcs IH]; intros ms Hms Hb.
  - assert (zip ms [] = []) as -> by (by destruct ms).
    assert (zip_with cplx_scale ms [] = []) as -> by (by destruct ms).
    split; [done|]. split; [done|]. exists (0, 0).
    split; [split; apply holds_zero|]. cbn. lia.
  - pose proof (abs_sum_nonneg cs) as Hs. cbn [abs_sum foldr] in Hb.
    fold (abs_sum cs) in Hb. rewrite Z.mul_add_distr_l in Hb.
    assert (0 <= B * Z.abs c) as Ht by (apply Z.mul_nonneg_nonneg; lia).
    assert (0 <= B * abs_sum cs) as HT by (apply Z.mul_nonneg_nonneg; lia).
    destruct ms as [|m ms].
    { split; [done|]. split; [done|]. exists (0, 0).
      split; [split; apply holds_zero|]. cbn [abs_sum foldr fst snd].
      fold (abs_sum cs). rewrite Z.mul_add_distr_l. cbn [Z.abs]. lia. }
    apply Forall_cons in Hms as [(z & [Hre Him] & Hz1 & Hz2) Hms].
    destruct (IH ms Hms) as (Hsc & Hsg & S & [HS1 HS2] & Hb1 & Hb2); [lia|].
    assert (Z.abs (z.1 * c) <= B * Z.abs c) as Hp1.
    { rewrite Z.abs_mul. apply Z.mul_le_mono_nonneg; lia. }
    assert (Z.abs (z.2 * c) <= B * Z.abs c) as Hp2.
    { rewrite Z.abs_mul. apply Z.mul_le_mono_nonneg; lia. }
    pose proof (holds_mul _ _ _ _ Hre Hc ltac:(lia)) as Hm1.
    pose proof (holds_mul _ _ _ _ Him Hc ltac:(lia)) as Hm2.
    cbn [zip zip_with scales_exact sigma_exact fst snd].
    split.
    { split; [|done]. split; eapply holds_exact_mul; try done; lia. }
    split.
    { split; [done|]. split; cbn [re im cplx_scale].
      - eapply holds_exact_add; [exact HS1 | exact Hm1 | lia].
      - eapply holds_exact_add; [exact HS2 | exact Hm2 | lia]. }
    exists (S.1 + z.1 * c, S.2 + z.2 * c).
    cbn [abs_sum foldr fst snd]. fold (abs_sum cs).
    rewrite Z.mul_add_distr_l.
    split; [|lia].
    split; cbn [fst snd]; apply holds_add; try done; lia.
Qed.

Lemma drop_take_short {A} (l : list A) (n : nat) :
  (n <= 1)%nat -> drop 1 (take n l) = [].
Proof. intros Hn. destruct n as [|[|n]], l as [|a l]; try done; lia. Qed.

Section FirIntegers.
Variables (B : Z) (cs : list Z).
Hypothesis HB : 0 <= B.
Hypothesis Hsum : B * abs_sum cs < 2 ^ 24.
Implicit Types f : Filter complex32.

Lemma fir_step_exact f (x : complex) :
  filter_wf f -> back_count f <= 1 ->
  Forall2 holds cs (fwd_coeff f) ->
  Forall (int_sample B) (mem f) -> int_sample B x ->
  step_exact f x (set_mem f (advance_mem f x))
  /\ Forall (int_sample B) (advance_mem f x).
Proof.
  intros Hwf HN Hcs Hm Hx.
  assert (Forall (int_sample B) (advance_mem f x)) as Hm'.
  { unfold advance_mem. rewrite advance_input_fir by done.
    constructor; [done|]. rewrite removelast_firstn_len.
    by apply Forall_take. }
  split; [|done].
  destruct (fir_sum_exact B (advance_mem f x) cs (fwd_coeff f))
    as (Hsc & Hsg & _); try done.
  pose proof (length_advance_mem f x Hwf) as Hlen.
  destruct Hwf as [HM HNr Hfl Hml Hbl].
  unfold step_exact, products_exact, products. cbn [mem set_mem].
  rewrite !drop_take_short by lia. rewrite !drop_0.
  split; [done|]. split; [done|].
  rewrite !take_ge; [done | |].
  - rewrite length_zip_with.
    change (@length complex) with (@length (@sample complex32)).
    change (@length float) with (@length (@coef complex32)). lia.
  - rewrite length_zip_with.
    change (@length complex) with (@length (@sample complex32)).
    change (@length float) with (@length (@coef complex32)). lia.
Qed.

(** X22: an FIR filter whose taps are integers [c_i], fed samples whose
    parts are integers of magnitude [B] at most, with [B·Σ|c_i| < 2^24],
    computes without rounding: no product and no sum of any call of
    [filter_fwd] on such samples rounds. *)
Theorem fir_integers_exact f (xs : list complex) :
  filter_wf f -> back_count f <= 1 ->
  Forall2 holds cs (fwd_coeff f) ->
  Forall (int_sample B) (mem f) -> Forall (int_sample B) xs ->
  run_exact f xs.
Proof.
  intros Hwf HN Hcs Hm Hxs. revert f Hwf HN Hcs Hm.
  induction Hxs as [|x xs Hx Hxs IH]; intros f Hwf HN Hcs Hm; [done|].
  cbn [run_exact]. rewrite filter_fwd_spec by done.
  destruct (fir_step_exact f x) as [Hstep Hm']; try done.
  split; [done|]. apply IH; try done.
  by apply set_mem_wf, length_advance_mem.
Qed.

End FirIntegers.

Lemma int_sample_cx (B z : Z) :
  Z.abs z <= B -> Z.abs z < 2 ^ 24 -> int_sample B (Examples.cx z).
Proof.
  intros Hz Hb. exists (z, 0). split; [|cbn [fst snd Z.abs]; lia].
  split; [by apply holds_f_of_Z | apply holds_zero].
Qed.

(* ------------------------------------------------------------------ *)
(** ** The properties above on concrete inputs *)

Lemma iir32_wf : filter_wf Examples.iir32.
Proof. split; vm_compute; try reflexivity; split; discriminate. Defined.

Lemma fir_loaded_wf : filter_wf Examples.fir_loaded.
Proof. split; vm_compute; try reflexivity; split; discriminate. Defined.

Lemma fir_cleared_wf : filter_wf Cases.fir_cleared.
Proof. split; vm_compute; try reflexivity; split; discriminate. Defined.

Lemma fir_inf_wf : filter_wf Cases.fir_inf.
Proof. split; vm_compute; try reflexivity; split; discriminate. Defined.

Lemma filter_copy_clears_delay_line_witness :
  filter_wf Examples.iir32
  /\ exists c,
      filter_copy Examples.iir32 = Some c
      /\ filter_wf c /\ same_taps Examples.iir32 c
      /\ mem c = replicate (Z.to_nat (fwd_count Examples.iir32)) czero
      /\ length (mem c) = length (mem Examples.iir32)
      /\ count_nonzero (mem c) = 0%nat.
Proof.
  split; [exact iir32_wf|].
  exact (filter_copy_clears_delay_line Examples.iir32 iir32_wf).
Defined.

Lemma filter_copy_restores_new_witness :
  (1 <= 2 <= INT_MAX /\ 0 <= 0 <= 2)
  /\ exists f ys g,
      filter_new 2 0 [Examples.db 1; Examples.db 2] [] = Some f
      /\ filter_run f [Examples.cx 1; Examples.cx 2; Examples.cx 3]
         = Some (ys, g)
      /\ filter_copy g = Some f.
Proof.
  assert (1 <= 2 <= INT_MAX) as HM by (vm_compute; split; discriminate).
  assert (0 <= 0 <= 2) as HN by lia.
  split; [done|].
  apply (filter_copy_restores_new (O:=complex32) 2 0
           [Examples.db 1; Examples.db 2] []
           [Examples.cx 1; Examples.cx 2; Examples.cx 3] HM HN).
  - vm_compute. discriminate.
  - vm_compute. discriminate.
Defined.

Lemma filter_new_defined_iff_witness :
  (0 <= 2 /\ 0 <= 1)
  /\ (is_Some (filter_new (H:=complex32) 2 1 [Examples.db 1] [Examples.db 1])
      <-> 2 = 0
          \/ (2 <= Z.of_nat (length [Examples.db 1])
              /\ (1 = 0 \/ 1 <= Z.of_nat (length [Examples.db 1])))).
Proof.
  assert (0 <= 2) as HM by lia. assert (0 <= 1) as HN by lia.
  split; [done|].
  exact (filter_new_defined_iff (O:=complex32) 2 1
           [Examples.db 1] [Examples.db 1] HM HN).
Defined.

Lemma filter_fwd_defined_iff_witness :
  (0 <= 1 <= INT_MAX /\ 0 <= 2 <= INT_MAX)
  /\ exists f,
      filter_new 1 2 [Examples.db 1] [Examples.db 1; Examples.db 1] = Some f
      /\ (is_Some (filter_fwd f (Examples.cx 1)) <-> 1 <= 1 /\ 2 <= 1).
Proof.
  assert (0 <= 1 <= INT_MAX) as HM by (vm_compute; split; discriminate).
  assert (0 <= 2 <= INT_MAX) as HN by (vm_compute; split; discriminate).
  split; [done|].
  apply (filter_fwd_defined_iff (O:=complex32) 1 2
           [Examples.db 1] [Examples.db 1; Examples.db 1]
           (Examples.cx 1) HM HN).
  - vm_compute. discriminate.
  - vm_compute. discriminate.
Defined.

Lemma filter_run_ignores_back0_witness :
  filter_wf Examples.iir32
  /\ exists ys f' g',
      filter_run Examples.iir32 [Examples.cx 1; Examples.cx 2]
      = Some (ys, f')
      /\ filter_run
           {| fwd_count := fwd_count Examples.iir32;
              back_count := back_count Examples.iir32;
              fwd_coeff := fwd_coeff Examples.iir32;
              back_coeff := <[0%nat := Examples.fl 9]>
                              (back_coeff Examples.iir32);
              mem := mem Examples.iir32 |}
           [Examples.cx 1; Examples.cx 2]
         = Some (ys, g')
      /\ mem g' = mem f'.
Proof.
  split; [exact iir32_wf|].
  exact (filter_run_ignores_back0 Examples.iir32 (Examples.fl 9)
           [Examples.cx 1; Examples.cx 2] iir32_wf).
Defined.

Lemma fir_output_window_witness :
  (filter_wf Examples.fir_loaded /\ back_count Examples.fir_loaded <= 1)
  /\ exists ys g,
      filter_run Examples.fir_loaded
        [Examples.cx 1; Examples.cx 2; Examples.cx 3] = Some (ys, g)
      /\ length ys = length [Examples.cx 1; Examples.cx 2; Examples.cx 3]
      /\ (forall k,
            (k < length [Examples.cx 1; Examples.cx 2; Examples.cx 3])%nat ->
            ys !! k
            = Some (sigma (products
                             (take (length (mem Examples.fir_loaded))
                                (reverse
                                   (take (S k) [Examples.cx 1; Examples.cx 2;
                                                Examples.cx 3])
                                 ++ mem Examples.fir_loaded))
                             (fwd_coeff Examples.fir_loaded) 0
                             (Z.to_nat (fwd_count Examples.fir_loaded)))))
      /\ (forall k,
            (k < length [Examples.cx 1; Examples.cx 2; Examples.cx 3])%nat ->
            (length (mem Examples.fir_loaded) <= S k)%nat ->
            ys !! k
            = Some (sigma (products
                             (take (length (mem Examples.fir_loaded))
                                (reverse
                                   (take (S k) [Examples.cx 1; Examples.cx 2;
                                                Examples.cx 3])))
                             (fwd_coeff Examples.fir_loaded) 0
                             (Z.to_nat (fwd_count Examples.fir_loaded))))).
Proof.
  assert (back_count Examples.fir_loaded <= 1) as HN by (cbn; lia).
  split; [split; [exact fir_loaded_wf | exact HN]|].
  exact (fir_output_window Examples.fir_loaded
           [Examples.cx 1; Examples.cx 2; Examples.cx 3] fir_loaded_wf HN).
Defined.

Lemma fir_forgets_initial_state_witness :
  (filter_wf Examples.fir_loaded /\ filter_wf Cases.fir_cleared
   /\ same_taps Examples.fir_loaded Cases.fir_cleared
   /\ back_count Examples.fir_loaded <= 1
   /\ (length (mem Examples.fir_loaded)
       <= length [Examples.cx 1; Examples.cx 2; Examples.cx 3])%nat)
  /\ exists ys zs h,
      filter_run Examples.fir_loaded
        [Examples.cx 1; Examples.cx 2; Examples.cx 3] = Some (ys, h)
      /\ filter_run Cases.fir_cleared
           [Examples.cx 1; Examples.cx 2; Examples.cx 3] = Some (zs, h)
      /\ drop (length (mem Examples.fir_loaded) - 1) ys
         = drop (length (mem Examples.fir_loaded) - 1) zs.
Proof.
  assert (same_taps Examples.fir_loaded Cases.fir_cleared) as Ht
    by (repeat split).
  assert (back_count Examples.fir_loaded <= 1) as HN by (cbn; lia).
  assert (length (mem Examples.fir_loaded)
          <= length [Examples.cx 1; Examples.cx 2; Examples.cx 3])%nat as Hl
    by (cbn; lia).
  split; [split_and!; [exact fir_loaded_wf | exact fir_cleared_wf | done..]|].
  exact (fir_forgets_initial_state Examples.fir_loaded Cases.fir_cleared
           [Examples.cx 1; Examples.cx 2; Examples.cx 3]
           fir_loaded_wf fir_cleared_wf Ht HN Hl).
Defined.

Lemma nonfinite_tap_spoils_output_witness :
  (filter_wf Cases.fir_inf
   /\ fwd_coeff Cases.fir_inf !! 1%nat = Some (S754_infinity false)
   /\ is_finite (S754_infinity false) = false)
  /\ exists ys g,
      filter_run Cases.fir_inf [Examples.cx 1; Examples.cx 2] = Some (ys, g)
      /\ length ys = length [Examples.cx 1; Examples.cx 2]
      /\ Forall (fun y => is_finite (re y) = false
                          /\ is_finite (im y) = false) ys.
Proof.
  split; [split_and!; [exact fir_inf_wf | reflexivity | reflexivity]|].
  exact (nonfinite_tap_spoils_output Cases.fir_inf 1 (S754_infinity false)
           [Examples.cx 1; Examples.cx 2] fir_inf_wf eq_refl eq_refl).
Defined.

Lemma filter_rrc_symmetric_witness :
  (0 <= 32 /\ 2 * 32 + 1 <= INT_MAX /\ 0 <= 5 <= 32)
  /\ exists f c,
      filter_rrc (fun x => x) (fun x => x) 32 2 (f_of_Z 1) Examples.half
      = Some f
      /\ load (fwd_coeff f) (32 - 5) = Some c
      /\ load (fwd_coeff f) (32 + 5) = Some c.
Proof.
  assert (0 <= 32) as H0 by lia.
  assert (2 * 32 + 1 <= INT_MAX) as H1 by (vm_compute; discriminate).
  assert (0 <= 5 <= 32) as Hk by lia.
  split; [done|].
  exact (filter_rrc_symmetric (fun x => x) (fun x => x) 32 2
           (f_of_Z 1) Examples.half 5 H0 H1 Hk).
Defined.

Lemma filter_rrc_taps_exact_witness :
  (0 <= 32 /\ 2 * 32 + 1 <= INT_MAX /\ 0 <= 30 < 2 * 32 + 1
   /\ valid_binary 24 128
        (compute_rrc_coeff (fun x => x) (fun x => x) 30 (2 * 32 + 1)
           (fmul (f_of_Z 1) (f_of_Z 2)) Examples.half) = true)
  /\ exists f,
      filter_rrc (fun x => x) (fun x => x) 32 2 (f_of_Z 1) Examples.half
      = Some f
      /\ load (fwd_coeff f) 30
         = Some (compute_rrc_coeff (fun x => x) (fun x => x) 30 (2 * 32 + 1)
                   (fmul (f_of_Z 1) (f_of_Z 2)) Examples.half).
Proof.
  assert (0 <= 32) as H0 by lia.
  assert (2 * 32 + 1 <= INT_MAX) as H1 by (vm_compute; discriminate).
  assert (0 <= 30 < 2 * 32 + 1) as Hi by lia.
  assert (valid_binary 24 128
            (compute_rrc_coeff (fun x => x) (fun x => x) 30 (2 * 32 + 1)
               (fmul (f_of_Z 1) (f_of_Z 2)) Examples.half) = true) as Hv
    by (vm_compute; reflexivity).
  split; [exact (conj H0 (conj H1 (conj Hi Hv)))|].
  exact (filter_rrc_taps_exact (fun x => x) (fun x => x) 32 2
           (f_of_Z 1) Examples.half 30 H0 H1 Hi Hv).
Defined.

Lemma used_interp_wf : interp_wf Cases.used_interp.
Proof.
  split; cbn.
  - lia.
  - intros d [= <-]. cbn. lia.
  - unfold INT_MAX. lia.
  - split; cbn; unfold INT_MAX; lia.
Defined.

Lemma interp_read_keeps_invariant_witness :
  (interp_wf Examples.short_interp /\ 0 < 8 <= INT_MAX
   /\ ListSource.read (st_src (_backend Examples.short_interp))
        (8 `quot` st_factor (_backend Examples.short_interp))
      = (3, (ListSource.read (st_src (_backend Examples.short_interp)) 4).2)
   /\ 7 `quot` st_factor (_backend Examples.short_interp)
      < Z.of_nat (length (ListSource.buf
           (ListSource.read (st_src (_backend Examples.short_interp)) 4).2)))
  /\ exists r self' d,
      Examples.list_interp_read Examples.short_interp 8 = Some (r, self')
      /\ interp_wf self'
      /\ count self' = 8
      /\ st_factor (_backend self')
         = st_factor (_backend Examples.short_interp)
      /\ st_src (_backend self')
         = (ListSource.read (st_src (_backend Examples.short_interp)) 4).2
      /\ data self' = Some d /\ 8 <= Z.of_nat (length d).
Proof.
  set (self := Examples.short_interp).
  set (src' := (ListSource.read (st_src (_backend self)) 4).2).
  assert (interp_wf self) as Hwf by apply interp2_wf.
  assert (0 < 8 <= INT_MAX) as Hn by (unfold INT_MAX; lia).
  assert (ListSource.read (st_src (_backend self))
            (8 `quot` st_factor (_backend self)) = (3, src')) as Hread
    by reflexivity.
  assert (- 2 ^ 31 <= 3 <= INT_MAX) as Hp by (unfold INT_MAX; lia).
  assert (7 `quot` st_factor (_backend self)
          < Z.of_nat (length (ListSource.buf src'))) as Hlen
    by (vm_compute; reflexivity).
  split; [done|].
  exact (interp_read_keeps_invariant ListSource.t ListSource.read
           ListSource.buf self 8 3 src' Hwf Hn Hread Hp Hlen).
Defined.

Lemma interp_read_reuses_buffer_witness :
  (interp_wf Cases.used_interp /\ 0 < 4 <= INT_MAX
   /\ ListSource.read (st_src (_backend Cases.used_interp))
        (4 `quot` st_factor (_backend Cases.used_interp))
      = (2, (ListSource.read (st_src (_backend Cases.used_interp)) 2).2)
   /\ 3 `quot` st_factor (_backend Cases.used_interp)
      < Z.of_nat (length (ListSource.buf
           (ListSource.read (st_src (_backend Cases.used_interp)) 2).2)))
  /\ exists self' out,
      Examples.list_interp_read Cases.used_interp 4 = Some (4, self')
      /\ data self' = Some out
      /\ (forall d, data Cases.used_interp = Some d ->
            4 <= count Cases.used_interp ->
            length out = length d
            /\ drop (Z.to_nat 4) out = drop (Z.to_nat 4) d)
      /\ (count Cases.used_interp < 4 -> Z.of_nat (length out) = 4).
Proof.
  set (self := Cases.used_interp).
  set (src' := (ListSource.read (st_src (_backend self)) 2).2).
  assert (0 < 4 <= INT_MAX) as Hn by (unfold INT_MAX; lia).
  assert (ListSource.read (st_src (_backend self))
            (4 `quot` st_factor (_backend self)) = (2, src')) as Hread
    by reflexivity.
  assert (- 2 ^ 31 <= 2 <= INT_MAX) as Hp by (unfold INT_MAX; lia).
  assert (2 <> 0) as Hnz by lia.
  assert (3 `quot` st_factor (_backend self)
          < Z.of_nat (length (ListSource.buf src'))) as Hlen
    by (vm_compute; reflexivity).
  split; [split_and!; [exact used_interp_wf | done..]|].
  exact (interp_read_reuses_buffer ListSource.t ListSource.read
           ListSource.buf self 4 2 src' used_interp_wf Hn Hread Hp Hnz Hlen).
Defined.

Lemma interp_read_holds_samples_witness :
  (interp_wf Cases.used_interp /\ 0 < 2
   /\ 2 * st_factor (_backend Cases.used_interp) <= INT_MAX
   /\ ListSource.read (st_src (_backend Cases.used_interp)) 2
      = (2, (ListSource.read (st_src (_backend Cases.used_interp)) 2).2)
   /\ 2 <= Z.of_nat (length (ListSource.buf
             (ListSource.read (st_src (_backend Cases.used_interp)) 2).2)))
  /\ exists ys rrc' out,
      filter_run (st_rrc (_backend Cases.used_interp))
        (take (Z.to_nat 2)
           (ListSource.buf
              (ListSource.read (st_src (_backend Cases.used_interp)) 2).2)
         ≫= replicate (Z.to_nat (st_factor (_backend Cases.used_interp))))
      = Some (ys, rrc')
      /\ Examples.list_interp_read Cases.used_interp
           (2 * st_factor (_backend Cases.used_interp))
         = Some (2 * st_factor (_backend Cases.used_interp),
                 {| count := 2 * st_factor (_backend Cases.used_interp);
                    data := Some out;
                    _backend :=
                      {| st_src :=
                           (ListSource.read
                              (st_src (_backend Cases.used_interp)) 2).2;
                         st_rrc := rrc';
                         st_factor :=
                           st_factor (_backend Cases.used_interp) |} |})
      /\ take (Z.to_nat (2 * st_factor (_backend Cases.used_interp))) out
         = cplx_div_sqrt2 <$> ys.
Proof.
  set (self := Cases.used_interp).
  set (src' := (ListSource.read (st_src (_backend self)) 2).2).
  assert (0 < 2) as Hk by lia.
  assert (2 * st_factor (_backend self) <= INT_MAX) as Hmax
    by (vm_compute; discriminate).
  assert (ListSource.read (st_src (_backend self)) 2 = (2, src')) as Hread
    by reflexivity.
  assert (- 2 ^ 31 <= 2 <= INT_MAX) as Hp by (unfold INT_MAX; lia).
  assert (2 <> 0) as Hnz by lia.
  assert (2 <= Z.of_nat (length (ListSource.buf src'))) as Hlen
    by (vm_compute; discriminate).
  split; [split_and!; [exact used_interp_wf | done..]|].
  exact (interp_read_holds_samples ListSource.t ListSource.read
           ListSource.buf self 2 2 src' used_interp_wf Hk Hmax Hread Hp Hnz
           Hlen).
Defined.

Lemma interp_read_defined_iff_witness :
  (interp_wf Examples.short_interp /\ 0 < 8 <= INT_MAX
   /\ ListSource.read (st_src (_backend Examples.short_interp))
        (8 `quot` st_factor (_backend Examples.short_interp))
      = (3, (ListSource.read (st_src (_backend Examples.short_interp)) 4).2))
  /\ (is_Some (Examples.list_interp_read Examples.short_interp 8)
      <-> 7 `quot` st_factor (_backend Examples.short_interp)
          < Z.of_nat (length (ListSource.buf
               (ListSource.read (st_src (_backend Examples.short_interp))
                  4).2))).
Proof.
  set (self := Examples.short_interp).
  set (src' := (ListSource.read (st_src (_backend self)) 4).2).
  assert (interp_wf self) as Hwf by apply interp2_wf.
  assert (0 < 8 <= INT_MAX) as Hn by (unfold INT_MAX; lia).
  assert (ListSource.read (st_src (_backend self))
            (8 `quot` st_factor (_backend self)) = (3, src')) as Hread
    by reflexivity.
  assert (- 2 ^ 31 <= 3 <= INT_MAX) as Hp by (unfold INT_MAX; lia).
  assert (3 <> 0) as Hnz by lia.
  split; [done|].
  exact (interp_read_defined_iff ListSource.t ListSource.read
           ListSource.buf self 8 3 src' Hwf Hn Hread Hp Hnz).
Defined.

Lemma interp_read_below_factor_witness :
  (interp_wf Examples.short_interp
   /\ 0 < 1 < st_factor (_backend Examples.short_interp)
   /\ ListSource.read (st_src (_backend Examples.short_interp)) 0
      = (0, (ListSource.read (st_src (_backend Examples.short_interp)) 0).2))
  /\ interp_request 1 (st_factor (_backend Examples.short_interp)) = 0
  /\ exists self',
      Examples.list_interp_read Examples.short_interp 1 = Some (0, self')
      /\ count self' = 1
      /\ st_rrc (_backend self') = st_rrc (_backend Examples.short_interp)
      /\ st_src (_backend self')
         = (ListSource.read (st_src (_backend Examples.short_interp)) 0).2.
Proof.
  set (self := Examples.short_interp).
  set (src' := (ListSource.read (st_src (_backend self)) 0).2).
  assert (interp_wf self) as Hwf by apply interp2_wf.
  assert (0 < 1 < st_factor (_backend self)) as Hn by (cbn; lia).
  assert (ListSource.read (st_src (_backend self)) 0 = (0, src')) as Hread
    by reflexivity.
  split; [done|].
  exact (interp_read_below_factor ListSource.t ListSource.read
           ListSource.buf self 1 src' Hwf Hn Hread).
Defined.

Lemma fast_worker_ok : buffer_ok 8 Examples.fast_worker.
Proof. unfold buffer_ok, INT_MAX. cbn. lia. Defined.

Lemma worker_stays_in_buffer_witness :
  buffer_ok 8 Examples.busy_worker
  /\ exists ws,
      run_trace unit unit Examples.pass Examples.pass 8
        Examples.busy_worker [Examples.cx 9; Examples.cx 8; Examples.cx 7]
      = Some ws
      /\ length ws = S (length [Examples.cx 9; Examples.cx 8; Examples.cx 7])
      /\ Forall (fun w' =>
                   0 <= buf_offset w'
                   /\ buf_offset w' + 2 <= Z.of_nat (length (out_buf w'))
                   /\ length (out_buf w')
                      = length (out_buf Examples.busy_worker)) ws.
Proof.
  split; [exact busy_worker_ok|].
  exact (worker_stays_in_buffer unit unit Examples.pass Examples.pass 8
           Examples.busy_worker
           [Examples.cx 9; Examples.cx 8; Examples.cx 7] busy_worker_ok).
Defined.

Lemma bytes_out_counts_emitted_witness :
  (buffer_ok 8 Examples.fast_worker
   /\ demod_get_bytes_out Examples.fast_worker
      = to_uint (Z.of_nat (length (emitted Examples.fast_worker)))
   /\ Z.of_nat (length (emitted Examples.fast_worker)) mod 2 = 0)
  /\ exists ws,
      run_trace unit unit Examples.pass Examples.pass 8
        Examples.fast_worker [Examples.cx 9; Examples.cx 8; Examples.cx 7]
      = Some ws
      /\ Forall (fun w' =>
                   demod_get_bytes_out w'
                   = to_uint (Z.of_nat (length (emitted w')))
                   /\ Z.of_nat (length (emitted w')) mod 2 = 0) ws.
Proof.
  assert (demod_get_bytes_out Examples.fast_worker
          = to_uint (Z.of_nat (length (emitted Examples.fast_worker)))) as Hc
    by reflexivity.
  assert (Z.of_nat (length (emitted Examples.fast_worker)) mod 2 = 0) as He
    by reflexivity.
  split; [split_and!; [exact fast_worker_ok | done..]|].
  exact (bytes_out_counts_emitted unit unit Examples.pass Examples.pass 8
           Examples.fast_worker
           [Examples.cx 9; Examples.cx 8; Examples.cx 7]
           fast_worker_ok Hc He).
Defined.

Lemma flush_in_whole_blocks_witness :
  (2 <= 8 <= Z.of_nat (length (out_buf Examples.fast_worker))
   /\ Z.of_nat (length (out_buf Examples.fast_worker)) <= INT_MAX
   /\ 0 <= buf_offset Examples.fast_worker < 8 - 8 mod 2
   /\ buf_offset Examples.fast_worker mod 2 = 0
   /\ Z.of_nat (length (out_fd Examples.fast_worker)) mod (8 - 8 mod 2) = 0)
  /\ exists ws,
      run_trace unit unit Examples.pass Examples.pass 8
        Examples.fast_worker [Examples.cx 9; Examples.cx 8; Examples.cx 7]
      = Some ws
      /\ Forall (fun w' =>
                   0 <= buf_offset w' < 8 - 8 mod 2
                   /\ buf_offset w' mod 2 = 0
                   /\ Z.of_nat (length (out_fd w')) mod (8 - 8 mod 2) = 0) ws
      /\ (forall i w1 w2,
            ws !! i = Some w1 -> ws !! S i = Some w2 ->
            out_fd w2 = out_fd w1
            \/ exists bytes,
                 out_fd w2 = out_fd w1 ++ bytes
                 /\ Z.of_nat (length bytes) = 8 - 8 mod 2
                 /\ buf_offset w2 = 0).
Proof.
  assert (2 <= 8 <= Z.of_nat (length (out_buf Examples.fast_worker))) as H1
    by (vm_compute; split; discriminate).
  assert (Z.of_nat (length (out_buf Examples.fast_worker)) <= INT_MAX) as H2
    by (vm_compute; discriminate).
  assert (0 <= buf_offset Examples.fast_worker < 8 - 8 mod 2) as H3
    by (vm_compute; split; [discriminate | reflexivity]).
  assert (buf_offset Examples.fast_worker mod 2 = 0) as H4 by reflexivity.
  assert (Z.of_nat (length (out_fd Examples.fast_worker)) mod (8 - 8 mod 2)
          = 0) as H5 by reflexivity.
  split; [done|].
  exact (flush_in_whole_blocks unit unit Examples.pass Examples.pass 8
           Examples.fast_worker
           [Examples.cx 9; Examples.cx 8; Examples.cx 7] H1 H2 H3 H4 H5).
Defined.


(** A list source keeps the room of its buffer, and what it returns is
    a number of samples of its stream. *)
Lemma list_source_ready (s : ListSource.t) (n : Z) :
  Cases.src_ready s ->
  Cases.src_ready (ListSource.read s n).2
  /\ - 2 ^ 31 <= (ListSource.read s n).1 <= INT_MAX
  /\ (4 - 1) `quot` 2
     < Z.of_nat (length (ListSource.buf (ListSource.read s n).2)).
Proof.
  unfold Cases.src_ready, ListSource.read, INT_MAX. cbn.
  rewrite length_app, length_take, !length_drop. intros [Hb Hp].
  change ((4 - 1) `quot` 2) with 1. lia.
Qed.

Lemma thread_file_matches_counter_witness :
  ((forall s n, Cases.src_ready s ->
      Cases.src_ready (ListSource.read s n).2
      /\ - 2 ^ 31 <= (ListSource.read s n).1 <= INT_MAX
      /\ (4 - 1) `quot` st_factor
                          (_backend (Examples.interp2 Examples.stream5
                                       Examples.stale4))
         < Z.of_nat (length (ListSource.buf (ListSource.read s n).2)))
   /\ interp_wf (Examples.interp2 Examples.stream5 Examples.stale4)
   /\ Cases.src_ready
        (st_src (_backend (Examples.interp2 Examples.stream5
                             Examples.stale4)))
   /\ 0 < 4 <= INT_MAX
   /\ 2 <= Z.of_nat (length (replicate 8 0))
   /\ 8 <= Z.of_nat (length (replicate 8 0)) <= INT_MAX)
  /\ exists it' w file,
      Cases.list_thread 3 (Examples.interp2 Examples.stream5 Examples.stale4)
        Examples.half (replicate 8 0) tt tt
      = Some (it', w, file)
      /\ interp_wf it'
      /\ file = emitted w
      /\ demod_get_bytes_out w = to_uint (Z.of_nat (length file))
      /\ Z.of_nat (length file) mod 2 = 0.
Proof.
  set (it := Examples.interp2 Examples.stream5 Examples.stale4).
  assert (interp_wf it) as Hwf by apply interp2_wf.
  assert (Cases.src_ready (st_src (_backend it))) as Hok
    by (unfold Cases.src_ready, INT_MAX; cbn; lia).
  assert (0 < 4 <= INT_MAX) as Hc by (unfold INT_MAX; lia).
  assert (2 <= Z.of_nat (length (replicate 8 0))) as Hb2 by (cbn; lia).
  assert (8 <= Z.of_nat (length (replicate 8 0)) <= INT_MAX) as Hbs
    by (unfold INT_MAX; cbn; lia).
  split; [split_and!; [exact list_source_ready | done..]|].
  exact (thread_file_matches_counter ListSource.t ListSource.read
           ListSource.buf unit unit Examples.pass Examples.pass 8 4
           Cases.src_ready 3 it Examples.half (replicate 8 0) tt tt
           list_source_ready Hwf Hok Hc Hb2 Hbs).
Defined.

Lemma fir_integers_exact_witness :
  (0 <= 5 /\ 5 * abs_sum [1; 1] < 2 ^ 24)
  /\ Forall2 holds [1; 1] (fwd_coeff Examples.fir_loaded)
  /\ Forall (int_sample 5) (mem Examples.fir_loaded)
  /\ Forall (int_sample 5) Examples.stream5
  /\ run_exact Examples.fir_loaded Examples.stream5.
Proof.
  assert (0 <= 5) as HB by lia.
  assert (5 * abs_sum [1; 1] < 2 ^ 24) as Hs by reflexivity.
  assert (back_count Examples.fir_loaded <= 1) as HN
    by (vm_compute; discriminate).
  assert (Forall2 holds [1; 1] (fwd_coeff Examples.fir_loaded)) as Hc.
  { repeat constructor; apply holds_f_of_Z; reflexivity. }
  assert (forall z, Z.abs z <= 5 -> int_sample 5 (Examples.cx z)) as Hcx.
  { intros z Hz. apply int_sample_cx; [done|]. change (2 ^ 24) with 16777216.
    lia. }
  assert (Forall (int_sample 5) (mem Examples.fir_loaded)) as Hm.
  { repeat constructor; apply Hcx; cbn; lia. }
  assert (Forall (int_sample 5) Examples.stream5) as Hx.
  { repeat constructor; apply Hcx; cbn; lia. }
  split; [done|]. split; [exact Hc|]. split; [exact Hm|]. split; [exact Hx|].
  exact (fir_integers_exact 5 [1; 1] HB Hs Examples.fir_loaded
           Examples.stream5 fir_loaded_wf HN Hc Hm Hx).
Defined.
